(** * The cipher engine of the security project, embedded in Rocq

    A shallow embedding of the TypeScript sources

    - [utils/cryptography/caesarCipher.ts]
    - [utils/cryptography/affineCipher.ts]
    - [utils/cryptography/monoalphabeticCipher.ts]
    - [utils/cryptography/aesCipher.ts]
    - [utils/algorithmData.ts]
    - [components/ProcessVisualization.tsx]
    - [App.tsx], [components/KeyInput.tsx] and
      [components/AlgorithmSelector.tsx], for the functions that check,
      make and order what a run is given

    followed by the properties the specification states about them and by
    further properties of the code.

    Conventions.  A JavaScript string is the list of its UTF-16 code units,
    each a [Z]; a [number] that the code uses as an integer is a [Z], and the
    JavaScript remainder [%] (sign of the dividend) is [Z.rem].  A
    [Uint8Array] is a [list Z] whose stores truncate to eight bits.  A
    function that can throw returns an [outcome]: its value, or the message
    of the [Error] thrown. *)

From stdpp Require Import base numbers list strings gmap.
From Stdlib Require Import DecimalString Btauto.

Local Open Scope Z_scope.

(** ** JavaScript values *)

Abbreviation jsstring := (list Z).

(** The code units of a literal; the literals of the sources are ASCII. *)
Definition str (s : string) : jsstring :=
  (λ c, Z.of_N (Ascii.N_of_ascii c)) <$> String.list_ascii_of_string s.

Inductive outcome (A : Type) : Type :=
  | Return (value : A)
  | Throw (message : jsstring).
Arguments Return {A} value.
Arguments Throw {A} message.

#[global] Instance outcome_ret : MRet outcome := λ A x, Return x.
#[global] Instance outcome_bind : MBind outcome := λ A B f m,
  match m with
  | Return x => f x
  | Throw msg => Throw msg
  end.
#[global] Instance outcome_fmap : FMap outcome := λ A B f m,
  match m with
  | Return x => Return (f x)
  | Throw msg => Throw msg
  end.

(** [char.match(/[A-Z]/)] and [char.match(/[a-z]/)] for a string [char] of
    one code unit. *)
Definition matchUpper (char : Z) : bool := (65 <=? char) && (char <=? 90).
Definition matchLower (char : Z) : bool := (97 <=? char) && (char <=? 122).

(** [String.fromCharCode(n)]: the code unit [ToUint16(n)]. *)
Definition fromCharCode (n : Z) : Z := n `mod` 65536.

(** [String.prototype.toUpperCase] and [toLowerCase] on the Basic Latin
    letters, the range the ciphers' regular expressions select.  The
    embedding leaves every other code unit as it is; JavaScript also maps
    the cased letters of other scripts, which the ciphers only meet in a
    key that holds such a letter. *)
Definition upperChar (c : Z) : Z := if matchLower c then c - 32 else c.
Definition lowerChar (c : Z) : Z := if matchUpper c then c + 32 else c.
Definition toUpperCase (s : jsstring) : jsstring := upperChar <$> s.
Definition toLowerCase (s : jsstring) : jsstring := lowerChar <$> s.

(** [s.indexOf(c)] for a one-unit string [c]: the first position, or -1. *)
Fixpoint indexOf (s : jsstring) (c : Z) : Z :=
  match s with
  | [] => -1
  | x :: rest =>
      if x =? c then 0
      else let i := indexOf rest c in if i <? 0 then -1 else i + 1
  end.

(** [s[i]]: the one-unit string at [i], [undefined] out of range. *)
Definition charAt (s : jsstring) (i : Z) : option Z :=
  if i <? 0 then None else s !! Z.to_nat i.

(** The decimal rendering of an integer, as a template literal inserts it. *)
Definition numberToString (n : Z) : jsstring :=
  str (NilZero.string_of_int (Z.to_int n)).

(** ** caesarCipher.ts *)

Definition caesarEncrypt (text : jsstring) (shift : Z) : jsstring :=
  let shift := ((shift `rem` 26) + 26) `rem` 26 in
  (λ char,
     if matchUpper char then
       fromCharCode (((char - 65 + shift) `rem` 26) + 65)
     else if matchLower char then
       fromCharCode (((char - 97 + shift) `rem` 26) + 97)
     else char) <$> text.

Definition caesarDecrypt (text : jsstring) (shift : Z) : jsstring :=
  caesarEncrypt text (26 - (shift `rem` 26)).

(** [Number.isInteger] holds of every [Z]. *)
Definition validateCaesarKey (key : Z) : bool :=
  (0 <=? key) && (key <=? 25).

(** ** affineCipher.ts *)

Record AffineKey : Type := { a : Z; b : Z }.

(** The recursive arrow function
    [gcd = (x, y) => (y === 0 ? x : gcd(y, x % y))].  The recursion is driven
    by a counter that starts above [|y|]; [gcd_unfold] shows that the counter
    never runs out. *)
Fixpoint gcd_rec (n : nat) (x y : Z) : Z :=
  match n with
  | O => x
  | S n' => if y =? 0 then x else gcd_rec n' y (x `rem` y)
  end.

Definition gcd (x y : Z) : Z := gcd_rec (S (Z.abs_nat y)) x y.

(** The loop [for (let i = 1; i < m; i++) if ((a * i) % m === 1) return i],
    with the [return 1] after it. *)
Definition inverseSearch (a m : Z) : Z :=
  default 1 (head (filter (λ i, (a * i) `rem` m = 1) (seqZ 1 (m - 1)))).

Definition modInverse (a m : Z) : outcome Z :=
  if negb (gcd a m =? 1) then
    Throw (numberToString a ++ str " and " ++ numberToString m
             ++ str " are not coprime")
  else Return (inverseSearch a m).

(** The message ['The value of "a" must be coprime with 26']. *)
Definition notCoprimeMessage : jsstring :=
  str "The value of " ++ [34] ++ str "a" ++ [34]
    ++ str " must be coprime with 26".

Definition affineEncrypt (text : jsstring) (key : AffineKey) : outcome jsstring :=
  let '{| a := a; b := b |} := key in
  if negb (gcd a 26 =? 1) then Throw notCoprimeMessage
  else
    Return
      ((λ char,
          if matchUpper char then
            let code := char - 65 in
            fromCharCode ((((a * code) + b) `rem` 26) + 65)
          else if matchLower char then
            let code := char - 97 in
            fromCharCode ((((a * code) + b) `rem` 26) + 97)
          else char) <$> text).

(** The body of [affineDecrypt] sits in a [try]; the [catch] turns the
    error into the returned text [`Error: ${errorMessage}`]. *)
Definition affineDecrypt (text : jsstring) (key : AffineKey) : outcome jsstring :=
  let '{| a := a; b := b |} := key in
  let body : outcome jsstring :=
    aInverse ← modInverse a 26;
    Return
      ((λ char,
          if matchUpper char then
            let code := char - 65 in
            fromCharCode (((aInverse * (code - b + 26)) `rem` 26) + 65)
          else if matchLower char then
            let code := char - 97 in
            fromCharCode (((aInverse * (code - b + 26)) `rem` 26) + 97)
          else char) <$> text) in
  match body with
  | Return result => Return result
  | Throw errorMessage => Return (str "Error: " ++ errorMessage)
  end.

(** The two [Number.isInteger] tests hold of every [Z]. *)
Definition validateAffineKey (key : AffineKey) : bool :=
  let '{| a := a; b := b |} := key in
  if (a <? 1) || (25 <? a) || (b <? 0) || (25 <? b) then false
  else gcd a 26 =? 1.

(** ** monoalphabeticCipher.ts *)

Definition ALPHABET : jsstring := str "ABCDEFGHIJKLMNOPQRSTUVWXYZ".

(** [letterCount[char]] is truthy when the entry is there and not zero. *)
Definition truthy (entry : option Z) : bool :=
  match entry with
  | Some v => negb (v =? 0)
  | None => false
  end.

(** The [for (const char of key)] loop of the validator: [None] is one of
    its two [return false], [Some] the [letterCount] it leaves.  The loop
    walks code points; a code point of two code units holds no letter of
    [A-Z] and ends the loop like either of its units does here. *)
Fixpoint countLetters (chars : jsstring) (letterCount : gmap Z Z)
  : option (gmap Z Z) :=
  match chars with
  | [] => Some letterCount
  | char :: rest =>
      if negb (matchUpper char) then None
      else if truthy (letterCount !! char) then None
      else countLetters rest (<[char := 1]> letterCount)
  end.

Definition validateMonoalphabeticKey (key : jsstring) : bool :=
  let key := toUpperCase key in
  if negb (length key =? 26)%nat then false
  else
    match countLetters key ∅ with
    | None => false
    | Some letterCount => (size letterCount =? 26)%nat
    end.

(** [Array.prototype.join('')] renders an [undefined] element as the empty
    string. *)
Definition joinChars (parts : list (option Z)) : jsstring :=
  parts ≫= (λ p, match p with Some c => [c] | None => [] end).

(** Calling a method on [undefined] throws a [TypeError]. *)
Definition typeErrorMessage : jsstring :=
  str "Cannot read properties of undefined".

Definition lowerOf (entry : option Z) : outcome (option Z) :=
  match entry with
  | Some c => Return (Some (lowerChar c))
  | None => Throw typeErrorMessage
  end.

Definition monoalphabeticEncrypt (text key : jsstring) : outcome jsstring :=
  let key := toUpperCase key in
  if negb (validateMonoalphabeticKey key) then
    Throw (str "Invalid substitution key")
  else
    parts ← mapM (λ char,
      if matchUpper char then
        let index := indexOf ALPHABET char in
        Return (charAt key index)
      else if matchLower char then
        let index := indexOf ALPHABET (upperChar char) in
        lowerOf (charAt key index)
      else Return (Some char)) text;
    Return (joinChars parts).

Definition monoalphabeticDecrypt (text key : jsstring) : outcome jsstring :=
  let key := toUpperCase key in
  if negb (validateMonoalphabeticKey key) then
    Throw (str "Invalid substitution key")
  else
    parts ← mapM (λ char,
      if matchUpper char then
        let index := indexOf key char in
        Return (charAt ALPHABET index)
      else if matchLower char then
        let index := indexOf key (upperChar char) in
        lowerOf (charAt ALPHABET index)
      else Return (Some char)) text;
    Return (joinChars parts).

(** ** aesCipher.ts *)

(** *** Typed arrays and loops *)

(** [new Uint8Array(n)]. *)
Definition newUint8Array (n : Z) : list Z := replicate (Z.to_nat n) 0.

(** [arr[i]] read where the value is stored back into a [Uint8Array] or is
    an operand of [^]: there the [undefined] of an index out of range counts
    as 0. *)
Definition get (arr : list Z) (i : Z) : Z :=
  if i <? 0 then 0 else default 0 (arr !! Z.to_nat i).

(** [arr[i] = v] on a [Uint8Array]: the value is truncated to eight bits,
    and a store out of range is ignored. *)
Definition set (arr : list Z) (i : Z) (v : Z) : list Z :=
  if i <? 0 then arr else <[Z.to_nat i := v `mod` 256]> arr.

(** [arr.subarray(lo, hi)] for [0 <= lo <= hi]. *)
Definition subarray (arr : list Z) (lo hi : Z) : list Z :=
  take (Z.to_nat (hi - lo)) (drop (Z.to_nat lo) arr).

(** [target.set(source, offset)]; in the sources the copy always fits. *)
Definition setArray (target source : list Z) (offset : Z) : list Z :=
  take (Z.to_nat offset) target ++ source
    ++ drop (Z.to_nat offset + length source) target.

(** [for (let i = lo; i < hi; i++) body] and
    [for (let i = hi; i > lo; i--) body], the body acting on the state [S]. *)
Definition forLoop {S : Type} (lo hi : Z) (body : Z → S → S) (s : S) : S :=
  foldl (λ s i, body i s) s (seqZ lo (hi - lo)).

Definition forLoopDown {S : Type} (hi lo : Z) (body : Z → S → S) (s : S) : S :=
  foldl (λ s i, body i s) s (reverse (seqZ (lo + 1) (hi - lo))).

(** A [for] loop whose body can throw. *)
Definition forLoopM {S : Type} (lo hi : Z) (body : Z → S → outcome S) (s : S)
  : outcome S :=
  foldl (λ acc i, s ← acc; body i s) (Return s) (seqZ lo (hi - lo)).

(** [ToInt32], applied to the result of [<<]. *)
Definition toInt32 (n : Z) : Z := (n + 2147483648) `mod` 4294967296 - 2147483648.

(** *** Tables *)

Definition SBOX : list Z :=
  [
    99; 124; 119; 123; 242; 107; 111; 197;  48;   1; 103;  43; 254; 215; 171; 118;
   202; 130; 201; 125; 250;  89;  71; 240; 173; 212; 162; 175; 156; 164; 114; 192;
   183; 253; 147;  38;  54;  63; 247; 204;  52; 165; 229; 241; 113; 216;  49;  21;
     4; 199;  35; 195;  24; 150;   5; 154;   7;  18; 128; 226; 235;  39; 178; 117;
     9; 131;  44;  26;  27; 110;  90; 160;  82;  59; 214; 179;  41; 227;  47; 132;
    83; 209;   0; 237;  32; 252; 177;  91; 106; 203; 190;  57;  74;  76;  88; 207;
   208; 239; 170; 251;  67;  77;  51; 133;  69; 249;   2; 127;  80;  60; 159; 168;
    81; 163;  64; 143; 146; 157;  56; 245; 188; 182; 218;  33;  16; 255; 243; 210;
   205;  12;  19; 236;  95; 151;  68;  23; 196; 167; 126;  61; 100;  93;  25; 115;
    96; 129;  79; 220;  34;  42; 144; 136;  70; 238; 184;  20; 222;  94;  11; 219;
   224;  50;  58;  10;  73;   6;  36;  92; 194; 211; 172;  98; 145; 149; 228; 121;
   231; 200;  55; 109; 141; 213;  78; 169; 108;  86; 244; 234; 101; 122; 174;   8;
   186; 120;  37;  46;  28; 166; 180; 198; 232; 221; 116;  31;  75; 189; 139; 138;
   112;  62; 181; 102;  72;   3; 246;  14;  97;  53;  87; 185; 134; 193;  29; 158;
   225; 248; 152;  17; 105; 217; 142; 148; 155;  30; 135; 233; 206;  85;  40; 223;
   140; 161; 137;  13; 191; 230;  66; 104;  65; 153;  45;  15; 176;  84; 187;  22
  ].

Definition INV_SBOX : list Z :=
  [
    82;   9; 106; 213;  48;  54; 165;  56; 191;  64; 163; 158; 129; 243; 215; 251;
   124; 227;  57; 130; 155;  47; 255; 135;  52; 142;  67;  68; 196; 222; 233; 203;
    84; 123; 148;  50; 166; 194;  35;  61; 238;  76; 149;  11;  66; 250; 195;  78;
     8;  46; 161; 102;  40; 217;  36; 178; 118;  91; 162;  73; 109; 139; 209;  37;
   114; 248; 246; 100; 134; 104; 152;  22; 212; 164;  92; 204;  93; 101; 182; 146;
   108; 112;  72;  80; 253; 237; 185; 218;  94;  21;  70;  87; 167; 141; 157; 132;
   144; 216; 171;   0; 140; 188; 211;  10; 247; 228;  88;   5; 184; 179;  69;   6;
   208;  44;  30; 143; 202;  63;  15;   2; 193; 175; 189;   3;   1;  19; 138; 107;
    58; 145;  17;  65;  79; 103; 220; 234; 151; 242; 207; 206; 240; 180; 230; 115;
   150; 172; 116;  34; 231; 173;  53; 133; 226; 249;  55; 232;  28; 117; 223; 110;
    71; 241;  26; 113;  29;  41; 197; 137; 111; 183;  98;  14; 170;  24; 190;  27;
   252;  86;  62;  75; 198; 210; 121;  32; 154; 219; 192; 254; 120; 205;  90; 244;
    31; 221; 168;  51; 136;   7; 199;  49; 177;  18;  16;  89;  39; 128; 236;  95;
    96;  81; 127; 169;  25; 181;  74;  13;  45; 229; 122; 159; 147; 201; 156; 239;
   160; 224;  59;  77; 174;  42; 245; 176; 200; 235; 187;  60; 131;  83; 153;  97;
    23;  43;   4; 126; 186; 119; 214;  38; 225; 105;  20;  99;  85;  33;  12; 125
  ].

Definition RCON : list Z :=
  [
     1;   2;   4;   8;  16;  32;  64; 128;  27;  54; 108; 216; 171;  77; 154;  47
  ].

Record AESKeyParams : Type := { keySize : Z; nk : Z; nr : Z }.

Definition getKeyParams (keyLength : Z) : outcome AESKeyParams :=
  if keyLength =? 16 then Return {| keySize := 128; nk := 4; nr := 10 |}
  else if keyLength =? 24 then Return {| keySize := 192; nk := 6; nr := 12 |}
  else if keyLength =? 32 then Return {| keySize := 256; nk := 8; nr := 14 |}
  else Throw (str "Invalid key length. Must be 16, 24, or 32 bytes (128, 192, or 256 bits).").

(** *** Round transforms *)

Definition subBytes (state : list Z) : list Z :=
  forLoop 0 16 (λ i state, set state i (get SBOX (get state i))) state.

Definition invSubBytes (state : list Z) : list Z :=
  forLoop 0 16 (λ i state, set state i (get INV_SBOX (get state i))) state.

Definition shiftRows (state : list Z) : list Z :=
  let temp1 := get state 1 in
  let state := set state 1 (get state 5) in
  let state := set state 5 (get state 9) in
  let state := set state 9 (get state 13) in
  let state := set state 13 temp1 in
  let temp2A := get state 2 in
  let temp2B := get state 6 in
  let state := set state 2 (get state 10) in
  let state := set state 6 (get state 14) in
  let state := set state 10 temp2A in
  let state := set state 14 temp2B in
  let temp3 := get state 15 in
  let state := set state 15 (get state 11) in
  let state := set state 11 (get state 7) in
  let state := set state 7 (get state 3) in
  set state 3 temp3.

Definition invShiftRows (state : list Z) : list Z :=
  let temp1 := get state 13 in
  let state := set state 13 (get state 9) in
  let state := set state 9 (get state 5) in
  let state := set state 5 (get state 1) in
  let state := set state 1 temp1 in
  let temp2A := get state 10 in
  let temp2B := get state 14 in
  let state := set state 10 (get state 2) in
  let state := set state 14 (get state 6) in
  let state := set state 2 temp2A in
  let state := set state 6 temp2B in
  let temp3 := get state 3 in
  let state := set state 3 (get state 7) in
  let state := set state 7 (get state 11) in
  let state := set state 11 (get state 15) in
  set state 15 temp3.

(** One turn of the loop of [gmul] on the variables [(p, a, b)]. *)
Definition gmulStep (pab : Z * Z * Z) : Z * Z * Z :=
  let '(p, a, b) := pab in
  let p := if negb (Z.land b 1 =? 0) then Z.lxor p a else p in
  let hiBitSet := Z.land a 128 in
  let a := toInt32 (Z.shiftl a 1) in
  let a := if negb (hiBitSet =? 0) then Z.lxor a 27 else a in
  let b := Z.shiftr b 1 in
  (p, a, b).

Definition gmul (a b : Z) : Z :=
  let '(p, _, _) := forLoop 0 8 (λ _, gmulStep) (0, a, b) in
  Z.land p 255.

Definition mixColumns (state : list Z) : list Z :=
  forLoop 0 4 (λ c state,
    let colOffset := c * 4 in
    let temp := forLoop 0 4 (λ i temp, set temp i (get state (colOffset + i)))
                  (newUint8Array 4) in
    let t0 := get temp 0 in
    let t1 := get temp 1 in
    let t2 := get temp 2 in
    let t3 := get temp 3 in
    let state := set state colOffset
      (Z.lxor (Z.lxor (Z.lxor (gmul 2 t0) (gmul 3 t1)) t2) t3) in
    let state := set state (colOffset + 1)
      (Z.lxor (Z.lxor (Z.lxor t0 (gmul 2 t1)) (gmul 3 t2)) t3) in
    let state := set state (colOffset + 2)
      (Z.lxor (Z.lxor (Z.lxor t0 t1) (gmul 2 t2)) (gmul 3 t3)) in
    set state (colOffset + 3)
      (Z.lxor (Z.lxor (Z.lxor (gmul 3 t0) t1) t2) (gmul 2 t3))) state.

Definition invMixColumns (state : list Z) : list Z :=
  forLoop 0 4 (λ c state,
    let colOffset := c * 4 in
    let temp := forLoop 0 4 (λ i temp, set temp i (get state (colOffset + i)))
                  (newUint8Array 4) in
    let t0 := get temp 0 in
    let t1 := get temp 1 in
    let t2 := get temp 2 in
    let t3 := get temp 3 in
    let state := set state colOffset
      (Z.lxor (Z.lxor (Z.lxor (gmul 14 t0) (gmul 11 t1)) (gmul 13 t2)) (gmul 9 t3)) in
    let state := set state (colOffset + 1)
      (Z.lxor (Z.lxor (Z.lxor (gmul 9 t0) (gmul 14 t1)) (gmul 11 t2)) (gmul 13 t3)) in
    let state := set state (colOffset + 2)
      (Z.lxor (Z.lxor (Z.lxor (gmul 13 t0) (gmul 9 t1)) (gmul 14 t2)) (gmul 11 t3)) in
    set state (colOffset + 3)
      (Z.lxor (Z.lxor (Z.lxor (gmul 11 t0) (gmul 13 t1)) (gmul 9 t2)) (gmul 14 t3))) state.

Definition addRoundKey (state roundKey : list Z) : list Z :=
  forLoop 0 16 (λ i state, set state i (Z.lxor (get state i) (get roundKey i))) state.

(** *** Key schedule *)

(** [SubWord]: the loop [for (let j = 0; j < 4; j++) temp[j] = SBOX[temp[j]]]. *)
Definition subWord (temp : list Z) : list Z :=
  forLoop 0 4 (λ j temp, set temp j (get SBOX (get temp j))) temp.

(** [i / nk] is taken only when [i % nk === 0], where it is the exact
    quotient. *)
Definition keyExpansion (key : list Z) (params : AESKeyParams) : list Z :=
  let nk := nk params in
  let nr := nr params in
  let expandedKeySize := 4 * 4 * (nr + 1) in
  let expandedKey := newUint8Array expandedKeySize in
  let expandedKey :=
    forLoop 0 (Z.of_nat (length key))
      (λ i expandedKey, set expandedKey i (get key i)) expandedKey in
  forLoop nk ((nr + 1) * 4) (λ i expandedKey,
    let temp :=
      forLoop 0 4 (λ j temp, set temp j (get expandedKey ((i - 1) * 4 + j)))
        (newUint8Array 4) in
    let temp :=
      if i `rem` nk =? 0 then
        let tempByte := get temp 0 in
        let temp := set temp 0 (get temp 1) in
        let temp := set temp 1 (get temp 2) in
        let temp := set temp 2 (get temp 3) in
        let temp := set temp 3 tempByte in
        let temp := subWord temp in
        set temp 0 (Z.lxor (get temp 0) (get RCON ((i `quot` nk) - 1)))
      else if (6 <? nk) && (i `rem` nk =? 4) then subWord temp
      else temp in
    forLoop 0 4 (λ j expandedKey,
      set expandedKey (i * 4 + j)
        (Z.lxor (get expandedKey ((i - nk) * 4 + j)) (get temp j))) expandedKey)
    expandedKey.

(** *** Block cipher *)

Definition aesEncryptBlock (plaintext key : list Z) : outcome (list Z) :=
  if negb (Z.of_nat (length plaintext) =? 16) then
    Throw (str "Plaintext must be 16 bytes (128 bits)")
  else
    keyParams ← getKeyParams (Z.of_nat (length key));
    let roundKeys := keyExpansion key keyParams in
    let state := forLoop 0 16 (λ i state, set state i (get plaintext i))
                   (newUint8Array 16) in
    let state := addRoundKey state (subarray roundKeys 0 16) in
    let state :=
      forLoop 1 (nr keyParams) (λ round state,
        let state := subBytes state in
        let state := shiftRows state in
        let state := mixColumns state in
        addRoundKey state (subarray roundKeys (round * 16) ((round + 1) * 16)))
        state in
    let state := subBytes state in
    let state := shiftRows state in
    let state :=
      addRoundKey state
        (subarray roundKeys (nr keyParams * 16) ((nr keyParams + 1) * 16)) in
    Return state.

Definition aesDecryptBlock (ciphertext key : list Z) : outcome (list Z) :=
  if negb (Z.of_nat (length ciphertext) =? 16) then
    Throw (str "Ciphertext must be 16 bytes (128 bits)")
  else
    keyParams ← getKeyParams (Z.of_nat (length key));
    let roundKeys := keyExpansion key keyParams in
    let state := forLoop 0 16 (λ i state, set state i (get ciphertext i))
                   (newUint8Array 16) in
    let state :=
      addRoundKey state
        (subarray roundKeys (nr keyParams * 16) ((nr keyParams + 1) * 16)) in
    let state :=
      forLoopDown (nr keyParams - 1) 0 (λ round state,
        let state := invShiftRows state in
        let state := invSubBytes state in
        let state :=
          addRoundKey state (subarray roundKeys (round * 16) ((round + 1) * 16)) in
        invMixColumns state) state in
    let state := invShiftRows state in
    let state := invSubBytes state in
    let state := addRoundKey state (subarray roundKeys 0 16) in
    Return state.

(** *** Codecs *)

(** [TextEncoder.encode]: the code units are read as code points, a
    surrogate without its partner as U+FFFD, and written in UTF-8. *)
Definition isHighSurrogate (u : Z) : bool := (55296 <=? u) && (u <=? 56319).
Definition isLowSurrogate (u : Z) : bool := (56320 <=? u) && (u <=? 57343).

Fixpoint toCodePoints (units : jsstring) : list Z :=
  match units with
  | [] => []
  | u :: rest =>
      if isHighSurrogate u then
        match rest with
        | l :: rest' =>
            if isLowSurrogate l then
              (65536 + (u - 55296) * 1024 + (l - 56320)) :: toCodePoints rest'
            else 65533 :: toCodePoints rest
        | [] => [65533]
        end
      else if isLowSurrogate u then 65533 :: toCodePoints rest
      else u :: toCodePoints rest
  end.

Definition encodeCodePoint (cp : Z) : list Z :=
  if cp <? 128 then [cp]
  else if cp <? 2048 then
    [Z.lor 192 (Z.shiftr cp 6); Z.lor 128 (Z.land cp 63)]
  else if cp <? 65536 then
    [Z.lor 224 (Z.shiftr cp 12); Z.lor 128 (Z.land (Z.shiftr cp 6) 63);
     Z.lor 128 (Z.land cp 63)]
  else
    [Z.lor 240 (Z.shiftr cp 18); Z.lor 128 (Z.land (Z.shiftr cp 12) 63);
     Z.lor 128 (Z.land (Z.shiftr cp 6) 63); Z.lor 128 (Z.land cp 63)].

Definition stringToUint8Array (s : jsstring) : list Z :=
  toCodePoints s ≫= encodeCodePoint.

(** [new TextDecoder('utf-8').decode]: the UTF-8 decoder of the Encoding
    Standard, which writes U+FFFD for every malformed sequence and drops a
    byte order mark at the start. *)
Record Utf8Decoder : Type := {
  codePoint : Z;
  bytesNeeded : Z;
  bytesSeen : Z;
  lowerBoundary : Z;
  upperBoundary : Z
}.

Definition utf8Start : Utf8Decoder :=
  {| codePoint := 0; bytesNeeded := 0; bytesSeen := 0;
     lowerBoundary := 128; upperBoundary := 191 |}.

Definition utf8Lead (byte : Z) : Utf8Decoder * list Z :=
  if byte <=? 127 then (utf8Start, [byte])
  else if (194 <=? byte) && (byte <=? 223) then
    ({| codePoint := Z.land byte 31; bytesNeeded := 1; bytesSeen := 0;
        lowerBoundary := 128; upperBoundary := 191 |}, [])
  else if (224 <=? byte) && (byte <=? 239) then
    ({| codePoint := Z.land byte 15; bytesNeeded := 2; bytesSeen := 0;
        lowerBoundary := if byte =? 224 then 160 else 128;
        upperBoundary := if byte =? 237 then 159 else 191 |}, [])
  else if (240 <=? byte) && (byte <=? 244) then
    ({| codePoint := Z.land byte 7; bytesNeeded := 3; bytesSeen := 0;
        lowerBoundary := if byte =? 240 then 144 else 128;
        upperBoundary := if byte =? 244 then 143 else 191 |}, [])
  else (utf8Start, [65533]).

Definition utf8Byte (d : Utf8Decoder) (byte : Z) : Utf8Decoder * list Z :=
  if bytesNeeded d =? 0 then utf8Lead byte
  else if (byte <? lowerBoundary d) || (upperBoundary d <? byte) then
    let '(d', out) := utf8Lead byte in (d', 65533 :: out)
  else
    let cp := Z.lor (Z.shiftl (codePoint d) 6) (Z.land byte 63) in
    if bytesSeen d + 1 =? bytesNeeded d then (utf8Start, [cp])
    else
      ({| codePoint := cp; bytesNeeded := bytesNeeded d;
          bytesSeen := bytesSeen d + 1;
          lowerBoundary := 128; upperBoundary := 191 |}, []).

Fixpoint utf8Decode (d : Utf8Decoder) (bytes : list Z) : list Z :=
  match bytes with
  | [] => if bytesNeeded d =? 0 then [] else [65533]
  | byte :: rest => let '(d', out) := utf8Byte d byte in out ++ utf8Decode d' rest
  end.

Definition fromCodePoint (cp : Z) : jsstring :=
  if cp <? 65536 then [cp]
  else [55296 + Z.shiftr (cp - 65536) 10; 56320 + Z.land (cp - 65536) 1023].

Definition uint8ArrayToString (bytes : list Z) : jsstring :=
  let bytes := match bytes with 239 :: 187 :: 191 :: rest => rest | _ => bytes end in
  utf8Decode utf8Start bytes ≫= fromCodePoint.

(** The code units the regular expression [\s] matches. *)
Definition isWhiteSpace (c : Z) : bool :=
  ((9 <=? c) && (c <=? 13)) || (c =? 32) || (c =? 160) || (c =? 5760)
  || ((8192 <=? c) && (c <=? 8202)) || (c =? 8232) || (c =? 8233)
  || (c =? 8239) || (c =? 8287) || (c =? 12288) || (c =? 65279).

Definition hexDigit (c : Z) : option Z :=
  if (48 <=? c) && (c <=? 57) then Some (c - 48)
  else if (97 <=? c) && (c <=? 102) then Some (c - 87)
  else if (65 <=? c) && (c <=? 70) then Some (c - 55)
  else None.

Fixpoint hexPrefix (s : jsstring) (acc : option Z) : option Z :=
  match s with
  | [] => acc
  | c :: rest =>
      match hexDigit c with
      | Some d => hexPrefix rest (Some (16 * default 0 acc + d))
      | None => acc
      end
  end.

(** [parseInt(s, 16)] on a string without white space: an optional sign, an
    optional [0x], then the longest run of hexadecimal digits; [None] is
    [NaN]. *)
Definition parseInt16 (s : jsstring) : option Z :=
  let '(sign, s) :=
    match s with
    | 45 :: rest => (-1, rest)
    | 43 :: rest => (1, rest)
    | _ => (1, s)
    end in
  let s :=
    match s with
    | 48 :: 120 :: rest => rest
    | 48 :: 88 :: rest => rest
    | _ => s
    end in
  (λ n, sign * n) <$> hexPrefix s None.

(** The loop [for (let i = 0; i < hex.length; i += 2)
    bytes[i / 2] = parseInt(hex.substring(i, i + 2), 16)], run on the
    remaining characters; a [NaN] is stored as 0. *)
Fixpoint hexPairs (hex : jsstring) : list Z :=
  match hex with
  | c1 :: c2 :: rest => (default 0 (parseInt16 [c1; c2]) `mod` 256) :: hexPairs rest
  | _ => []
  end.

Definition hexToUint8Array (hexStr : jsstring) : outcome (list Z) :=
  let hex := filter (λ c, isWhiteSpace c = false) hexStr in
  if negb (Z.of_nat (length hex) `rem` 2 =? 0) then
    Throw (str "Hex string must have an even number of characters")
  else Return (hexPairs hex).

Definition hexChar (d : Z) : Z := if d <? 10 then 48 + d else 87 + d.

(** [b.toString(16).padStart(2, '0')] for a byte [b]; the separator of
    [uint8ArrayToHex] is left at its default, the empty string. *)
Definition uint8ArrayToHex (bytes : list Z) : jsstring :=
  bytes ≫= (λ b, [hexChar (b `quot` 16); hexChar (b `rem` 16)]).

(** *** Messages *)

Definition padPKCS7 (data : list Z) : list Z :=
  let blockSize := 16 in
  let len := Z.of_nat (length data) in
  let paddingLength := blockSize - (len `rem` blockSize) in
  let padded := newUint8Array (len + paddingLength) in
  let padded := setArray padded data 0 in
  forLoop len (Z.of_nat (length padded))
    (λ i padded, set padded i paddingLength) padded.

(** The loop of [unpadPKCS7] that compares the bytes of the padding: [true]
    when it reaches its end, [false] when it throws. *)
Definition paddingMatches (data : list Z) (paddingLength : Z) : bool :=
  let len := Z.of_nat (length data) in
  forallb (λ i, get data i =? paddingLength)
    (seqZ (len - paddingLength) paddingLength).

Definition unpadPKCS7 (data : list Z) : outcome (list Z) :=
  let len := Z.of_nat (length data) in
  if (len =? 0) || negb (len `rem` 16 =? 0) then
    Throw (str "Invalid padded data length")
  else
    let paddingLength := get data (len - 1) in
    if 16 <? paddingLength then Throw (str "Invalid padding value")
    else if negb (paddingMatches data paddingLength) then
      Throw (str "Invalid padding")
    else Return (subarray data 0 (len - paddingLength)).

Definition aesEncrypt (plaintext key : list Z) : outcome (list Z) :=
  let paddedPlaintext := padPKCS7 plaintext in
  let numBlocks := Z.of_nat (length paddedPlaintext) `quot` 16 in
  let ciphertext := newUint8Array (Z.of_nat (length paddedPlaintext)) in
  forLoopM 0 numBlocks (λ i ciphertext,
    let block := subarray paddedPlaintext (i * 16) ((i + 1) * 16) in
    encryptedBlock ← aesEncryptBlock block key;
    Return (setArray ciphertext encryptedBlock (i * 16))) ciphertext.

Definition aesDecrypt (ciphertext key : list Z) : outcome (list Z) :=
  if negb (Z.of_nat (length ciphertext) `rem` 16 =? 0) then
    Throw (str "Ciphertext length must be a multiple of 16 bytes")
  else
    let numBlocks := Z.of_nat (length ciphertext) `quot` 16 in
    let paddedPlaintext := newUint8Array (Z.of_nat (length ciphertext)) in
    paddedPlaintext ←
      forLoopM 0 numBlocks (λ i paddedPlaintext,
        let block := subarray ciphertext (i * 16) ((i + 1) * 16) in
        decryptedBlock ← aesDecryptBlock block key;
        Return (setArray paddedPlaintext decryptedBlock (i * 16)))
        paddedPlaintext;
    unpadPKCS7 paddedPlaintext.

Definition keyBytesOf (keyText : jsstring) (isHexKey : bool) : outcome (list Z) :=
  if isHexKey then hexToUint8Array keyText else Return (stringToUint8Array keyText).

Definition aesEncryptText (text keyText : jsstring) (isHexKey : bool)
  : outcome jsstring :=
  let textBytes := stringToUint8Array text in
  keyBytes ← keyBytesOf keyText isHexKey;
  ciphertext ← aesEncrypt textBytes keyBytes;
  Return (uint8ArrayToHex ciphertext).

Definition aesDecryptText (hexCiphertext keyText : jsstring) (isHexKey : bool)
  : outcome jsstring :=
  ciphertextBytes ← hexToUint8Array hexCiphertext;
  keyBytes ← keyBytesOf keyText isHexKey;
  plaintextBytes ← aesDecrypt ciphertextBytes keyBytes;
  Return (uint8ArrayToString plaintextBytes).

Definition validateAesKey (key : jsstring) : bool :=
  let keyBytes := stringToUint8Array key in
  let n := Z.of_nat (length keyBytes) in
  (n =? 16) || (n =? 24) || (n =? 32).

(** ** types.ts *)

(** A key as the registry receives it: the [any] of [Algorithm], whose
    values are the four fields of [AlgorithmKey], or [undefined]. *)
Inductive KeyValue : Type :=
  | NumberKey (n : Z)
  | CoefficientsKey (k : AffineKey)
  | StringKey (s : jsstring)
  | UndefinedKey.

(** Of [Algorithm], the identifier, the name and the three functions; the
    descriptive fields play no part in a run. *)
Record Algorithm : Type := {
  alg_id : jsstring;
  alg_name : jsstring;
  alg_encrypt : jsstring → KeyValue → outcome jsstring;
  alg_decrypt : jsstring → KeyValue → outcome jsstring;
  alg_keyValidator : KeyValue → bool
}.

Record AlgorithmKey : Type := {
  caesar : Z;
  affine : AffineKey;
  monoalphabetic : jsstring;
  aes : jsstring
}.

Record OrderEntry : Type := { entry_id : jsstring; entry_name : jsstring }.

Abbreviation AlgorithmOrder := (list OrderEntry).

Inductive OperationMode : Type := ModeEncrypt | ModeDecrypt.

(** ** algorithmData.ts *)

(** [AlgorithmKey] gives every identifier a key of its own shape, so a
    function of the registry meets no other shape; the embedding answers
    one with this error. *)
Definition keyShapeMessage : jsstring := str "key of another shape".

Definition withNumber (f : jsstring → Z → jsstring)
  : jsstring → KeyValue → outcome jsstring :=
  λ text key,
    match key with
    | NumberKey n => Return (f text n)
    | _ => Throw keyShapeMessage
    end.

Definition withCoefficients (f : jsstring → AffineKey → outcome jsstring)
  : jsstring → KeyValue → outcome jsstring :=
  λ text key,
    match key with
    | CoefficientsKey k => f text k
    | _ => Throw keyShapeMessage
    end.

Definition withString (f : jsstring → jsstring → outcome jsstring)
  : jsstring → KeyValue → outcome jsstring :=
  λ text key,
    match key with
    | StringKey s => f text s
    | _ => Throw keyShapeMessage
    end.

Definition decryptionFailed : jsstring :=
  str "Decryption failed. Please check your key and ciphertext.".

(** The [decrypt] of the AES entry: [aesDecryptText] in a [try] whose
    [catch] returns a fixed text. *)
Definition aesRegistryDecrypt (text key : jsstring) : outcome jsstring :=
  match aesDecryptText text key false with
  | Return result => Return result
  | Throw _ => Return decryptionFailed
  end.

Definition algorithmData : list Algorithm :=
  [ {| alg_id := str "caesar";
       alg_name := str "Caesar Cipher";
       alg_encrypt := withNumber caesarEncrypt;
       alg_decrypt := withNumber caesarDecrypt;
       alg_keyValidator := λ key,
         match key with NumberKey n => validateCaesarKey n | _ => false end |};
    {| alg_id := str "aes";
       alg_name := str "AES (Advanced Encryption Standard)";
       alg_encrypt := withString (λ text key, aesEncryptText text key false);
       alg_decrypt := withString aesRegistryDecrypt;
       alg_keyValidator := λ key,
         match key with StringKey s => validateAesKey s | _ => false end |};
    {| alg_id := str "affine";
       alg_name := str "Affine Cipher";
       alg_encrypt := withCoefficients affineEncrypt;
       alg_decrypt := withCoefficients affineDecrypt;
       alg_keyValidator := λ key,
         match key with CoefficientsKey k => validateAffineKey k | _ => false end |};
    {| alg_id := str "monoalphabetic";
       alg_name := str "Monoalphabetic Substitution";
       alg_encrypt := withString monoalphabeticEncrypt;
       alg_decrypt := withString monoalphabeticDecrypt;
       alg_keyValidator := λ key,
         match key with
         | StringKey s => validateMonoalphabeticKey s
         | _ => false
         end |} ].

(** [generateRandomKey] of monoalphabeticCipher.ts: the Fisher-Yates
    shuffle, where [roll i] is the value [Math.floor(Math.random() * (i + 1))]
    of the turn [i], between 0 and [i]. *)
Definition generateRandomKey (roll : Z → Z) : jsstring :=
  forLoopDown 25 0 (λ i alphabet,
    let j := roll i in
    let ai := get alphabet i in
    let aj := get alphabet j in
    <[Z.to_nat j := ai]> (<[Z.to_nat i := aj]> alphabet)) ALPHABET.

(** [getDefaultKey]; [None] is its [null]. *)
Definition getDefaultKey (roll : Z → Z) (algorithmId : jsstring) : option KeyValue :=
  if bool_decide (algorithmId = str "caesar") then Some (NumberKey 3)
  else if bool_decide (algorithmId = str "affine") then
    Some (CoefficientsKey {| a := 5; b := 8 |})
  else if bool_decide (algorithmId = str "monoalphabetic") then
    Some (StringKey (generateRandomKey roll))
  else if bool_decide (algorithmId = str "aes") then
    Some (StringKey (str "AESSecureKey12345"))
  else None.

(** [algorithmData.find(algo => algo.id === id)]. *)
Definition getAlgorithm (id : jsstring) : option Algorithm :=
  snd <$> list_find (λ algo, alg_id algo = id) algorithmData.

(** ** ProcessVisualization.tsx *)

(** [StepResult] without its [characterHighlights], which only feed the
    display of the character being revealed. *)
Record StepResult : Type := {
  algorithm : jsstring;
  input : jsstring;
  output : jsstring;
  isComplete : bool
}.

(** What a run does to the outside: a call of an operation of the registry,
    a [console.error], a call of [onResult]. *)
Inductive Effect : Type :=
  | Operation (id : jsstring) (input : jsstring)
  | ConsoleError (message : jsstring)
  | OnResult (result : jsstring).

(** The state of the component and the effects so far, oldest first. *)
Record Component : Type := {
  steps : list StepResult;
  currentAlgorithmIndex : nat;
  isProcessing : bool;
  finalResult : jsstring;
  effects : list Effect
}.

Definition setSteps (f : list StepResult → list StepResult) (c : Component) :=
  {| steps := f (steps c); currentAlgorithmIndex := currentAlgorithmIndex c;
     isProcessing := isProcessing c; finalResult := finalResult c;
     effects := effects c |}.

Definition setCurrentAlgorithmIndex (i : nat) (c : Component) :=
  {| steps := steps c; currentAlgorithmIndex := i;
     isProcessing := isProcessing c; finalResult := finalResult c;
     effects := effects c |}.

Definition setIsProcessing (p : bool) (c : Component) :=
  {| steps := steps c; currentAlgorithmIndex := currentAlgorithmIndex c;
     isProcessing := p; finalResult := finalResult c; effects := effects c |}.

Definition setFinalResult (r : jsstring) (c : Component) :=
  {| steps := steps c; currentAlgorithmIndex := currentAlgorithmIndex c;
     isProcessing := isProcessing c; finalResult := r; effects := effects c |}.

Definition emit (e : Effect) (c : Component) :=
  {| steps := steps c; currentAlgorithmIndex := currentAlgorithmIndex c;
     isProcessing := isProcessing c; finalResult := finalResult c;
     effects := effects c ++ [e] |}.

(** [keys[currentAlgoId as keyof AlgorithmKey]]. *)
Definition keyOf (keys : AlgorithmKey) (id : jsstring) : KeyValue :=
  if bool_decide (id = str "caesar") then NumberKey (caesar keys)
  else if bool_decide (id = str "affine") then CoefficientsKey (affine keys)
  else if bool_decide (id = str "monoalphabetic") then StringKey (monoalphabetic keys)
  else if bool_decide (id = str "aes") then StringKey (aes keys)
  else UndefinedKey.

Section ProcessVisualization.

(** The props of the component. *)
Variable inputText : jsstring.
Variable algorithmOrder : AlgorithmOrder.
Variable keys : AlgorithmKey.
Variable mode : OperationMode.

(** [animateCharacterByCharacter] shows the output of a step one character
    at a time; when its timers have run the step holds the whole output
    and is complete.  What it does next is in [animateAlgorithmStep]. *)
Definition revealOutput (stepIndex : nat) (output : jsstring) (c : Component)
  : Component :=
  setSteps (alter (λ s,
    {| algorithm := algorithm s; input := input s; output := output;
       isComplete := true |}) stepIndex) c.

(** [animateAlgorithmStep(stepIndex, orderedAlgorithms, stepInput)],
    followed through the timers to the end of the run.  [remaining] is
    [orderedAlgorithms] from [stepIndex] on: it is empty when
    [stepIndex >= orderedAlgorithms.length], and its tail is empty when
    [stepIndex === orderedAlgorithms.length - 1].  [found] is the
    [algorithm] of the source. *)
Fixpoint animateAlgorithmStep (remaining : AlgorithmOrder) (stepIndex : nat)
    (stepInput : jsstring) (c : Component) : Component :=
  match remaining with
  | [] => setIsProcessing false c
  | current :: later =>
      let currentAlgoId := entry_id current in
      match getAlgorithm currentAlgoId with
      | None =>
          let c := emit (ConsoleError (str "Algorithm " ++ currentAlgoId
                                         ++ str " not found")) c in
          setIsProcessing false c
      | Some found =>
          let c := setSteps (alter (λ s,
            {| algorithm := algorithm s; input := stepInput; output := [];
               isComplete := false |}) stepIndex) c in
          let c := setCurrentAlgorithmIndex stepIndex c in
          let operation :=
            match mode with
            | ModeEncrypt => alg_encrypt found
            | ModeDecrypt => alg_decrypt found
            end in
          let key := keyOf keys currentAlgoId in
          let c := emit (Operation currentAlgoId stepInput) c in
          match operation stepInput key with
          | Return finalOutput =>
              let c := revealOutput stepIndex finalOutput c in
              match later with
              | [] =>
                  let c := setFinalResult finalOutput c in
                  let c := emit (OnResult finalOutput) c in
                  setIsProcessing false c
              | _ => animateAlgorithmStep later (S stepIndex) finalOutput c
              end
          | Throw message =>
              let c := emit (ConsoleError (str "Error processing with "
                                             ++ alg_name found ++ str ":")) c in
              let c := setSteps (alter (λ s,
                {| algorithm := algorithm s; input := input s;
                   output := str "Error: " ++ message;
                   isComplete := true |}) stepIndex) c in
              setIsProcessing false c
          end
      end
  end.

Definition processText (c : Component) : Component :=
  if bool_decide (inputText = []) || bool_decide (length algorithmOrder = 0%nat)
  then c
  else
    let c := setIsProcessing true c in
    let orderedAlgorithms :=
      match mode with
      | ModeDecrypt => reverse algorithmOrder
      | ModeEncrypt => algorithmOrder
      end in
    let initialSteps :=
      (λ algo, {| algorithm := entry_name algo; input := []; output := [];
                  isComplete := false |}) <$> orderedAlgorithms in
    let c := setSteps (λ _, initialSteps) c in
    let currentInput := inputText in
    animateAlgorithmStep orderedAlgorithms 0 currentInput c.

(** The effect that runs when the props change: the state is reset, then
    the text is processed, or [onResult('')] is called. *)
Definition runEffect : Component :=
  let c := {| steps := []; currentAlgorithmIndex := 0; isProcessing := false;
              finalResult := []; effects := [] |} in
  if negb (bool_decide (inputText = []))
     && bool_decide (0 < length algorithmOrder)%nat
  then processText c
  else emit (OnResult []) c.

End ProcessVisualization.

(** The arguments of the calls of [onResult] among some effects, and the
    calls of operations among them, in the order of the calls. *)
Definition resultsOf (l : list Effect) : list jsstring :=
  omap (λ e, match e with OnResult r => Some r | _ => None end) l.

Definition callsOf (l : list Effect) : list (jsstring * jsstring) :=
  omap (λ e, match e with Operation id text => Some (id, text) | _ => None end) l.

(** What a run hands to [onResult], if it calls it. *)
Definition delivered (c : Component) : option jsstring :=
  last (resultsOf (effects c)).

(** The operations a run has called, each with the text it was given. *)
Definition invoked (c : Component) : list (jsstring * jsstring) :=
  callsOf (effects c).

(** ** App.tsx *)

(** [checkAllKeysValid]: every step of the order names an algorithm of the
    registry whose validator accepts the key held for it. *)
Definition checkAllKeysValid (algorithmOrder : AlgorithmOrder) (keys : AlgorithmKey)
  : bool :=
  forallb (λ algo,
    match snd <$> list_find (λ a, alg_id a = entry_id algo) algorithmData with
    | Some algorithm => alg_keyValidator algorithm (keyOf keys (entry_id algo))
    | None => false
    end) algorithmOrder.

(** ** KeyInput.tsx *)

(** The field [keyInputType] of [Algorithm] and its three values.  The
    component reads it from the entry of [algorithmData] found for its
    [algorithmId]; it is given here by the identifier of that entry, as
    [algorithmData] declares it: the AES entry has ['substitution'] like
    the monoalphabetic one. *)
Inductive KeyInputType : Type := InputNumber | InputAffine | InputSubstitution.

Definition keyInputType (algorithmId : jsstring) : option KeyInputType :=
  if bool_decide (algorithmId = str "caesar") then Some InputNumber
  else if bool_decide (algorithmId = str "aes") then Some InputSubstitution
  else if bool_decide (algorithmId = str "affine") then Some InputAffine
  else if bool_decide (algorithmId = str "monoalphabetic") then Some InputSubstitution
  else None.

(** The list [validA] of [handleGenerateRandomKey]. *)
Definition validA : list Z := [1; 3; 5; 7; 9; 11; 15; 17; 19; 21; 23; 25].

(** [Math.random] is a parameter of the functions that draw from it:
    [random k n] is the value of [Math.floor(Math.random() * n)] at the
    call number [k] of the function, counted from 0.

    [handleGenerateRandomKey]: the key handed to [onChange]; [None] when
    the component renders nothing because the registry does not know the
    identifier.  The shuffle of [generateRandomKey] draws for the positions
    25 down to 1, so its draw for the position [i] is the call [25 - i].
    The index into [validA] is in range, [Math.random] being below 1; the
    [default] of the [switch] is not reached, [keyInputType] having no
    fourth value. *)
Definition handleGenerateRandomKey (random : nat → Z → Z) (algorithmId : jsstring)
  : option KeyValue :=
  match keyInputType algorithmId with
  | Some InputNumber => Some (NumberKey (random 0%nat 26))
  | Some InputAffine =>
      let a := default 0 (validA !! Z.to_nat (random 0%nat (Z.of_nat (length validA)))) in
      let b := random 1%nat 26 in
      Some (CoefficientsKey {| a := a; b := b |})
  | Some InputSubstitution =>
      Some (StringKey (generateRandomKey (λ i, random (Z.to_nat (25 - i)) (i + 1))))
  | None => None
  end.

(** [String.prototype.charAt]: the empty string out of range. *)
Definition charAtString (s : jsstring) (i : Z) : jsstring :=
  if i <? 0 then [] else option_list (s !! Z.to_nat i).

(** [generateAesKey(size)], with its string [chars]. *)
Definition aesKeyChars : jsstring :=
  str "ABCDEFGHIJKLMNOPQRSTUVWXYZabcdefghijklmnopqrstuvwxyz0123456789!@#$%^&*()".

Definition generateAesKey (random : nat → Z → Z) (size : Z) : jsstring :=
  forLoop 0 size (λ i key,
    key ++ charAtString aesKeyChars (random (Z.to_nat i) (Z.of_nat (length aesKeyChars))))
    [].

(** ** AlgorithmSelector.tsx *)

(** [handleAddAlgorithm] and [handleRemoveAlgorithm]: the order handed to
    [onOrderChange]; [None] when it is not called. *)
Definition handleAddAlgorithm (selectedAlgorithms : AlgorithmOrder) (algo : Algorithm)
  : option AlgorithmOrder :=
  if negb (existsb (λ item, bool_decide (entry_id item = alg_id algo)) selectedAlgorithms)
  then Some (selectedAlgorithms
               ++ [{| entry_id := alg_id algo; entry_name := alg_name algo |}])
  else None.

Definition handleRemoveAlgorithm (selectedAlgorithms : AlgorithmOrder) (id : jsstring)
  : AlgorithmOrder :=
  filter (λ item, entry_id item ≠ id) selectedAlgorithms.

(** The list [unselectedAlgorithms] the component computes when it
    renders. *)
Definition unselectedAlgorithms (availableAlgorithms : list Algorithm)
    (selectedAlgorithms : AlgorithmOrder) : list Algorithm :=
  filter (λ algo,
    negb (existsb (λ item, bool_decide (entry_id item = alg_id algo)) selectedAlgorithms)
    = true) availableAlgorithms.

(** ** The composer as the specification words it *)

(** Section 4.3: in encrypt mode the steps are applied in their given order,
    each output feeding the next input; in decrypt mode the same list is
    walked in reverse, each step decrypting with its own key; the output of
    the last stage is the result.  [None] stands for a failed run. *)
Definition applyStep (keys : AlgorithmKey) (mode : OperationMode)
    (text : jsstring) (step : OrderEntry) : option jsstring :=
  found ← getAlgorithm (entry_id step);
  let operation :=
    match mode with
    | ModeEncrypt => alg_encrypt found
    | ModeDecrypt => alg_decrypt found
    end in
  match operation text (keyOf keys (entry_id step)) with
  | Return result => Some result
  | Throw _ => None
  end.

Definition runPipeline (text : jsstring) (steps : AlgorithmOrder)
    (keys : AlgorithmKey) (mode : OperationMode) : option jsstring :=
  foldl (λ acc step, text ← acc; applyStep keys mode text step) (Some text)
    (match mode with
     | ModeEncrypt => steps
     | ModeDecrypt => reverse steps
     end).

(** ** Steps and keys of the examples *)

Definition caesarStep : OrderEntry :=
  {| entry_id := str "caesar"; entry_name := str "Caesar Cipher" |}.

Definition affineStep : OrderEntry :=
  {| entry_id := str "affine"; entry_name := str "Affine Cipher" |}.

Definition substitutionStep : OrderEntry :=
  {| entry_id := str "monoalphabetic"; entry_name := str "Monoalphabetic Substitution" |}.

(** A step whose identifier is not in the registry. *)
Definition rot13Step : OrderEntry :=
  {| entry_id := str "rot13"; entry_name := str "ROT13" |}.

(** Caesar with shift 3 and Affine with (5, 8), the keys of the
    specification's pipeline example, beside any two other keys; then the
    same with a shift and with an [a] that the validators reject. *)
Definition pipelineKeys (substitution aesKey : jsstring) : AlgorithmKey :=
  {| caesar := 3; affine := {| a := 5; b := 8 |};
     monoalphabetic := substitution; aes := aesKey |}.

Definition exampleKeys : AlgorithmKey :=
  pipelineKeys (str "QWERTYUIOPASDFGHJKLZXCVBNM") (str "AESSecureKey1234").

Definition keysWithShift30 : AlgorithmKey :=
  {| caesar := 30; affine := {| a := 5; b := 8 |};
     monoalphabetic := str "QWERTYUIOPASDFGHJKLZXCVBNM";
     aes := str "AESSecureKey1234" |}.

Definition keysWithA4 : AlgorithmKey :=
  {| caesar := 3; affine := {| a := 4; b := 1 |};
     monoalphabetic := str "QWERTYUIOPASDFGHJKLZXCVBNM";
     aes := str "AESSecureKey1234" |}.

(** ** Views used in the proofs *)

(** The letter transform of [caesarEncrypt] for a shift already normalised. *)
Definition caesarChar (shift char : Z) : Z :=
  if matchUpper char then fromCharCode (((char - 65 + shift) `rem` 26) + 65)
  else if matchLower char then fromCharCode (((char - 97 + shift) `rem` 26) + 97)
  else char.

(** The order in which a run walks the steps. *)
Definition traversal (mode : OperationMode) (algorithmOrder : AlgorithmOrder)
  : AlgorithmOrder :=
  match mode with
  | ModeEncrypt => algorithmOrder
  | ModeDecrypt => reverse algorithmOrder
  end.

(** The steps of a list applied one after the other, as [runPipeline] does
    on the list it walks. *)
Definition chain (keys : AlgorithmKey) (mode : OperationMode)
    (acc : option jsstring) (steps : AlgorithmOrder) : option jsstring :=
  foldl (λ acc step, text ← acc; applyStep keys mode text step) acc steps.
Arguments chain : simpl never.

(** The effects of [animateAlgorithmStep], apart from the state it is run
    in. *)
Fixpoint animateEffects (keys : AlgorithmKey) (mode : OperationMode)
    (remaining : AlgorithmOrder) (stepInput : jsstring) : list Effect :=
  match remaining with
  | [] => []
  | current :: later =>
      match getAlgorithm (entry_id current) with
      | None =>
          [ConsoleError (str "Algorithm " ++ entry_id current ++ str " not found")]
      | Some found =>
          Operation (entry_id current) stepInput ::
          match (match mode with
                 | ModeEncrypt => alg_encrypt found
                 | ModeDecrypt => alg_decrypt found
                 end) stepInput (keyOf keys (entry_id current)) with
          | Return finalOutput =>
              match later with
              | [] => [OnResult finalOutput]
              | _ => animateEffects keys mode later finalOutput
              end
          | Throw message =>
              [ConsoleError (str "Error processing with " ++ alg_name found
                               ++ str ":")]
          end
      end
  end.

(** The letter transforms of [affineEncrypt] and [affineDecrypt]. *)
Definition affineChar (a b char : Z) : Z :=
  if matchUpper char then
    let code := char - 65 in
    fromCharCode ((((a * code) + b) `rem` 26) + 65)
  else if matchLower char then
    let code := char - 97 in
    fromCharCode ((((a * code) + b) `rem` 26) + 97)
  else char.

Definition affineCharInverse (aInverse b char : Z) : Z :=
  if matchUpper char then
    let code := char - 65 in
    fromCharCode (((aInverse * (code - b + 26)) `rem` 26) + 65)
  else if matchLower char then
    let code := char - 97 in
    fromCharCode (((aInverse * (code - b + 26)) `rem` 26) + 97)
  else char.

(** What [monoalphabeticEncrypt] makes of a character under the key [K],
    already in upper case. *)
Definition substitute (K : jsstring) (char : Z) : Z :=
  if matchUpper char then default 0 (K !! Z.to_nat (char - 65))
  else if matchLower char then lowerChar (default 0 (K !! Z.to_nat (char - 97)))
  else char.

(** The values of a [Uint8Array], and the truncation of a store. *)
Definition isByte (z : Z) : Prop := 0 ≤ z < 256.

Definition u8 (z : Z) : Z := z `mod` 256.

(** A block of the cipher: sixteen bytes. *)
Definition block (st : list Z) : Prop := length st = 16%nat ∧ Forall isByte st.

(** The key lengths [getKeyParams] accepts. *)
Definition validKeyLength (key : list Z) : Prop :=
  length key = 16%nat ∨ length key = 24%nat ∨ length key = 32%nat.

(** [gmul c] written out over the bits of its second argument. *)
Definition gmulLinear (c x : Z) : Z :=
  foldr (λ k acc, Z.lxor (if Z.testbit x k then gmul c (2 ^ k) else 0) acc) 0
    (seqZ 0 8).

(** The multipliers of [mixColumns] and [invMixColumns]. *)
Definition mixConstant (c : Z) : Prop := c ∈ [2; 3; 9; 11; 13; 14].

(** What [mixColumns] and [invMixColumns] store for one column. *)
Definition mixColumn (t0 t1 t2 t3 : Z) : list Z :=
  [ Z.lxor (Z.lxor (Z.lxor (gmul 2 t0) (gmul 3 t1)) t2) t3;
    Z.lxor (Z.lxor (Z.lxor t0 (gmul 2 t1)) (gmul 3 t2)) t3;
    Z.lxor (Z.lxor (Z.lxor t0 t1) (gmul 2 t2)) (gmul 3 t3);
    Z.lxor (Z.lxor (Z.lxor (gmul 3 t0) t1) t2) (gmul 2 t3) ].

Definition invMixColumn (t0 t1 t2 t3 : Z) : list Z :=
  [ Z.lxor (Z.lxor (Z.lxor (gmul 14 t0) (gmul 11 t1)) (gmul 13 t2)) (gmul 9 t3);
    Z.lxor (Z.lxor (Z.lxor (gmul 9 t0) (gmul 14 t1)) (gmul 11 t2)) (gmul 13 t3);
    Z.lxor (Z.lxor (Z.lxor (gmul 13 t0) (gmul 9 t1)) (gmul 14 t2)) (gmul 11 t3);
    Z.lxor (Z.lxor (Z.lxor (gmul 11 t0) (gmul 13 t1)) (gmul 9 t2)) (gmul 14 t3) ].

(** The four products of a row of the inverse matrix with a column of the
    matrix of [mixColumns], as they act on one byte. *)
Definition mixA (t : Z) : Z :=
  Z.lxor (Z.lxor (Z.lxor (gmul 14 (gmul 2 t)) (gmul 11 t)) (gmul 13 t)) (gmul 9 (gmul 3 t)).
Definition mixB (t : Z) : Z :=
  Z.lxor (Z.lxor (Z.lxor (gmul 14 (gmul 3 t)) (gmul 11 (gmul 2 t))) (gmul 13 t)) (gmul 9 t).
Definition mixC (t : Z) : Z :=
  Z.lxor (Z.lxor (Z.lxor (gmul 14 t) (gmul 11 (gmul 3 t))) (gmul 13 (gmul 2 t))) (gmul 9 t).
Definition mixD (t : Z) : Z :=
  Z.lxor (Z.lxor (Z.lxor (gmul 14 t) (gmul 11 t)) (gmul 13 (gmul 3 t))) (gmul 9 (gmul 2 t)).

(** The round key of a round, and the bodies of the two round loops. *)
Definition roundKeyAt (roundKeys : list Z) (round : Z) : list Z :=
  subarray roundKeys (round * 16) ((round + 1) * 16).

Definition encryptRound (roundKeys : list Z) (round : Z) (state : list Z) : list Z :=
  let state := subBytes state in
  let state := shiftRows state in
  let state := mixColumns state in
  addRoundKey state (subarray roundKeys (round * 16) ((round + 1) * 16)).

Definition decryptRound (roundKeys : list Z) (round : Z) (state : list Z) : list Z :=
  let state := invShiftRows state in
  let state := invSubBytes state in
  let state :=
    addRoundKey state (subarray roundKeys (round * 16) ((round + 1) * 16)) in
  invMixColumns state.

(** [aesEncryptBlock] and [aesDecryptBlock] after their two checks, on the
    expanded key. *)
Definition encryptState (roundKeys : list Z) (nr : Z) (plaintext : list Z) : list Z :=
  let state := forLoop 0 16 (λ i state, set state i (get plaintext i))
                 (newUint8Array 16) in
  let state := addRoundKey state (subarray roundKeys 0 16) in
  let state := forLoop 1 nr (encryptRound roundKeys) state in
  let state := subBytes state in
  let state := shiftRows state in
  addRoundKey state (subarray roundKeys (nr * 16) ((nr + 1) * 16)).

Definition decryptState (roundKeys : list Z) (nr : Z) (ciphertext : list Z) : list Z :=
  let state := forLoop 0 16 (λ i state, set state i (get ciphertext i))
                 (newUint8Array 16) in
  let state := addRoundKey state (subarray roundKeys (nr * 16) ((nr + 1) * 16)) in
  let state := forLoopDown (nr - 1) 0 (decryptRound roundKeys) state in
  let state := invShiftRows state in
  let state := invSubBytes state in
  addRoundKey state (subarray roundKeys 0 16).

(** The block of a message at an index, and the number of padding bytes
    for a text of [n] bytes. *)
Definition blockAt (data : list Z) (i : Z) : list Z :=
  subarray data (i * 16) ((i + 1) * 16).

Definition padLength (n : nat) : nat := (16 - n `mod` 16)%nat.

(** ** Views used in the further properties *)

(** The code units of a string are 16-bit, and [String.prototype.isWellFormed]
    tells whether every surrogate among them has its partner. *)
Definition isCodeUnit (u : Z) : Prop := 0 ≤ u < 65536.

Fixpoint isWellFormed (units : jsstring) : bool :=
  match units with
  | [] => true
  | u :: rest =>
      if isHighSurrogate u then
        match rest with
        | l :: rest' => isLowSurrogate l && isWellFormed rest'
        | [] => false
        end
      else negb (isLowSurrogate u) && isWellFormed rest
  end.

(** A text that [TextEncoder] and [TextDecoder] carry unchanged: well-formed
    code units, the first of which is no byte order mark. *)
Definition plainText (s : jsstring) : Prop :=
  Forall isCodeUnit s ∧ isWellFormed s = true ∧ head s ≠ Some 65279.

(** The Unicode scalar values: the code points that are no surrogates. *)
Definition isScalar (cp : Z) : Prop :=
  0 ≤ cp < 1114112 ∧ ¬ (55296 ≤ cp ≤ 57343).

(** What [monoalphabeticDecrypt] makes of a character under the key [K],
    already in upper case. *)
Definition unsubstitute (K : jsstring) (char : Z) : Z :=
  if matchUpper char then 65 + indexOf K char
  else if matchLower char then 97 + indexOf K (char - 32)
  else char.

(** The message of [getKeyParams] for a key of another length. *)
Definition invalidKeyLength : jsstring :=
  str "Invalid key length. Must be 16, 24, or 32 bytes (128, 192, or 256 bits).".

(** The products of a row of the matrix of [mixColumns] with a column of
    the inverse matrix, as they act on one byte. *)
Definition unmixA (t : Z) : Z :=
  Z.lxor (Z.lxor (Z.lxor (gmul 2 (gmul 14 t)) (gmul 3 (gmul 9 t))) (gmul 13 t)) (gmul 11 t).
Definition unmixB (t : Z) : Z :=
  Z.lxor (Z.lxor (Z.lxor (gmul 2 (gmul 11 t)) (gmul 3 (gmul 14 t))) (gmul 9 t)) (gmul 13 t).
Definition unmixC (t : Z) : Z :=
  Z.lxor (Z.lxor (Z.lxor (gmul 2 (gmul 13 t)) (gmul 3 (gmul 11 t))) (gmul 14 t)) (gmul 9 t).
Definition unmixD (t : Z) : Z :=
  Z.lxor (Z.lxor (Z.lxor (gmul 2 (gmul 9 t)) (gmul 3 (gmul 13 t))) (gmul 11 t)) (gmul 14 t).

(** A transform of characters that leaves a character alone or maps a
    letter of the Basic Latin alphabet to one. *)
Definition lettersToLetters (f : Z → Z) : Prop :=
  ∀ c, f c = c ∨ ((65 ≤ c ≤ 90 ∨ 97 ≤ c ≤ 122) ∧ (65 ≤ f c ≤ 90 ∨ 97 ≤ f c ≤ 122)).

(** A character and what a letter cipher makes of it: an upper-case letter
    gives an upper-case letter, a lower-case letter a lower-case one, and
    any other character is kept. *)
Definition sameClass (c c' : Z) : Prop :=
  if matchUpper c then matchUpper c' = true
  else if matchLower c then matchLower c' = true
  else c' = c.

(** The AES step of the examples. *)
Definition aesStep : OrderEntry :=
  {| entry_id := str "aes"; entry_name := str "AES (Advanced Encryption Standard)" |}.

(** What the selector keeps true of the order it manages: the steps are
    entries of the registry under their own names, each at most once. *)
Definition fromRegistry (selectedAlgorithms : AlgorithmOrder) : Prop :=
  NoDup (entry_id <$> selectedAlgorithms)
  ∧ Forall (λ item, ∃ algo, algo ∈ algorithmData ∧ entry_id item = alg_id algo
                            ∧ entry_name item = alg_name algo) selectedAlgorithms.

(** A source of random numbers that keeps the range of
    [Math.floor(Math.random() * n)]. *)
Definition inRange (random : nat → Z → Z) : Prop :=
  ∀ k n, 0 < n → 0 ≤ random k n < n.

(** * Properties *)

(** Goals about the JavaScript remainder and quotient go to [lia] through
    their defining equations. *)
Ltac rem_lia := Z.quot_rem_to_equations; Z.div_mod_to_equations; lia.

Lemma matchUpper_spec c : matchUpper c = true ↔ 65 ≤ c ≤ 90.
Proof. unfold matchUpper. rewrite andb_true_iff, !Z.leb_le. tauto. Qed.

Lemma matchLower_spec c : matchLower c = true ↔ 97 ≤ c ≤ 122.
Proof. unfold matchLower. rewrite andb_true_iff, !Z.leb_le. tauto. Qed.

Lemma matchUpper_false c : matchUpper c = false ↔ ¬ (65 ≤ c ≤ 90).
Proof. rewrite <- matchUpper_spec. destruct (matchUpper c); split; congruence. Qed.

Lemma matchLower_false c : matchLower c = false ↔ ¬ (97 ≤ c ≤ 122).
Proof. rewrite <- matchLower_spec. destruct (matchLower c); split; congruence. Qed.

(** Case analysis on the class of a character: upper-case letter,
    lower-case letter, or passed through. *)
Ltac char_cases c :=
  let U := fresh "Hupper" in
  let L := fresh "Hlower" in
  destruct (matchUpper c) eqn:U;
  [ apply matchUpper_spec in U
  | apply matchUpper_false in U;
    destruct (matchLower c) eqn:L;
    [ apply matchLower_spec in L | apply matchLower_false in L ] ].

(** ** Caesar *)

Section Caesar.

Lemma caesarEncrypt_map text shift :
  caesarEncrypt text shift
  = caesarChar (((shift `rem` 26) + 26) `rem` 26) <$> text.
Proof. reflexivity. Qed.

Lemma normalise_idem s :
  let n := ((s `rem` 26) + 26) `rem` 26 in ((n `rem` 26) + 26) `rem` 26 = n.
Proof. intros n. subst n. rem_lia. Qed.

Lemma caesarChar_zero char : caesarChar 0 char = char.
Proof.
  unfold caesarChar, fromCharCode. char_cases char; [rem_lia | rem_lia | done].
Qed.

Lemma caesarChar_inverse k char :
  0 ≤ k ≤ 25 →
  caesarChar ((((26 - (k `rem` 26)) `rem` 26) + 26) `rem` 26)
    (caesarChar (((k `rem` 26) + 26) `rem` 26) char) = char.
Proof.
  intros Hk. unfold caesarChar at 2. unfold fromCharCode.
  char_cases char.
  - set (e := ((char - 65 + _) `rem` 26 + 65) `mod` 65536).
    assert (He : 65 ≤ e ≤ 90) by (subst e; rem_lia).
    unfold caesarChar, fromCharCode.
    apply matchUpper_spec in He as ->. subst e. rem_lia.
  - set (e := ((char - 97 + _) `rem` 26 + 97) `mod` 65536).
    assert (He : 97 ≤ e ≤ 122) by (subst e; rem_lia).
    unfold caesarChar, fromCharCode.
    assert (matchUpper e = false) as -> by (apply matchUpper_false; lia).
    apply matchLower_spec in He as ->. subst e. rem_lia.
  - unfold caesarChar.
    apply matchUpper_false in Hupper as ->.
    apply matchLower_false in Hlower as ->. done.
Qed.

Lemma caesar_round_trip x k :
  validateCaesarKey k = true → caesarDecrypt (caesarEncrypt x k) k = x.
Proof.
  unfold validateCaesarKey. rewrite andb_true_iff, !Z.leb_le. intros Hk.
  unfold caesarDecrypt. rewrite !caesarEncrypt_map, <- list_fmap_compose.
  rewrite <- (list_fmap_id x) at 2. apply list_fmap_ext.
  intros i char _. simpl. apply caesarChar_inverse. lia.
Qed.

End Caesar.

(** C9.  Whatever integer is passed as the shift, also a negative one or one
    above 25 that went past the validator, [caesarEncrypt] works with the
    shift normalised by [((s % 26) + 26) % 26]; ["ABC"] shifted by 3 is
    ["DEF"]; and at the boundary shift 0 both [caesarEncrypt] and
    [caesarDecrypt] (which then encrypts with shift 26) are the identity. *)
Theorem caesar_shift_normalised :
  (∀ (x : jsstring) (s : Z),
     caesarEncrypt x s = caesarEncrypt x (((s `rem` 26) + 26) `rem` 26))
  ∧ caesarEncrypt (str "ABC") 3 = str "DEF"
  ∧ (∀ x : jsstring, caesarEncrypt x 0 = x)
  ∧ (∀ x : jsstring, caesarDecrypt x 0 = x).
Proof.
  split; [| split; [| split]].
  - intros x s. rewrite !caesarEncrypt_map. by rewrite normalise_idem.
  - reflexivity.
  - intros x. rewrite caesarEncrypt_map. change (((0 `rem` 26) + 26) `rem` 26) with 0.
    rewrite <- (list_fmap_id x) at 2. apply list_fmap_ext.
    intros i char _. apply caesarChar_zero.
  - intros x. unfold caesarDecrypt. rewrite caesarEncrypt_map.
    change ((((26 - 0 `rem` 26) `rem` 26) + 26) `rem` 26) with 0.
    rewrite <- (list_fmap_id x) at 2. apply list_fmap_ext.
    intros i char _. apply caesarChar_zero.
Qed.

(** ** AES on one block *)

(** C2.  Encrypting the block of sixteen zero bytes under the key of sixteen
    zero bytes gives the known answer whose lower-case hexadecimal rendering
    is 66e94bd4ef8a2c3b884cfa59ca342b2e. *)
Theorem aes128_zero_vector :
  uint8ArrayToHex <$> aesEncryptBlock (newUint8Array 16) (newUint8Array 16)
  = Return (str "66e94bd4ef8a2c3b884cfa59ca342b2e").
Proof. vm_compute. reflexivity. Qed.

(** ** Monoalphabetic substitution: the key is checked where it is used *)

Lemma upperChar_idem c : upperChar (upperChar c) = upperChar c.
Proof.
  unfold upperChar. destruct (matchLower c) eqn:Hc; [|by rewrite Hc].
  apply matchLower_spec in Hc.
  assert (matchLower (c - 32) = false) as -> by (apply matchLower_false; lia).
  done.
Qed.

Lemma toUpperCase_idem s : toUpperCase (toUpperCase s) = toUpperCase s.
Proof.
  unfold toUpperCase. rewrite <- list_fmap_compose.
  apply list_fmap_ext. intros i c _. apply upperChar_idem.
Qed.

Lemma validate_toUpperCase key :
  validateMonoalphabeticKey (toUpperCase key) = validateMonoalphabeticKey key.
Proof. unfold validateMonoalphabeticKey. by rewrite toUpperCase_idem. Qed.

Lemma monoalphabetic_invalid_key (text key : jsstring) :
  validateMonoalphabeticKey key = false →
  monoalphabeticEncrypt text key = Throw (str "Invalid substitution key")
  ∧ monoalphabeticDecrypt text key = Throw (str "Invalid substitution key").
Proof.
  intros Hkey. unfold monoalphabeticEncrypt, monoalphabeticDecrypt.
  rewrite validate_toUpperCase, Hkey. done.
Qed.



(** ** The default AES key *)

(** C8.  The key that [getDefaultKey('aes')] returns is the seventeen
    characters [AESSecureKey12345]: its UTF-8 encoding has 17 bytes, not the
    16 its comment announces, and [validateAesKey] rejects it. *)
Theorem default_aes_key_has_17_bytes (roll : Z → Z) :
  getDefaultKey roll (str "aes") = Some (StringKey (str "AESSecureKey12345"))
  ∧ length (stringToUint8Array (str "AESSecureKey12345")) = 17%nat
  ∧ validateAesKey (str "AESSecureKey12345") = false.
Proof. repeat split. Qed.

(** ** PKCS#7 padding of length zero *)

(** C4.  [unpadPKCS7] lets a declared padding length of 0 through: the
    block of sixteen zero bytes comes back whole, and so does the plaintext
    of the ciphertext 66e94bd4ef8a2c3b884cfa59ca342b2e under the zero key,
    where the claim expects the padding error. *)
Theorem unpad_accepts_zero_padding :
  unpadPKCS7 (newUint8Array 16) = Return (newUint8Array 16)
  ∧ (ciphertext ← hexToUint8Array (str "66e94bd4ef8a2c3b884cfa59ca342b2e");
     aesDecrypt ciphertext (newUint8Array 16)) = Return (newUint8Array 16).
Proof. split; vm_compute; reflexivity. Qed.

(** The other two rejections of the claim are in the code: a declared
    length above 16, and a byte of the padding that differs from it. *)
Lemma unpad_rejects_long_padding (data : list Z) :
  data ≠ [] → Z.of_nat (length data) `rem` 16 = 0 →
  16 < get data (Z.of_nat (length data) - 1) →
  unpadPKCS7 data = Throw (str "Invalid padding value").
Proof.
  intros Hne Hlen Hpad. unfold unpadPKCS7.
  assert ((Z.of_nat (length data) =? 0) = false) as ->.
  { apply Z.eqb_neq. destruct data; [done | simpl; lia]. }
  rewrite Hlen. simpl.
  by apply Z.ltb_lt in Hpad as ->.
Qed.

Lemma unpad_rejects_mismatch (data : list Z) :
  data ≠ [] → Z.of_nat (length data) `rem` 16 = 0 →
  get data (Z.of_nat (length data) - 1) ≤ 16 →
  paddingMatches data (get data (Z.of_nat (length data) - 1)) = false →
  unpadPKCS7 data = Throw (str "Invalid padding").
Proof.
  intros Hne Hlen Hpad Hmis. unfold unpadPKCS7.
  assert ((Z.of_nat (length data) =? 0) = false) as ->.
  { apply Z.eqb_neq. destruct data; [done | simpl; lia]. }
  rewrite Hlen. simpl.
  assert ((16 <? get data (Z.of_nat (length data) - 1)) = false) as ->
    by (apply Z.ltb_ge; lia).
  by rewrite Hmis.
Qed.

(** ** The composer *)

Section Composer.

Variable keys : AlgorithmKey.
Variable mode : OperationMode.

Lemma chain_None steps : chain keys mode None steps = None.
Proof. induction steps as [|step steps IH]; [done | apply IH]. Qed.

Lemma chain_cons text step steps :
  chain keys mode (Some text) (step :: steps)
  = chain keys mode (applyStep keys mode text step) steps.
Proof. reflexivity. Qed.

Lemma runPipeline_chain text steps :
  runPipeline text steps keys mode
  = chain keys mode (Some text) (traversal mode steps).
Proof. unfold runPipeline, chain, traversal. by destruct mode. Qed.

(** [animateAlgorithmStep] adds its effects to those of the state it starts
    in. *)
Lemma animate_effects remaining stepIndex stepInput c :
  effects (animateAlgorithmStep keys mode remaining stepIndex stepInput c)
  = effects c ++ animateEffects keys mode remaining stepInput.
Proof.
  revert stepIndex stepInput c.
  induction remaining as [|current later IH]; intros stepIndex stepInput c; simpl.
  - by rewrite app_nil_r.
  - destruct (getAlgorithm (entry_id current)) as [found|]; simpl; [|done].
    destruct (match mode with
              | ModeEncrypt => alg_encrypt found
              | ModeDecrypt => alg_decrypt found
              end stepInput (keyOf keys (entry_id current)))
      as [finalOutput|message]; simpl.
    + destruct later as [|next rest]; lazy iota.
      * simpl. by rewrite <- app_assoc.
      * rewrite IH. simpl. by rewrite <- app_assoc.
    + by rewrite <- app_assoc.
Qed.

(** What [animateAlgorithmStep] hands to [onResult]: the outcome of the
    chain over the steps that remain. *)
Lemma animateEffects_results remaining stepInput :
  remaining ≠ [] →
  last (resultsOf (animateEffects keys mode remaining stepInput))
  = chain keys mode (Some stepInput) remaining.
Proof.
  revert stepInput.
  induction remaining as [|current later IH]; intros stepInput Hne; [done |].
  rewrite chain_cons. unfold applyStep. simpl.
  destruct (getAlgorithm (entry_id current)) as [found|]; simpl;
    [|by rewrite chain_None].
  destruct (match mode with
            | ModeEncrypt => alg_encrypt found
            | ModeDecrypt => alg_decrypt found
            end stepInput (keyOf keys (entry_id current)))
    as [finalOutput|message]; simpl; [|by rewrite chain_None].
  destruct later as [|next rest]; [done | by apply IH].
Qed.

Lemma animateEffects_calls_before before unknown after stepInput :
  getAlgorithm (entry_id unknown) = None →
  (callsOf (animateEffects keys mode (before ++ unknown :: after) stepInput)).*1
    `prefix_of` (entry_id <$> before)
  ∧ resultsOf (animateEffects keys mode (before ++ unknown :: after) stepInput) = [].
Proof.
  intros Hunknown. revert stepInput.
  induction before as [|current later IH]; intros stepInput; simpl.
  - rewrite Hunknown. simpl. split; [apply prefix_nil | done].
  - destruct (getAlgorithm (entry_id current)) as [found|]; simpl;
      [|split; [apply prefix_nil | done]].
    destruct (match mode with
              | ModeEncrypt => alg_encrypt found
              | ModeDecrypt => alg_decrypt found
              end stepInput (keyOf keys (entry_id current)))
      as [finalOutput|message]; simpl.
    + destruct (later ++ unknown :: after) as [|next rest] eqn:Hrest;
        [destruct later; simplify_eq/= |].
      destruct (IH finalOutput) as [Hcalls Hresults].
      split; [by apply prefix_cons | done].
    + split; [apply prefix_cons, prefix_nil | done].
Qed.

(** A step whose predecessors have all returned has its operation called,
    on the text the chain over the predecessors produces. *)
Lemma animateEffects_call_at before step after text stepInput :
  chain keys mode (Some stepInput) before = Some text →
  is_Some (getAlgorithm (entry_id step)) →
  callsOf (animateEffects keys mode (before ++ step :: after) stepInput)
    !! length before = Some (entry_id step, text).
Proof.
  intros Hchain [found Hfound]. revert stepInput Hchain.
  induction before as [|current later IH]; intros stepInput Hchain.
  - simpl in Hchain. injection Hchain as ->. simpl. by rewrite Hfound.
  - rewrite chain_cons in Hchain. unfold applyStep in Hchain. simpl in *.
    destruct (getAlgorithm (entry_id current)) as [found'|]; simpl in *;
      [|by rewrite chain_None in Hchain].
    destruct (match mode with
              | ModeEncrypt => alg_encrypt found'
              | ModeDecrypt => alg_decrypt found'
              end stepInput (keyOf keys (entry_id current)))
      as [finalOutput|message]; simpl in *.
    + destruct (later ++ step :: after) as [|next rest] eqn:Hrest;
        [destruct later; simplify_eq/= |].
      by apply IH.
    + by rewrite chain_None in Hchain.
Qed.

(** A step that throws ends the run: its operation is the last one called
    and nothing is handed to [onResult]. *)
Lemma animateEffects_throw_at before step after found text message stepInput :
  chain keys mode (Some stepInput) before = Some text →
  getAlgorithm (entry_id step) = Some found →
  match mode with
  | ModeEncrypt => alg_encrypt found
  | ModeDecrypt => alg_decrypt found
  end text (keyOf keys (entry_id step)) = Throw message →
  resultsOf (animateEffects keys mode (before ++ step :: after) stepInput) = []
  ∧ length (callsOf (animateEffects keys mode (before ++ step :: after) stepInput))
    = S (length before).
Proof.
  intros Hchain Hfound Hthrow. revert stepInput Hchain.
  induction before as [|current later IH]; intros stepInput Hchain.
  - simpl in Hchain. injection Hchain as ->. simpl. by rewrite Hfound, Hthrow.
  - rewrite chain_cons in Hchain. unfold applyStep in Hchain. simpl in *.
    destruct (getAlgorithm (entry_id current)) as [found'|]; simpl in *;
      [|by rewrite chain_None in Hchain].
    destruct (match mode with
              | ModeEncrypt => alg_encrypt found'
              | ModeDecrypt => alg_decrypt found'
              end stepInput (keyOf keys (entry_id current)))
      as [finalOutput|message']; simpl in *.
    + destruct (later ++ step :: after) as [|next rest] eqn:Hrest;
        [destruct later; simplify_eq/= |].
      destruct (IH finalOutput Hchain) as [Hresults Hcalls].
      split; [done | by rewrite Hcalls].
    + by rewrite chain_None in Hchain.
Qed.

Lemma traversal_nil algorithmOrder :
  traversal mode algorithmOrder = [] → algorithmOrder = [].
Proof.
  unfold traversal. destruct mode; [done |].
  intros H. apply (f_equal reverse) in H. by rewrite reverse_involutive in H.
Qed.

(** The effects of a run that passes the guard of the component. *)
Lemma runEffect_effects inputText algorithmOrder :
  inputText ≠ [] → algorithmOrder ≠ [] →
  effects (runEffect inputText algorithmOrder keys mode)
  = animateEffects keys mode (traversal mode algorithmOrder) inputText.
Proof.
  intros Htext Horder. unfold runEffect, processText.
  assert (Hlen : length algorithmOrder ≠ 0%nat) by (by destruct algorithmOrder).
  rewrite (bool_decide_eq_false_2 (inputText = [])) by done.
  rewrite (bool_decide_eq_false_2 (length algorithmOrder = 0%nat)) by done.
  rewrite bool_decide_eq_true_2 by lia.
  simpl. rewrite animate_effects. by destruct mode.
Qed.

End Composer.









(** ** Round trips *)

(** *** Affine *)

Lemma gcd_rec_enough n m x y :
  (Z.abs_nat y < n)%nat → (Z.abs_nat y < m)%nat → gcd_rec n x y = gcd_rec m x y.
Proof.
  revert m x y. induction n as [|n IH]; intros m x y Hn Hm; [lia |].
  destruct m as [|m]; [lia |]. simpl.
  destruct (y =? 0) eqn:Hy; [done |]. apply Z.eqb_neq in Hy.
  assert (Z.abs_nat (x `rem` y) < Z.abs_nat y)%nat by rem_lia.
  apply IH; lia.
Qed.

(** The equation of the source: the counter of [gcd_rec] never runs out. *)
Lemma gcd_unfold x y : gcd x y = if y =? 0 then x else gcd y (x `rem` y).
Proof.
  unfold gcd.
  change (gcd_rec (S (Z.abs_nat y)) x y)
    with (if y =? 0 then x else gcd_rec (Z.abs_nat y) y (x `rem` y)).
  destruct (y =? 0) eqn:Hy; [done |]. apply Z.eqb_neq in Hy.
  assert (Z.abs_nat (x `rem` y) < Z.abs_nat y)%nat by rem_lia.
  apply gcd_rec_enough; lia.
Qed.

Lemma validateAffineKey_spec key :
  validateAffineKey key = true →
  1 ≤ a key ≤ 25 ∧ 0 ≤ b key ≤ 25 ∧ gcd (a key) 26 = 1.
Proof.
  destruct key as [a b]. simpl.
  destruct (a <? 1) eqn:H1; [done |]. destruct (25 <? a) eqn:H2; [done |].
  destruct (b <? 0) eqn:H3; [done |]. destruct (25 <? b) eqn:H4; [done |].
  simpl. rewrite Z.eqb_eq. lia.
Qed.

Lemma affineChar_inverse a b char :
  1 ≤ a ≤ 25 → 0 ≤ b ≤ 25 → gcd a 26 = 1 →
  affineCharInverse (inverseSearch a 26) b (affineChar a b char) = char.
Proof.
  intros Ha Hb Hgcd.
  assert (Hcases : a ∈ seqZ 1 25) by (apply elem_of_seqZ; lia).
  vm_compute seqZ in Hcases.
  repeat (apply elem_of_cons in Hcases as [-> | Hcases];
    [ first [ by vm_compute in Hgcd
            | clear Hgcd Ha;
              match goal with
              | |- context [inverseSearch ?k 26] =>
                  let v := eval vm_compute in (inverseSearch k 26) in
                  change (inverseSearch k 26) with v
              end;
              unfold affineChar at 1; unfold fromCharCode; cbv zeta;
              char_cases char;
              [ set (e := (_ + 65) `mod` 65536);
                assert (He : 65 ≤ e ≤ 90) by (subst e; rem_lia);
                unfold affineCharInverse, fromCharCode;
                apply matchUpper_spec in He as ->; subst e; cbv zeta; rem_lia
              | set (e := (_ + 97) `mod` 65536);
                assert (He : 97 ≤ e ≤ 122) by (subst e; rem_lia);
                unfold affineCharInverse, fromCharCode;
                assert (matchUpper e = false) as -> by (apply matchUpper_false; lia);
                apply matchLower_spec in He as ->; subst e; cbv zeta; rem_lia
              | unfold affineCharInverse;
                apply matchUpper_false in Hupper as ->;
                by apply matchLower_false in Hlower as -> ] ]
    | ]).
  by apply elem_of_nil in Hcases.
Qed.

Lemma affine_round_trip x key :
  validateAffineKey key = true →
  (c ← affineEncrypt x key; affineDecrypt c key) = Return x.
Proof.
  intros Hkey. apply validateAffineKey_spec in Hkey as (Ha & Hb & Hgcd).
  destruct key as [a b]. simpl in *.
  unfold affineEncrypt, affineDecrypt, modInverse. rewrite Hgcd. simpl.
  f_equal.
  rewrite <- list_fmap_compose. rewrite <- (list_fmap_id x) at 2.
  apply list_fmap_ext. intros i char _.
  by apply (affineChar_inverse a b char).
Qed.

(** *** Monoalphabetic substitution *)

Lemma indexOf_lookup (s : jsstring) (c : Z) (i : nat) :
  s !! i = Some c → (∀ j, (j < i)%nat → s !! j ≠ Some c) →
  indexOf s c = Z.of_nat i.
Proof.
  revert i. induction s as [|x s IH]; intros i Hi Hfirst; [done |].
  simpl. destruct i as [|i].
  - simpl in Hi. injection Hi as ->. by rewrite Z.eqb_refl.
  - assert ((x =? c) = false) as ->.
    { apply Z.eqb_neq. intros ->. by apply (Hfirst 0%nat); [lia |]. }
    rewrite (IH i); [| done | intros j Hj; apply (Hfirst (S j)); lia].
    assert ((Z.of_nat i <? 0) = false) as -> by (apply Z.ltb_ge; lia). lia.
Qed.

Lemma indexOf_NoDup (s : jsstring) (c : Z) (i : nat) :
  NoDup s → s !! i = Some c → indexOf s c = Z.of_nat i.
Proof.
  intros Hnodup Hi. apply indexOf_lookup; [done |].
  intros j Hj Hc. assert (j = i) by (by eapply NoDup_lookup). lia.
Qed.

Lemma ALPHABET_seqZ : ALPHABET = seqZ 65 26.
Proof. reflexivity. Qed.

Lemma ALPHABET_NoDup : NoDup ALPHABET.
Proof. rewrite ALPHABET_seqZ. apply NoDup_seqZ. Qed.

Lemma ALPHABET_lookup c :
  65 ≤ c ≤ 90 → ALPHABET !! Z.to_nat (c - 65) = Some c.
Proof.
  intros Hc. rewrite ALPHABET_seqZ, lookup_seqZ_lt by lia. f_equal. lia.
Qed.

Lemma indexOf_ALPHABET c : 65 ≤ c ≤ 90 → indexOf ALPHABET c = c - 65.
Proof.
  intros Hc. rewrite (indexOf_NoDup ALPHABET c (Z.to_nat (c - 65))).
  - lia.
  - apply ALPHABET_NoDup.
  - by apply ALPHABET_lookup.
Qed.

(** What the loop of the validator establishes. *)
Lemma countLetters_spec chars letterCount result :
  map_Forall (λ _ v, v ≠ 0) letterCount →
  countLetters chars letterCount = Some result →
  Forall (λ c, matchUpper c = true) chars
  ∧ NoDup chars
  ∧ ∀ c, c ∈ chars → letterCount !! c = None.
Proof.
  revert letterCount. induction chars as [|char rest IH]; intros letterCount Hvalues Hrun.
  - split; [constructor |]. split; [constructor |]. intros c Hc. by apply elem_of_nil in Hc.
  - simpl in Hrun. destruct (matchUpper char) eqn:Hupper; [|done]. simpl in Hrun.
    destruct (letterCount !! char) as [v|] eqn:Hseen.
    { simpl in Hrun. specialize (Hvalues char v Hseen). simpl in Hvalues.
      apply Z.eqb_neq in Hvalues. by rewrite Hvalues in Hrun. }
    simpl in Hrun. apply IH in Hrun as (Hall & Hnodup & Hfresh).
    + split; [by constructor |]. split.
      * constructor; [|done]. intros Hin. specialize (Hfresh char Hin).
        by rewrite lookup_insert_eq in Hfresh.
      * intros c Hc. apply elem_of_cons in Hc as [-> | Hc]; [done |].
        specialize (Hfresh c Hc).
        destruct (decide (char = c)) as [-> | Hne].
        -- by rewrite lookup_insert_eq in Hfresh.
        -- by rewrite lookup_insert_ne in Hfresh.
    + apply map_Forall_insert_2; [done | done].
Qed.

Lemma validateMonoalphabeticKey_spec key :
  validateMonoalphabeticKey key = true →
  length (toUpperCase key) = 26%nat
  ∧ Forall (λ c, matchUpper c = true) (toUpperCase key)
  ∧ NoDup (toUpperCase key).
Proof.
  unfold validateMonoalphabeticKey.
  destruct (length (toUpperCase key) =? 26)%nat eqn:Hlen; [|done]. simpl.
  destruct (countLetters (toUpperCase key) ∅) as [letterCount|] eqn:Hrun; [|done].
  intros _. apply Nat.eqb_eq in Hlen.
  apply countLetters_spec in Hrun as (Hall & Hnodup & _); [done |].
  apply map_Forall_empty.
Qed.

Lemma mapM_Return {A B C : Type} (f : B → outcome C) (h : A → B) (g : A → C)
    (l : list A) :
  (∀ x, f (h x) = Return (g x)) → mapM f (h <$> l) = Return (g <$> l).
Proof.
  intros Hf. induction l as [|x l IH]; [done |].
  change (mapM f (h <$> x :: l))
    with (f (h x) ≫= λ y, mapM f (h <$> l) ≫= λ k, mret (y :: k)).
  by rewrite Hf, IH.
Qed.

Lemma joinChars_Some (l : jsstring) : joinChars (Some <$> l) = l.
Proof. induction l as [|c l IH]; [done |]. simpl. f_equal. exact IH. Qed.

Section Substitution.

(** The key in upper case, as both operations use it. *)
Variable K : jsstring.
Hypothesis K_length : length K = 26%nat.
Hypothesis K_upper : Forall (λ c, matchUpper c = true) K.
Hypothesis K_NoDup : NoDup K.

Lemma K_lookup (i : nat) :
  (i < 26)%nat → ∃ e, K !! i = Some e ∧ 65 ≤ e ≤ 90.
Proof.
  intros Hi. destruct (lookup_lt_is_Some_2 K i) as [e He]; [lia |].
  exists e. split; [done |]. apply matchUpper_spec.
  apply (Forall_lookup_1 (λ c, matchUpper c = true) K i e K_upper He).
Qed.

Lemma encrypt_char char :
  (if matchUpper char then
     let index := indexOf ALPHABET char in Return (charAt K index)
   else if matchLower char then
     let index := indexOf ALPHABET (upperChar char) in lowerOf (charAt K index)
   else Return (Some char))
  = Return (Some (substitute K char)).
Proof.
  unfold substitute. char_cases char.
  - cbv zeta. rewrite indexOf_ALPHABET by done. unfold charAt.
    assert ((char - 65 <? 0) = false) as -> by (apply Z.ltb_ge; lia).
    destruct (K_lookup (Z.to_nat (char - 65))) as (e & -> & _); [lia | done].
  - cbv zeta. unfold upperChar.
    assert (matchLower char = true) as -> by (by apply matchLower_spec).
    rewrite indexOf_ALPHABET by lia. unfold charAt.
    replace (char - 32 - 65) with (char - 97) by lia.
    assert ((char - 97 <? 0) = false) as -> by (apply Z.ltb_ge; lia).
    destruct (K_lookup (Z.to_nat (char - 97))) as (e & -> & _); [lia | done].
  - done.
Qed.

Lemma decrypt_char char :
  (if matchUpper (substitute K char) then
     let index := indexOf K (substitute K char) in Return (charAt ALPHABET index)
   else if matchLower (substitute K char) then
     let index := indexOf K (upperChar (substitute K char)) in
     lowerOf (charAt ALPHABET index)
   else Return (Some (substitute K char)))
  = Return (Some char).
Proof.
  unfold substitute. char_cases char.
  - destruct (K_lookup (Z.to_nat (char - 65))) as (e & He & Hrange); [lia |].
    rewrite He. simpl.
    assert (matchUpper e = true) as -> by (by apply matchUpper_spec).
    cbv zeta. rewrite (indexOf_NoDup K e _ K_NoDup He). unfold charAt.
    assert ((Z.of_nat (Z.to_nat (char - 65)) <? 0) = false) as ->
      by (apply Z.ltb_ge; lia).
    rewrite Nat2Z.id, ALPHABET_lookup by done. done.
  - destruct (K_lookup (Z.to_nat (char - 97))) as (e & He & Hrange); [lia |].
    rewrite He. simpl.
    assert (Hl : lowerChar e = e + 32).
    { unfold lowerChar. by apply matchUpper_spec in Hrange as ->. }
    assert (Hu : upperChar (e + 32) = e).
    { unfold upperChar.
      assert (matchLower (e + 32) = true) as -> by (apply matchLower_spec; lia). lia. }
    rewrite !Hl, Hu.
    assert (matchUpper (e + 32) = false) as -> by (apply matchUpper_false; lia).
    assert (matchLower (e + 32) = true) as -> by (apply matchLower_spec; lia).
    cbv zeta.
    rewrite (indexOf_NoDup K e _ K_NoDup He). unfold charAt.
    assert ((Z.of_nat (Z.to_nat (char - 97)) <? 0) = false) as ->
      by (apply Z.ltb_ge; lia).
    rewrite Nat2Z.id.
    replace (char - 97) with ((char - 32) - 65) by lia.
    rewrite ALPHABET_lookup by lia. simpl. unfold lowerChar.
    assert (matchUpper (char - 32) = true) as -> by (apply matchUpper_spec; lia).
    do 2 f_equal. lia.
  - apply matchUpper_false in Hupper as ->. by apply matchLower_false in Hlower as ->.
Qed.

End Substitution.

Lemma monoalphabetic_round_trip x key :
  validateMonoalphabeticKey key = true →
  (c ← monoalphabeticEncrypt x key; monoalphabeticDecrypt c key) = Return x.
Proof.
  intros Hkey.
  destruct (validateMonoalphabeticKey_spec key Hkey) as (Hlen & Hupper & Hnodup).
  rewrite <- validate_toUpperCase in Hkey.
  set (K := toUpperCase key) in *.
  unfold monoalphabeticEncrypt. fold K. rewrite Hkey. cbn [negb].
  rewrite <- (list_fmap_id x) at 1.
  rewrite (mapM_Return _ id (Some ∘ substitute K))
    by (intros char; by apply encrypt_char).
  cbn [mbind outcome_bind]. rewrite list_fmap_compose, joinChars_Some.
  unfold monoalphabeticDecrypt. fold K. rewrite Hkey. cbn [negb].
  rewrite (mapM_Return _ (substitute K) Some)
    by (intros char; by apply decrypt_char).
  cbn [mbind outcome_bind]. by rewrite joinChars_Some.
Qed.

(** *** AES: bytes, tables and the field *)

(** Checking a property of all numbers of a range by running through it. *)
Lemma forallb_seqZ (f : Z → bool) lo n :
  forallb f (seqZ lo n) = true → ∀ z, lo ≤ z < lo + n → f z = true.
Proof.
  intros Hall z Hz. rewrite forallb_forall in Hall. apply Hall.
  apply list_elem_of_In, elem_of_seqZ. lia.
Qed.

Lemma lxor_byte x y : isByte x → isByte y → isByte (Z.lxor x y).
Proof.
  unfold isByte. intros Hx Hy.
  split; [apply Z.lxor_nonneg; lia |].
  destruct (decide (Z.lxor x y = 0)) as [->|Hne]; [lia |].
  apply Z.log2_lt_cancel. change (Z.log2 256) with 8.
  eapply Z.le_lt_trans; [apply Z.log2_lxor; lia |].
  apply Z.max_lub_lt.
  - destruct (decide (x = 0)) as [->|]; [done |]. apply Z.log2_lt_pow2; lia.
  - destruct (decide (y = 0)) as [->|]; [done |]. apply Z.log2_lt_pow2; lia.
Qed.

Lemma gmul_byte a b : isByte (gmul a b).
Proof.
  unfold gmul. destruct (forLoop 0 8 _ _) as [[p ?] ?].
  unfold isByte. change 255 with (Z.ones 8). rewrite Z.land_ones by lia.
  apply Z.mod_pos_bound. lia.
Qed.

Lemma sbox_inverse x : isByte x → get INV_SBOX (get SBOX x) = x.
Proof.
  intros Hx. apply Z.eqb_eq.
  apply (forallb_seqZ (λ x, get INV_SBOX (get SBOX x) =? x) 0 256); [|exact Hx].
  vm_compute. reflexivity.
Qed.

Lemma sbox_range x : isByte x → isByte (get SBOX x).
Proof.
  intros Hx. unfold isByte.
  assert (H: ((0 <=? get SBOX x) && (get SBOX x <? 256)) = true).
  { apply (forallb_seqZ (λ x, (0 <=? get SBOX x) && (get SBOX x <? 256)) 0 256); [|exact Hx].
    vm_compute. reflexivity. }
  apply andb_true_iff in H as [H1 H2]. lia.
Qed.

Lemma gmulLinear_lxor c x y :
  gmulLinear c (Z.lxor x y) = Z.lxor (gmulLinear c x) (gmulLinear c y).
Proof.
  unfold gmulLinear. induction (seqZ 0 8) as [|k ks IH]; [done |].
  simpl. rewrite IH, Z.lxor_spec.
  generalize (foldr (λ k acc, Z.lxor (if Z.testbit x k then gmul c (2 ^ k) else 0) acc) 0 ks).
  generalize (foldr (λ k acc, Z.lxor (if Z.testbit y k then gmul c (2 ^ k) else 0) acc) 0 ks).
  generalize (gmul c (2 ^ k)). intros K q p.
  apply Z.bits_inj'. intros n _.
  destruct (Z.testbit x k), (Z.testbit y k); simpl;
    rewrite !Z.lxor_spec, ?Z.bits_0; btauto.
Qed.

Lemma gmul_linear_form c x : mixConstant c → isByte x → gmul c x = gmulLinear c x.
Proof.
  intros Hc Hx. apply Z.eqb_eq.
  apply (forallb_seqZ (λ x, gmul c x =? gmulLinear c x) 0 256); [|exact Hx].
  unfold mixConstant in Hc. rewrite !elem_of_cons, elem_of_nil in Hc.
  destruct Hc as [->|[->|[->|[->|[->|[->|[]]]]]]]; vm_compute; reflexivity.
Qed.

Lemma gmul_lxor c x y :
  mixConstant c → isByte x → isByte y →
  gmul c (Z.lxor x y) = Z.lxor (gmul c x) (gmul c y).
Proof.
  intros Hc Hx Hy. rewrite !gmul_linear_form by auto using lxor_byte.
  apply gmulLinear_lxor.
Qed.

Section Sixteen.
Variables s0 s1 s2 s3 s4 s5 s6 s7 s8 s9 s10 s11 s12 s13 s14 s15 : Z.
Abbreviation state :=
  [s0; s1; s2; s3; s4; s5; s6; s7; s8; s9; s10; s11; s12; s13; s14; s15].

Lemma subBytes_16 : subBytes state = (λ x, u8 (get SBOX x)) <$> state.
Proof. reflexivity. Qed.

Lemma invSubBytes_16 : invSubBytes state = (λ x, u8 (get INV_SBOX x)) <$> state.
Proof. reflexivity. Qed.

Lemma shiftRows_16 :
  shiftRows state
  = [s0; u8 s5; u8 s10; u8 s15; s4; u8 s9; u8 s14; u8 s3;
     s8; u8 s13; u8 s2; u8 s7; s12; u8 s1; u8 s6; u8 s11].
Proof. reflexivity. Qed.

Lemma invShiftRows_16 :
  invShiftRows state
  = [s0; u8 s13; u8 s10; u8 s7; s4; u8 s1; u8 s14; u8 s11;
     s8; u8 s5; u8 s2; u8 s15; s12; u8 s9; u8 s6; u8 s3].
Proof. reflexivity. Qed.

Lemma mixColumns_16 :
  mixColumns state
  = (u8 <$> mixColumn (u8 s0) (u8 s1) (u8 s2) (u8 s3))
    ++ (u8 <$> mixColumn (u8 s4) (u8 s5) (u8 s6) (u8 s7))
    ++ (u8 <$> mixColumn (u8 s8) (u8 s9) (u8 s10) (u8 s11))
    ++ (u8 <$> mixColumn (u8 s12) (u8 s13) (u8 s14) (u8 s15)).
Proof. reflexivity. Qed.

Lemma invMixColumns_16 :
  invMixColumns state
  = (u8 <$> invMixColumn (u8 s0) (u8 s1) (u8 s2) (u8 s3))
    ++ (u8 <$> invMixColumn (u8 s4) (u8 s5) (u8 s6) (u8 s7))
    ++ (u8 <$> invMixColumn (u8 s8) (u8 s9) (u8 s10) (u8 s11))
    ++ (u8 <$> invMixColumn (u8 s12) (u8 s13) (u8 s14) (u8 s15)).
Proof. reflexivity. Qed.

Variables k0 k1 k2 k3 k4 k5 k6 k7 k8 k9 k10 k11 k12 k13 k14 k15 : Z.
Abbreviation roundKey :=
  [k0; k1; k2; k3; k4; k5; k6; k7; k8; k9; k10; k11; k12; k13; k14; k15].

Lemma addRoundKey_16 :
  addRoundKey state roundKey
  = zip_with (λ s k, u8 (Z.lxor s k)) state roundKey.
Proof. reflexivity. Qed.

Lemma copy_16 :
  forLoop 0 16 (λ i st, set st i (get state i)) (newUint8Array 16) = u8 <$> state.
Proof. reflexivity. Qed.

End Sixteen.

Lemma mix_products t :
  isByte t → mixA t = t ∧ mixB t = 0 ∧ mixC t = 0 ∧ mixD t = 0.
Proof.
  intros Ht.
  assert (H : ((mixA t =? t) && (mixB t =? 0) && (mixC t =? 0) && (mixD t =? 0)) = true).
  { apply (forallb_seqZ
             (λ t, (mixA t =? t) && (mixB t =? 0) && (mixC t =? 0) && (mixD t =? 0))
             0 256); [|exact Ht].
    vm_compute. reflexivity. }
  rewrite !andb_true_iff, !Z.eqb_eq in H. tauto.
Qed.

Lemma mixConstant_cases :
  mixConstant 2 ∧ mixConstant 3 ∧ mixConstant 9 ∧ mixConstant 11
  ∧ mixConstant 13 ∧ mixConstant 14.
Proof. unfold mixConstant. repeat split; set_solver. Qed.

Ltac lxor_ac := apply Z.bits_inj'; intros ? _; rewrite !Z.lxor_spec; btauto.

Lemma u8_byte x : isByte x → u8 x = x.
Proof. intros Hx. apply Z.mod_small. exact Hx. Qed.

Lemma isByte_u8 x : isByte (u8 x).
Proof. apply Z.mod_pos_bound. lia. Qed.

Lemma inv_sbox_range x : isByte x → isByte (get INV_SBOX x).
Proof.
  intros Hx. unfold isByte.
  assert (H: ((0 <=? get INV_SBOX x) && (get INV_SBOX x <? 256)) = true).
  { apply (forallb_seqZ (λ x, (0 <=? get INV_SBOX x) && (get INV_SBOX x <? 256)) 0 256);
      [|exact Hx].
    vm_compute. reflexivity. }
  apply andb_true_iff in H as [H1 H2]. lia.
Qed.

(** Side conditions saying that a value is a byte. *)
Ltac bytes :=
  repeat first [ assumption | apply isByte_u8 | apply gmul_byte | apply lxor_byte
               | apply sbox_range | apply inv_sbox_range | apply mixConstant_cases ].

Lemma invMixColumn_mixColumn t0 t1 t2 t3 :
  isByte t0 → isByte t1 → isByte t2 → isByte t3 →
  invMixColumn
    (Z.lxor (Z.lxor (Z.lxor (gmul 2 t0) (gmul 3 t1)) t2) t3)
    (Z.lxor (Z.lxor (Z.lxor t0 (gmul 2 t1)) (gmul 3 t2)) t3)
    (Z.lxor (Z.lxor (Z.lxor t0 t1) (gmul 2 t2)) (gmul 3 t3))
    (Z.lxor (Z.lxor (Z.lxor (gmul 3 t0) t1) t2) (gmul 2 t3))
  = [t0; t1; t2; t3].
Proof.
  intros H0 H1 H2 H3. unfold invMixColumn.
  destruct (mix_products t0 H0) as (A0 & B0 & C0 & D0).
  destruct (mix_products t1 H1) as (A1 & B1 & C1 & D1).
  destruct (mix_products t2 H2) as (A2 & B2 & C2 & D2).
  destruct (mix_products t3 H3) as (A3 & B3 & C3 & D3).
  rewrite !gmul_lxor by bytes.
  f_equal; [|f_equal; [|f_equal; [|f_equal]]].
  - transitivity (Z.lxor (Z.lxor (Z.lxor (mixA t0) (mixB t1)) (mixC t2)) (mixD t3)).
    + unfold mixA, mixB, mixC, mixD. lxor_ac.
    + rewrite A0, B1, C2, D3. by rewrite !Z.lxor_0_r.
  - transitivity (Z.lxor (Z.lxor (Z.lxor (mixD t0) (mixA t1)) (mixB t2)) (mixC t3)).
    + unfold mixA, mixB, mixC, mixD. lxor_ac.
    + rewrite D0, A1, B2, C3. by rewrite Z.lxor_0_l, !Z.lxor_0_r.
  - transitivity (Z.lxor (Z.lxor (Z.lxor (mixC t0) (mixD t1)) (mixA t2)) (mixB t3)).
    + unfold mixA, mixB, mixC, mixD. lxor_ac.
    + rewrite C0, D1, A2, B3. by rewrite Z.lxor_0_l, !Z.lxor_0_r.
  - transitivity (Z.lxor (Z.lxor (Z.lxor (mixB t0) (mixC t1)) (mixD t2)) (mixA t3)).
    + unfold mixA, mixB, mixC, mixD. lxor_ac.
    + rewrite B0, C1, D2, A3. by rewrite !Z.lxor_0_l.
Qed.

(** A block taken apart into its sixteen bytes. *)
Ltac block_cases H :=
  let Hlen := fresh "Hlen" in
  let Hall := fresh "Hall" in
  destruct H as [Hlen Hall];
  repeat match goal with
         | Hl : length ?st = _ |- _ =>
             destruct st as [|? st]; [discriminate Hl |];
             simpl in Hl; apply Nat.succ_inj in Hl
         end;
  match goal with
  | Hl : length ?st = _ |- _ => destruct st; [clear Hl | discriminate Hl]
  end;
  repeat match goal with
         | Ha : Forall isByte (_ :: _) |- _ => apply Forall_cons in Ha as [? Ha]
         end;
  clear Hall.

Ltac block_goal := split; [reflexivity | repeat constructor; bytes].

Lemma subShift_block st : block st → block (shiftRows (subBytes st)).
Proof.
  intros H. block_cases H. rewrite subBytes_16. cbn [fmap list_fmap].
  rewrite shiftRows_16. block_goal.
Qed.

Lemma subShift_inverse st :
  block st → invSubBytes (invShiftRows (shiftRows (subBytes st))) = st.
Proof.
  intros H. block_cases H. rewrite subBytes_16. cbn [fmap list_fmap].
  rewrite shiftRows_16, invShiftRows_16, invSubBytes_16. cbn [fmap list_fmap].
  rewrite !u8_byte by bytes. rewrite !sbox_inverse by bytes. reflexivity.
Qed.

Lemma mixColumns_block st : block st → block (mixColumns st).
Proof.
  intros H. block_cases H. rewrite mixColumns_16.
  unfold mixColumn. cbn [fmap list_fmap app]. block_goal.
Qed.

Lemma mixColumns_inverse st : block st → invMixColumns (mixColumns st) = st.
Proof.
  intros H. block_cases H. rewrite mixColumns_16.
  unfold mixColumn. cbn [fmap list_fmap app]. rewrite invMixColumns_16.
  rewrite !u8_byte by bytes.
  rewrite !invMixColumn_mixColumn by bytes.
  cbn [fmap list_fmap app]. rewrite !u8_byte by bytes. reflexivity.
Qed.

Lemma addRoundKey_block st k : block st → block k → block (addRoundKey st k).
Proof.
  intros H Hk. block_cases H. block_cases Hk. rewrite addRoundKey_16.
  cbn [zip_with]. block_goal.
Qed.

Lemma addRoundKey_involutive st k :
  block st → block k → addRoundKey (addRoundKey st k) k = st.
Proof.
  intros H Hk. block_cases H. block_cases Hk. rewrite addRoundKey_16.
  cbn [zip_with]. rewrite addRoundKey_16. cbn [zip_with].
  rewrite !u8_byte by bytes.
  rewrite !Z.lxor_assoc, !Z.lxor_nilpotent, !Z.lxor_0_r. reflexivity.
Qed.

Lemma copy_block st :
  block st → forLoop 0 16 (λ i state, set state i (get st i)) (newUint8Array 16) = st.
Proof.
  intros H. block_cases H. rewrite copy_16. cbn [fmap list_fmap].
  rewrite !u8_byte by bytes. reflexivity.
Qed.

(** *** The rounds *)

Section Rounds.

Variable roundKeys : list Z.

Lemma encryptRound_block round state :
  block state → block (roundKeyAt roundKeys round) →
  block (encryptRound roundKeys round state).
Proof.
  intros Hs Hk. unfold encryptRound.
  by apply addRoundKey_block; [apply mixColumns_block, subShift_block |].
Qed.

(** Undoing one round: what [decryptRound] makes of the state
    [shiftRows (subBytes (encryptRound ... state))]. *)
Lemma decryptRound_encryptRound round state :
  block state → block (roundKeyAt roundKeys round) →
  decryptRound roundKeys round
    (shiftRows (subBytes (encryptRound roundKeys round state)))
  = shiftRows (subBytes state).
Proof.
  intros Hs Hk. unfold decryptRound.
  rewrite subShift_inverse by (by apply encryptRound_block).
  unfold encryptRound. fold (roundKeyAt roundKeys round).
  rewrite addRoundKey_involutive by (by try apply mixColumns_block, subShift_block).
  by rewrite mixColumns_inverse by (by apply subShift_block).
Qed.

Lemma encryptRounds_block rounds state :
  block state → (∀ round, round ∈ rounds → block (roundKeyAt roundKeys round)) →
  block (foldl (λ s i, encryptRound roundKeys i s) state rounds).
Proof.
  revert state. induction rounds as [|round rounds IH]; intros state Hs Hk; [done |].
  simpl. apply IH.
  - apply encryptRound_block; [done | apply Hk; left].
  - intros r Hr. apply Hk. by right.
Qed.

Lemma decryptRounds_encryptRounds rounds state :
  block state → (∀ round, round ∈ rounds → block (roundKeyAt roundKeys round)) →
  foldl (λ s i, decryptRound roundKeys i s)
    (shiftRows (subBytes (foldl (λ s i, encryptRound roundKeys i s) state rounds)))
    (reverse rounds)
  = shiftRows (subBytes state).
Proof.
  revert state. induction rounds as [|round rounds IH]; intros state Hs Hk; [done |].
  rewrite reverse_cons, foldl_app. simpl.
  rewrite IH.
  - apply decryptRound_encryptRound; [done | apply Hk; left].
  - apply encryptRound_block; [done | apply Hk; left].
  - intros r Hr. apply Hk. by right.
Qed.

End Rounds.

(** *** Loops and stores *)

Lemma forLoop_invariant {S : Type} (P : S → Prop) lo hi body (s : S) :
  P s → (∀ i s, P s → P (body i s)) → P (forLoop lo hi body s).
Proof.
  intros Hs Hbody. unfold forLoop. revert s Hs.
  induction (seqZ lo (hi - lo)) as [|i l IH]; intros s Hs; [done |].
  simpl. apply IH, Hbody, Hs.
Qed.

Lemma length_set arr i v : length (set arr i v) = length arr.
Proof. unfold set. destruct (i <? 0); [done | apply length_insert]. Qed.

Lemma Forall_set arr i v : Forall isByte arr → Forall isByte (set arr i v).
Proof.
  intros H. unfold set. destruct (i <? 0); [done |].
  apply Forall_insert; [done | apply isByte_u8].
Qed.

Lemma length_subarray arr lo hi :
  0 ≤ lo ≤ hi → hi ≤ Z.of_nat (length arr) →
  length (subarray arr lo hi) = Z.to_nat (hi - lo).
Proof. intros Hlo Hhi. unfold subarray. rewrite length_take, length_drop. lia. Qed.

Lemma Forall_subarray arr lo hi :
  Forall isByte arr → Forall isByte (subarray arr lo hi).
Proof. intros H. unfold subarray. by apply Forall_take, Forall_drop. Qed.

(** *** The key schedule *)

Lemma keyExpansion_bytes key params :
  length (keyExpansion key params) = Z.to_nat (4 * 4 * (nr params + 1))
  ∧ Forall isByte (keyExpansion key params).
Proof.
  unfold keyExpansion.
  set (P := λ ek : list Z,
         length ek = Z.to_nat (4 * 4 * (nr params + 1)) ∧ Forall isByte ek).
  assert (Hset : ∀ ek i v, P ek → P (set ek i v)).
  { intros ek i v [Hl Hb]. split; [by rewrite length_set | by apply Forall_set]. }
  cbv zeta.
  match goal with |- length ?ek = _ ∧ _ => change (P ek) end.
  apply forLoop_invariant.
  - apply forLoop_invariant; [| by intros; apply Hset].
    split; [apply length_replicate |].
    apply Forall_replicate. unfold isByte. lia.
  - intros i ek Hek. apply forLoop_invariant; [done | by intros; apply Hset].
Qed.

Lemma roundKeyAt_block key params round :
  0 ≤ round ≤ nr params → block (roundKeyAt (keyExpansion key params) round).
Proof.
  intros Hround. destruct (keyExpansion_bytes key params) as [Hlen Hbytes].
  split; [| by apply Forall_subarray].
  unfold roundKeyAt. rewrite length_subarray; lia.
Qed.

Lemma getKeyParams_cases keyLength :
  keyLength = 16 ∨ keyLength = 24 ∨ keyLength = 32 →
  ∃ params, getKeyParams keyLength = Return params
            ∧ (nr params = 10 ∨ nr params = 12 ∨ nr params = 14).
Proof. intros [-> | [-> | ->]]; eexists; (split; [reflexivity |]); simpl; auto. Qed.

Lemma getKeyParams_invalid keyLength :
  keyLength ≠ 16 → keyLength ≠ 24 → keyLength ≠ 32 →
  ∃ message, getKeyParams keyLength = Throw message.
Proof.
  intros H16 H24 H32. unfold getKeyParams.
  apply Z.eqb_neq in H16 as ->. apply Z.eqb_neq in H24 as ->.
  apply Z.eqb_neq in H32 as ->. by eexists.
Qed.

(** *** One block *)

Lemma aesEncryptBlock_state plaintext key params :
  length plaintext = 16%nat →
  getKeyParams (Z.of_nat (length key)) = Return params →
  aesEncryptBlock plaintext key
  = Return (encryptState (keyExpansion key params) (nr params) plaintext).
Proof.
  intros Hlen Hparams. unfold aesEncryptBlock. rewrite Hlen, Hparams.
  change (Z.of_nat 16 =? 16) with true. cbn [negb mbind outcome_bind].
  unfold encryptState, encryptRound. reflexivity.
Qed.

Lemma aesDecryptBlock_state ciphertext key params :
  length ciphertext = 16%nat →
  getKeyParams (Z.of_nat (length key)) = Return params →
  aesDecryptBlock ciphertext key
  = Return (decryptState (keyExpansion key params) (nr params) ciphertext).
Proof.
  intros Hlen Hparams. unfold aesDecryptBlock. rewrite Hlen, Hparams.
  change (Z.of_nat 16 =? 16) with true. cbn [negb mbind outcome_bind].
  unfold decryptState, decryptRound. reflexivity.
Qed.

Section State.

Variable roundKeys : list Z.
Variable nr : Z.
Hypothesis nr_positive : 1 ≤ nr.
Hypothesis roundKeys_blocks :
  ∀ round, 0 ≤ round ≤ nr → block (roundKeyAt roundKeys round).

Lemma middle_rounds round : round ∈ seqZ 1 (nr - 1) → block (roundKeyAt roundKeys round).
Proof. rewrite elem_of_seqZ. intros H. apply roundKeys_blocks. lia. Qed.

Lemma encryptState_block plaintext :
  block plaintext → block (encryptState roundKeys nr plaintext).
Proof.
  intros Hp. unfold encryptState. rewrite copy_block by done.
  apply addRoundKey_block; [| apply (roundKeys_blocks nr); lia].
  apply subShift_block. unfold forLoop.
  apply encryptRounds_block; [| apply middle_rounds].
  apply addRoundKey_block; [done | apply (roundKeys_blocks 0); lia].
Qed.

Lemma decryptState_encryptState plaintext :
  block plaintext →
  decryptState roundKeys nr (encryptState roundKeys nr plaintext) = plaintext.
Proof.
  intros Hp. unfold decryptState.
  rewrite copy_block by (by apply encryptState_block).
  unfold encryptState. rewrite copy_block by done.
  assert (H0 : block (roundKeyAt roundKeys 0)) by (apply roundKeys_blocks; lia).
  assert (Hn : block (roundKeyAt roundKeys nr)) by (apply roundKeys_blocks; lia).
  change (subarray roundKeys 0 16) with (roundKeyAt roundKeys 0).
  change (subarray roundKeys (nr * 16) ((nr + 1) * 16)) with (roundKeyAt roundKeys nr).
  assert (Hstart : block (addRoundKey plaintext (roundKeyAt roundKeys 0)))
    by (by apply addRoundKey_block).
  assert (Hmid : block (forLoop 1 nr (encryptRound roundKeys)
                          (addRoundKey plaintext (roundKeyAt roundKeys 0)))).
  { unfold forLoop. apply encryptRounds_block; [done | apply middle_rounds]. }
  rewrite addRoundKey_involutive by (by try apply subShift_block).
  unfold forLoopDown, forLoop.
  replace (seqZ (0 + 1) (nr - 1 - 0)) with (seqZ 1 (nr - 1)) by (f_equal; lia).
  rewrite decryptRounds_encryptRounds by (done || apply middle_rounds).
  rewrite subShift_inverse by done.
  by apply addRoundKey_involutive.
Qed.

End State.

(** With a key of 16, 24 or 32 bytes a block is encrypted to a block, and
    decrypting that block gives the first one back. *)
Lemma block_round_trip plaintext key :
  block plaintext → validKeyLength key →
  ∃ ciphertext,
    aesEncryptBlock plaintext key = Return ciphertext
    ∧ block ciphertext
    ∧ aesDecryptBlock ciphertext key = Return plaintext.
Proof.
  intros Hp Hkey.
  destruct (getKeyParams_cases (Z.of_nat (length key))) as (params & Hparams & Hnr).
  { unfold validKeyLength in Hkey. lia. }
  assert (Hkeys : ∀ round, 0 ≤ round ≤ nr params →
            block (roundKeyAt (keyExpansion key params) round))
    by (intros; by apply roundKeyAt_block).
  exists (encryptState (keyExpansion key params) (nr params) plaintext).
  assert (Hc : block (encryptState (keyExpansion key params) (nr params) plaintext))
    by (apply encryptState_block; [lia | done | done]).
  split; [apply aesEncryptBlock_state; [apply Hp | done] |].
  split; [done |].
  rewrite (aesDecryptBlock_state _ _ params) by (done || apply Hc).
  f_equal. apply decryptState_encryptState; [lia | done | done].
Qed.

(** *** Messages *)

Lemma forLoopM_invariant {T : Type} (I : Z → T → Prop) lo hi body (s : T) :
  lo ≤ hi → I lo s →
  (∀ i s, lo ≤ i < hi → I i s → ∃ s', body i s = Return s' ∧ I (i + 1) s') →
  ∃ s', forLoopM lo hi body s = Return s' ∧ I hi s'.
Proof.
  intros Hle Hs Hbody. unfold forLoopM.
  assert (Hn : ∃ n : nat, hi - lo = Z.of_nat n) by (exists (Z.to_nat (hi - lo)); lia).
  destruct Hn as [n Hn]. rewrite Hn.
  replace hi with (lo + Z.of_nat n) in * by lia. clear Hn Hle.
  revert lo s Hs Hbody. induction n as [|n IH]; intros lo s Hs Hbody.
  - exists s. split; [done |]. by replace (lo + Z.of_nat 0) with lo by lia.
  - rewrite seqZ_cons by lia. simpl.
    destruct (Hbody lo s) as (s1 & -> & Hs1); [lia | done |].
    replace (Z.pred (Z.of_nat (S n))) with (Z.of_nat n) by lia.
    destruct (IH (Z.succ lo) s1) as (s' & Hrun & Hs').
    + by replace (Z.succ lo) with (lo + 1) by lia.
    + intros i s2 Hi. apply Hbody. lia.
    + exists s'. split; [done |].
      by replace (lo + Z.of_nat (S n)) with (Z.succ lo + Z.of_nat n) by lia.
Qed.

Lemma blockAt_nat data i :
  0 ≤ i → blockAt data i = take 16 (drop (16 * Z.to_nat i) data).
Proof.
  intros Hi. unfold blockAt, subarray.
  replace (Z.to_nat ((i + 1) * 16 - i * 16)) with 16%nat by lia.
  by replace (Z.to_nat (i * 16)) with (16 * Z.to_nat i)%nat by lia.
Qed.

Lemma setArray_nat target source i :
  0 ≤ i →
  setArray target source (i * 16)
  = take (16 * Z.to_nat i) target ++ source
      ++ drop (16 * Z.to_nat i + length source) target.
Proof.
  intros Hi. unfold setArray.
  by replace (Z.to_nat (i * 16)) with (16 * Z.to_nat i)%nat by lia.
Qed.

Lemma length_setArray target source i :
  0 ≤ i → (16 * Z.to_nat i + length source ≤ length target)%nat →
  length (setArray target source (i * 16)) = length target.
Proof.
  intros Hi Hfit. rewrite setArray_nat by done.
  rewrite !length_app, length_take, length_drop. lia.
Qed.

Lemma blockAt_setArray_same target source i :
  0 ≤ i → length source = 16%nat → (16 * Z.to_nat i + 16 ≤ length target)%nat →
  blockAt (setArray target source (i * 16)) i = source.
Proof.
  intros Hi Hsrc Hfit. rewrite blockAt_nat, setArray_nat by done.
  rewrite drop_app_length' by (rewrite length_take; lia).
  rewrite take_app_length' by done. done.
Qed.

Lemma blockAt_setArray_before target source i j :
  0 ≤ j < i → (16 * Z.to_nat i ≤ length target)%nat →
  blockAt (setArray target source (i * 16)) j = blockAt target j.
Proof.
  intros Hj Hfit. rewrite !blockAt_nat, setArray_nat by lia.
  rewrite <- (take_drop (16 * Z.to_nat i) target) at 3.
  assert (Hlen : length (take (16 * Z.to_nat i) target) = (16 * Z.to_nat i)%nat)
    by (rewrite length_take; lia).
  rewrite !drop_app_le by lia.
  rewrite !take_app_le by (rewrite length_drop; lia). done.
Qed.

Lemma blockAt_block data i :
  Forall isByte data → 0 ≤ i → (i + 1) * 16 ≤ Z.of_nat (length data) →
  block (blockAt data i).
Proof.
  intros Hbytes Hi Hfit. split; [| by apply Forall_subarray].
  unfold blockAt. rewrite length_subarray; lia.
Qed.

Section Message.

Variable key : list Z.
Hypothesis key_length : validKeyLength key.

(** The loop of [aesEncrypt] over a padded text of [n] blocks: it returns
    a text of the same length each block of which decrypts to the block of
    the padded text at its place. *)
Lemma encrypt_blocks padded (n : nat) :
  Forall isByte padded → length padded = (16 * n)%nat →
  ∃ ciphertext,
    forLoopM 0 (Z.of_nat n) (λ i ciphertext,
      let block := subarray padded (i * 16) ((i + 1) * 16) in
      encryptedBlock ← aesEncryptBlock block key;
      Return (setArray ciphertext encryptedBlock (i * 16)))
      (newUint8Array (Z.of_nat (length padded)))
    = Return ciphertext
    ∧ length ciphertext = length padded
    ∧ ∀ j, 0 ≤ j < Z.of_nat n →
        aesDecryptBlock (blockAt ciphertext j) key = Return (blockAt padded j).
Proof.
  intros Hbytes Hlen.
  destruct (forLoopM_invariant
    (λ i ciphertext,
       length ciphertext = length padded
       ∧ ∀ j, 0 ≤ j < i →
           aesDecryptBlock (blockAt ciphertext j) key = Return (blockAt padded j))
    0 (Z.of_nat n)
    (λ i ciphertext,
      let block := subarray padded (i * 16) ((i + 1) * 16) in
      encryptedBlock ← aesEncryptBlock block key;
      Return (setArray ciphertext encryptedBlock (i * 16)))
    (newUint8Array (Z.of_nat (length padded)))) as (ciphertext & Hrun & Hinv).
  - lia.
  - split; [unfold newUint8Array; rewrite length_replicate; lia | intros; lia].
  - intros i ciphertext Hi [Hlength Hdone]. cbv zeta.
    fold (blockAt padded i).
    destruct (block_round_trip (blockAt padded i) key) as (eb & -> & Heb & Hdec).
    { apply blockAt_block; [done | lia | lia]. }
    { done. }
    eexists. split; [reflexivity |]. split.
    + rewrite length_setArray; [done | lia | destruct Heb as [-> _]; lia].
    + intros j Hj. destruct (decide (j = i)) as [-> | Hne].
      * rewrite blockAt_setArray_same; [done | lia | apply Heb | lia].
      * rewrite blockAt_setArray_before by lia. apply Hdone. lia.
  - exists ciphertext. by destruct Hinv.
Qed.

(** The loop of [aesDecrypt] over such a ciphertext rebuilds the padded
    text. *)
Lemma decrypt_blocks padded ciphertext (n : nat) :
  length padded = (16 * n)%nat → length ciphertext = length padded →
  (∀ j, 0 ≤ j < Z.of_nat n →
     aesDecryptBlock (blockAt ciphertext j) key = Return (blockAt padded j)) →
  forLoopM 0 (Z.of_nat n) (λ i paddedPlaintext,
    let block := subarray ciphertext (i * 16) ((i + 1) * 16) in
    decryptedBlock ← aesDecryptBlock block key;
    Return (setArray paddedPlaintext decryptedBlock (i * 16)))
    (newUint8Array (Z.of_nat (length ciphertext)))
  = Return padded.
Proof.
  intros Hlen Hclen Hblocks.
  destruct (forLoopM_invariant
    (λ i paddedPlaintext,
       paddedPlaintext
       = take (16 * Z.to_nat i) padded ++ replicate (16 * n - 16 * Z.to_nat i) 0)
    0 (Z.of_nat n)
    (λ i paddedPlaintext,
      let block := subarray ciphertext (i * 16) ((i + 1) * 16) in
      decryptedBlock ← aesDecryptBlock block key;
      Return (setArray paddedPlaintext decryptedBlock (i * 16)))
    (newUint8Array (Z.of_nat (length ciphertext)))) as (result & Hrun & Hinv).
  - lia.
  - unfold newUint8Array. simpl. f_equal. lia.
  - intros i paddedPlaintext Hi ->. cbv zeta. fold (blockAt ciphertext i).
    rewrite Hblocks by lia.
    eexists. split; [reflexivity |].
    rewrite setArray_nat, blockAt_nat by lia.
    assert (Hk : (16 * Z.to_nat i + 16 ≤ length padded)%nat) by lia.
    rewrite take_app_length' by (rewrite length_take; lia).
    rewrite drop_app_ge by (rewrite length_take, length_take, length_drop; lia).
    rewrite drop_replicate.
    rewrite !length_take, length_drop.
    replace (Z.to_nat (i + 1)) with (S (Z.to_nat i)) by lia.
    rewrite app_assoc. f_equal.
    + rewrite take_take_drop. f_equal. lia.
    + f_equal. lia.
  - rewrite Hrun, Hinv. rewrite Nat2Z.id, Nat.sub_diag.
    cbn [replicate]. rewrite app_nil_r. f_equal. apply take_ge. lia.
Qed.

End Message.

(** *** Padding *)

Lemma padLength_range n : (1 ≤ padLength n ≤ 16)%nat.
Proof. unfold padLength. pose proof (Nat.mod_upper_bound n 16). lia. Qed.

Lemma padLength_Z n :
  16 - (Z.of_nat n `rem` 16) = Z.of_nat (padLength n).
Proof.
  unfold padLength. pose proof (Nat.mod_upper_bound n 16).
  rewrite Z.rem_mod_nonneg by lia.
  rewrite Nat2Z.inj_sub by lia. by rewrite Nat2Z.inj_mod.
Qed.

Lemma padded_length n : ∃ m : nat, (n + padLength n = 16 * m)%nat ∧ (1 ≤ m)%nat.
Proof.
  unfold padLength. exists (S (n `div` 16)).
  pose proof (Nat.div_mod_eq n 16). pose proof (Nat.mod_upper_bound n 16). lia.
Qed.

(** A loop that stores the same value at the places after a prefix. *)
Lemma fill_after (k : nat) (x : list Z) (v w : Z) :
  forLoop (Z.of_nat (length x)) (Z.of_nat (length x + k))
    (λ i arr, set arr i v) (x ++ replicate k w)
  = x ++ replicate k (u8 v).
Proof.
  unfold forLoop. revert x. induction k as [|k IH]; intros x.
  - replace (Z.of_nat (length x + 0) - Z.of_nat (length x)) with 0 by lia. done.
  - replace (Z.of_nat (length x + S k) - Z.of_nat (length x)) with (Z.of_nat (S k)) by lia.
    rewrite seqZ_cons by lia. simpl.
    replace (Z.pred (Z.of_nat (S k))) with (Z.of_nat k) by lia.
    assert (Hset : set (x ++ w :: replicate k w) (Z.of_nat (length x)) v
                   = (x ++ [u8 v]) ++ replicate k w).
    { unfold set. assert ((Z.of_nat (length x) <? 0) = false) as -> by (apply Z.ltb_ge; lia).
      rewrite Nat2Z.id.
      replace (<[length x:=v `mod` 256]> (x ++ w :: replicate k w))
        with (<[(length x + 0)%nat:=v `mod` 256]> (x ++ w :: replicate k w))
        by (by rewrite Nat.add_0_r).
      rewrite insert_app_r. simpl. by rewrite <- app_assoc. }
    rewrite Hset. specialize (IH (x ++ [u8 v])).
    rewrite length_app in IH. simpl in IH.
    replace (Z.of_nat (length x + 1 + k) - Z.of_nat (length x + 1)) with (Z.of_nat k) in IH by lia.
    replace (Z.succ (Z.of_nat (length x))) with (Z.of_nat (length x + 1)) by lia.
    rewrite IH. by rewrite <- app_assoc.
Qed.

Lemma padPKCS7_eq data :
  padPKCS7 data
  = data ++ replicate (padLength (length data)) (Z.of_nat (padLength (length data))).
Proof.
  unfold padPKCS7. cbv zeta. rewrite padLength_Z.
  set (p := padLength (length data)).
  assert (Hp : (1 ≤ p ≤ 16)%nat) by apply padLength_range.
  assert (Hzero : setArray (newUint8Array (Z.of_nat (length data) + Z.of_nat p)) data 0
                  = data ++ replicate p 0).
  { unfold setArray, newUint8Array. simpl. f_equal.
    rewrite drop_replicate. f_equal. lia. }
  rewrite Hzero, length_app, length_replicate.
  rewrite fill_after. f_equal. f_equal. apply u8_byte. unfold isByte. lia.
Qed.

Lemma padPKCS7_bytes data : Forall isByte data → Forall isByte (padPKCS7 data).
Proof.
  intros H. rewrite padPKCS7_eq. apply Forall_app. split; [done |].
  apply Forall_replicate. pose proof (padLength_range (length data)).
  unfold isByte. lia.
Qed.

Lemma get_app_r (x y : list Z) (i : nat) :
  get (x ++ y) (Z.of_nat (length x + i)) = default 0 (y !! i).
Proof.
  unfold get. assert ((Z.of_nat (length x + i) <? 0) = false) as -> by (apply Z.ltb_ge; lia).
  rewrite Nat2Z.id. by rewrite lookup_app_r, Nat.add_comm, Nat.add_sub by lia.
Qed.

Lemma unpadPKCS7_padPKCS7 data : unpadPKCS7 (padPKCS7 data) = Return data.
Proof.
  rewrite padPKCS7_eq. set (p := padLength (length data)).
  assert (Hp : (1 ≤ p ≤ 16)%nat) by apply padLength_range.
  destruct (padded_length (length data)) as (m & Hm & Hm1). fold p in Hm.
  unfold unpadPKCS7. cbv zeta. rewrite length_app, length_replicate, Hm.
  assert ((Z.of_nat (16 * m) =? 0) = false) as -> by (apply Z.eqb_neq; lia).
  assert ((Z.of_nat (16 * m) `rem` 16 =? 0) = true) as ->
    by (apply Z.eqb_eq; rem_lia).
  cbn [orb negb].
  assert (Hlast : get (data ++ replicate p (Z.of_nat p)) (Z.of_nat (16 * m) - 1)
                  = Z.of_nat p).
  { replace (Z.of_nat (16 * m) - 1) with (Z.of_nat (length data + (p - 1))) by lia.
    rewrite get_app_r, lookup_replicate_2 by lia. done. }
  rewrite Hlast.
  assert ((16 <? Z.of_nat p) = false) as -> by (apply Z.ltb_ge; lia).
  assert (paddingMatches (data ++ replicate p (Z.of_nat p)) (Z.of_nat p) = true) as ->.
  { unfold paddingMatches. rewrite length_app, length_replicate.
    apply forallb_forall. intros i Hi.
    apply list_elem_of_In, elem_of_seqZ in Hi. apply Z.eqb_eq.
    replace i with (Z.of_nat (length data + Z.to_nat (i - Z.of_nat (length data)))) by lia.
    rewrite get_app_r, lookup_replicate_2 by lia. done. }
  cbn [negb]. f_equal. unfold subarray.
  replace (Z.to_nat (Z.of_nat (16 * m) - Z.of_nat p - 0)) with (length data) by lia.
  change (Z.to_nat 0) with 0%nat. rewrite drop_0. apply take_app_length.
Qed.

(** *** A message *)

Lemma aes_round_trip plaintext key :
  Forall isByte plaintext → validKeyLength key →
  (ciphertext ← aesEncrypt plaintext key; aesDecrypt ciphertext key) = Return plaintext.
Proof.
  intros Hbytes Hkey.
  pose proof (padPKCS7_bytes plaintext Hbytes) as Hpadded.
  destruct (padded_length (length plaintext)) as (n & Hn & Hn1).
  assert (Hlen : length (padPKCS7 plaintext) = (16 * n)%nat).
  { by rewrite padPKCS7_eq, length_app, length_replicate. }
  destruct (encrypt_blocks key Hkey (padPKCS7 plaintext) n Hpadded Hlen)
    as (ciphertext & Hrun & Hclen & Hblocks).
  pose proof (decrypt_blocks key (padPKCS7 plaintext) ciphertext n Hlen Hclen Hblocks)
    as Hback.
  cbv zeta in Hrun, Hback.
  unfold aesEncrypt. cbv zeta.
  assert (Hquot : Z.of_nat (length (padPKCS7 plaintext)) `quot` 16 = Z.of_nat n)
    by (rewrite Hlen; rem_lia).
  rewrite Hquot, Hrun. cbn [mbind outcome_bind].
  unfold aesDecrypt. cbv zeta.
  assert ((Z.of_nat (length ciphertext) `rem` 16 =? 0) = true) as ->
    by (apply Z.eqb_eq; rewrite Hclen, Hlen; rem_lia).
  cbn [negb].
  assert (Hquot' : Z.of_nat (length ciphertext) `quot` 16 = Z.of_nat n)
    by (by rewrite Hclen).
  rewrite Hquot', Hback.
  cbn [mbind outcome_bind]. apply unpadPKCS7_padPKCS7.
Qed.

(** With a key of another length the first block already fails. *)
Lemma aesEncrypt_invalid_key plaintext key :
  ¬ validKeyLength key → ∃ message, aesEncrypt plaintext key = Throw message.
Proof.
  intros Hkey. unfold aesEncrypt. cbv zeta.
  destruct (padded_length (length plaintext)) as (n & Hn & Hn1).
  assert (Hlen : length (padPKCS7 plaintext) = (16 * n)%nat).
  { by rewrite padPKCS7_eq, length_app, length_replicate. }
  assert (Hquot : Z.of_nat (length (padPKCS7 plaintext)) `quot` 16 = Z.of_nat n)
    by (rewrite Hlen; rem_lia).
  assert (Hblock : ∀ block, ∃ message, aesEncryptBlock block key = Throw message).
  { intros block0. unfold aesEncryptBlock.
    destruct (negb _); [by eexists |].
    destruct (getKeyParams_invalid (Z.of_nat (length key))) as [message ->];
      [unfold validKeyLength in Hkey; lia .. |].
    by eexists. }
  rewrite Hquot. unfold forLoopM.
  rewrite seqZ_cons by lia. cbn [foldl mbind outcome_bind].
  destruct (Hblock (subarray (padPKCS7 plaintext) (0 * 16) ((0 + 1) * 16)))
    as [message ->].
  exists message. cbn [mbind outcome_bind].
  generalize (seqZ (Z.succ 0) (Z.pred (Z.of_nat n - 0))). intros l.
  induction l as [|i l IH]; [done | apply IH].
Qed.



(** ** Failures and their channel *)

Lemma affineDecrypt_not_coprime text key :
  gcd (a key) 26 ≠ 1 →
  affineDecrypt text key
  = Return (str "Error: " ++ numberToString (a key) ++ str " and 26 are not coprime").
Proof.
  intros Hgcd. destruct key as [a b]. simpl in Hgcd.
  unfold affineDecrypt, modInverse.
  apply Z.eqb_neq in Hgcd as ->. reflexivity.
Qed.

Lemma affineEncrypt_not_coprime text key :
  gcd (a key) 26 ≠ 1 → affineEncrypt text key = Throw notCoprimeMessage.
Proof.
  intros Hgcd. destruct key as [a b]. simpl in Hgcd.
  unfold affineEncrypt. by apply Z.eqb_neq in Hgcd as ->.
Qed.

Lemma aesEncryptText_invalid_key text key :
  validateAesKey key = false → ∃ message, aesEncryptText text key false = Throw message.
Proof.
  intros Hkey. unfold aesEncryptText, keyBytesOf. cbn [mbind outcome_bind].
  destruct (aesEncrypt_invalid_key (stringToUint8Array text) (stringToUint8Array key))
    as [message ->]; [| by exists message].
  unfold validateAesKey in Hkey. unfold validKeyLength.
  rewrite !orb_false_iff, !Z.eqb_neq in Hkey. lia.
Qed.




(** * Further properties of the code *)

(** ** Caesar: every shift *)

(** Two Caesar letter transforms, one after the other. *)
Lemma caesarChar_compose n m char :
  0 ≤ n ≤ 25 → 0 ≤ m ≤ 25 →
  caesarChar m (caesarChar n char) = caesarChar ((n + m) `rem` 26) char.
Proof.
  intros Hn Hm. unfold caesarChar at 2 3. unfold fromCharCode.
  char_cases char.
  - set (e := ((char - 65 + _) `rem` 26 + 65) `mod` 65536).
    assert (He : 65 ≤ e ≤ 90) by (subst e; rem_lia).
    unfold caesarChar, fromCharCode.
    apply matchUpper_spec in He as ->. subst e. rem_lia.
  - set (e := ((char - 97 + _) `rem` 26 + 97) `mod` 65536).
    assert (He : 97 ≤ e ≤ 122) by (subst e; rem_lia).
    unfold caesarChar, fromCharCode.
    assert (matchUpper e = false) as -> by (apply matchUpper_false; lia).
    apply matchLower_spec in He as ->. subst e. rem_lia.
  - unfold caesarChar.
    apply matchUpper_false in Hupper as ->.
    apply matchLower_false in Hlower as ->. done.
Qed.

Lemma caesarEncrypt_compose x s t :
  caesarEncrypt (caesarEncrypt x s) t = caesarEncrypt x (s + t).
Proof.
  rewrite !caesarEncrypt_map, <- list_fmap_compose.
  apply list_fmap_ext. intros i char _. simpl.
  rewrite caesarChar_compose by rem_lia. f_equal. rem_lia.
Qed.

Lemma caesarEncrypt_multiple x s : s `rem` 26 = 0 → caesarEncrypt x s = x.
Proof.
  intros Hs. rewrite caesarEncrypt_map. rewrite Hs.
  change ((0 + 26) `rem` 26) with 0.
  rewrite <- (list_fmap_id x) at 2. apply list_fmap_ext.
  intros i char _. apply caesarChar_zero.
Qed.

(** X1.  [caesarDecrypt] undoes [caesarEncrypt], and [caesarEncrypt] undoes
    [caesarDecrypt], for every integer shift: also a negative one and one
    above 25, which [validateCaesarKey] rejects. *)
Theorem caesar_round_trip_every_shift (x : jsstring) (s : Z) :
  caesarDecrypt (caesarEncrypt x s) s = x
  ∧ caesarEncrypt (caesarDecrypt x s) s = x.
Proof.
  unfold caesarDecrypt. rewrite !caesarEncrypt_compose.
  split; apply caesarEncrypt_multiple; rem_lia.
Qed.


(** ** Affine: the inverse of [a] and the accepted keys *)

(** *** The greatest common divisor and the modular inverse *)

Lemma gcd_abs_rec n x y :
  (Z.abs_nat y < n)%nat → Z.abs (gcd_rec n x y) = Z.gcd x y.
Proof.
  revert x y. induction n as [|n IH]; intros x y Hn; [lia |].
  simpl. destruct (y =? 0) eqn:Hy.
  - apply Z.eqb_eq in Hy as ->. by rewrite Z.gcd_0_r.
  - apply Z.eqb_neq in Hy.
    rewrite IH by rem_lia.
    by rewrite Z.gcd_comm, Z.gcd_rem, Z.gcd_comm.
Qed.

(** The recursive [gcd] of affineCipher.ts agrees with the greatest common
    divisor up to its sign, which is that of its last dividend. *)
Lemma gcd_abs x y : Z.abs (gcd x y) = Z.gcd x y.
Proof. apply gcd_abs_rec. lia. Qed.

Lemma inverse_exists a m :
  1 ≤ a → 2 ≤ m → Z.gcd a m = 1 → ∃ i, 1 ≤ i < m ∧ (a * i) `rem` m = 1.
Proof.
  intros Ha Hm Hgcd.
  destruct (Z.gcd_bezout a m 1 Hgcd) as (u & v & Huv).
  exists (u `mod` m).
  assert (Hmod : (a * (u `mod` m)) `mod` m = 1).
  { rewrite Z.mul_mod_idemp_r by lia.
    replace (a * u) with (1 + (- v) * m) by lia.
    rewrite Z.mod_add by lia. apply Z.mod_small. lia. }
  assert (Hrange : 0 ≤ u `mod` m < m) by (apply Z.mod_pos_bound; lia).
  assert (u `mod` m ≠ 0).
  { intros H0. rewrite H0, Z.mul_0_r, Z.mod_0_l in Hmod by lia. lia. }
  split; [lia |]. rewrite Z.rem_mod_nonneg by nia. done.
Qed.

Lemma inverseSearch_first a m i :
  1 ≤ i < m → (a * i) `rem` m = 1 →
  1 ≤ inverseSearch a m ≤ i
  ∧ (a * inverseSearch a m) `rem` m = 1
  ∧ ∀ j, 1 ≤ j < inverseSearch a m → (a * j) `rem` m ≠ 1.
Proof.
  intros Hi Hinv. unfold inverseSearch.
  assert (Hsplit : seqZ 1 (m - 1) = seqZ 1 (m - 1)) by done.
  revert Hsplit. generalize (seqZ 1 (m - 1)) at 1 3 4 5. intros l.
  assert (Hgen : ∀ lo n, 1 ≤ lo → 0 ≤ n → lo ≤ i < lo + n →
            (∀ j, 1 ≤ j < lo → (a * j) `rem` m ≠ 1) →
            let r := default 1 (head (filter (λ i, (a * i) `rem` m = 1) (seqZ lo n))) in
            1 ≤ r ≤ i ∧ (a * r) `rem` m = 1 ∧ ∀ j, 1 ≤ j < r → (a * j) `rem` m ≠ 1).
  { intros lo n Hlo Hn. remember (Z.to_nat n) as k eqn:Hk.
    revert lo n Hlo Hn Hk. induction k as [|k IH]; intros lo n Hlo Hn Hk Hrange Hbelow;
      [lia |].
    rewrite seqZ_cons by lia.
    destruct (decide ((a * lo) `rem` m = 1)) as [Hhit | Hmiss].
    - rewrite filter_cons_True by done. simpl. split; [lia |]. split; [done | done].
    - rewrite filter_cons_False by done.
      apply (IH (Z.succ lo) (Z.pred n)); [lia | lia | lia | |].
      + destruct (decide (i = lo)) as [-> |]; [done | lia].
      + intros j Hj. destruct (decide (j = lo)) as [-> |]; [done | apply Hbelow; lia]. }
  intros ->. apply (Hgen 1 (m - 1)); [lia | lia | lia | intros; lia].
Qed.

Lemma modInverse_spec a m :
  0 ≤ a → 2 ≤ m → gcd a m = 1 →
  ∃ i, modInverse a m = Return i
       ∧ 1 ≤ i < m ∧ (a * i) `rem` m = 1
       ∧ ∀ j, 1 ≤ j < i → (a * j) `rem` m ≠ 1.
Proof.
  intros Ha Hm Hgcd.
  assert (Hz : Z.gcd a m = 1) by (by rewrite <- gcd_abs, Hgcd).
  assert (Ha1 : 1 ≤ a).
  { destruct (decide (a = 0)) as [-> |]; [| lia].
    rewrite Z.gcd_0_l in Hz. lia. }
  destruct (inverse_exists a m Ha1 Hm Hz) as (i & Hi & Hinv).
  destruct (inverseSearch_first a m i Hi Hinv) as (Hrange & Hfound & Hfirst).
  exists (inverseSearch a m). unfold modInverse. rewrite Hgcd.
  split; [done |]. split; [lia |]. done.
Qed.

Lemma modInverse_not_coprime a m :
  gcd a m ≠ 1 →
  modInverse a m
  = Throw (numberToString a ++ str " and " ++ numberToString m ++ str " are not coprime").
Proof. intros Hgcd. unfold modInverse. by apply Z.eqb_neq in Hgcd as ->. Qed.

(** *** The keys of the Affine cipher *)

Lemma validateAffineKey_iff key :
  validateAffineKey key = true
  ↔ a key ∈ [1; 3; 5; 7; 9; 11; 15; 17; 19; 21; 23; 25] ∧ 0 ≤ b key ≤ 25.
Proof.
  split.
  - intros H. apply validateAffineKey_spec in H as (Ha & Hb & Hgcd).
    split; [| done].
    assert (Hcases : a key ∈ seqZ 1 25) by (apply elem_of_seqZ; lia).
    vm_compute seqZ in Hcases.
    repeat (apply elem_of_cons in Hcases as [Heq | Hcases];
            [ rewrite Heq in Hgcd |- *;
              first [ by vm_compute in Hgcd
                    | rewrite !elem_of_cons; repeat first [left; reflexivity | right] ] |]).
    by apply elem_of_nil in Hcases.
  - intros [Ha Hb]. destruct key as [a b]. simpl in *.
    assert ((b <? 0) = false) as Hb0 by (apply Z.ltb_ge; lia).
    assert ((25 <? b) = false) as Hb25 by (apply Z.ltb_ge; lia).
    repeat (apply elem_of_cons in Ha as [-> | Ha];
            [ by rewrite Hb0, Hb25 |]).
    by apply elem_of_nil in Ha.
Qed.



(** X4.  [validateAffineKey] accepts the 312 keys whose [a] is one of
    1, 3, 5, 7, 9, 11, 15, 17, 19, 21, 23, 25 and whose [b] lies between 0
    and 25, and no other; the values of [a] are those of the list [validA]
    of the key input. *)
Theorem affine_keys_accepted (key : AffineKey) :
  validateAffineKey key = true ↔ a key ∈ validA ∧ 0 ≤ b key ≤ 25.
Proof. apply validateAffineKey_iff. Qed.

Lemma affine_keys_accepted_witness :
  validateAffineKey {| a := 5; b := 8 |} = true
  ∧ ¬ (a {| a := 13; b := 8 |} ∈ validA ∧ 0 ≤ b {| a := 13; b := 8 |} ≤ 25).
Proof.
  split.
  - apply (proj2 (affine_keys_accepted {| a := 5; b := 8 |})).
    split; [| simpl; lia]. unfold validA. simpl.
    rewrite !elem_of_cons. repeat first [left; reflexivity | right].
  - intros H. apply (proj2 (affine_keys_accepted {| a := 13; b := 8 |})) in H.
    vm_compute in H. discriminate H.
Defined.

(** ** Substitution: keys, the shuffle, and decrypting first *)

Lemma affineChar_of_inverse a b char :
  1 ≤ a ≤ 25 → 0 ≤ b ≤ 25 → gcd a 26 = 1 →
  affineChar a b (affineCharInverse (inverseSearch a 26) b char) = char.
Proof.
  intros Ha Hb Hgcd.
  assert (Hcases : a ∈ seqZ 1 25) by (apply elem_of_seqZ; lia).
  vm_compute seqZ in Hcases.
  repeat (apply elem_of_cons in Hcases as [-> | Hcases];
    [ first [ by vm_compute in Hgcd
            | clear Hgcd Ha;
              match goal with
              | |- context [inverseSearch ?k 26] =>
                  let v := eval vm_compute in (inverseSearch k 26) in
                  change (inverseSearch k 26) with v
              end;
              unfold affineCharInverse at 1; unfold fromCharCode; cbv zeta;
              char_cases char;
              [ set (e := (_ + 65) `mod` 65536);
                assert (He : 65 ≤ e ≤ 90) by (subst e; rem_lia);
                unfold affineChar, fromCharCode;
                apply matchUpper_spec in He as ->; subst e; cbv zeta; rem_lia
              | set (e := (_ + 97) `mod` 65536);
                assert (He : 97 ≤ e ≤ 122) by (subst e; rem_lia);
                unfold affineChar, fromCharCode;
                assert (matchUpper e = false) as -> by (apply matchUpper_false; lia);
                apply matchLower_spec in He as ->; subst e; cbv zeta; rem_lia
              | unfold affineChar;
                apply matchUpper_false in Hupper as ->;
                by apply matchLower_false in Hlower as -> ] ]
    | ]).
  by apply elem_of_nil in Hcases.
Qed.

Lemma affineEncrypt_map x key :
  gcd (a key) 26 = 1 → affineEncrypt x key = Return (affineChar (a key) (b key) <$> x).
Proof. intros Hgcd. destruct key as [a b]. simpl in *. unfold affineEncrypt. by rewrite Hgcd. Qed.

Lemma affineDecrypt_map x key :
  gcd (a key) 26 = 1 →
  affineDecrypt x key
  = Return (affineCharInverse (inverseSearch (a key) 26) (b key) <$> x).
Proof.
  intros Hgcd. destruct key as [a b]. simpl in *.
  unfold affineDecrypt, modInverse. by rewrite Hgcd.
Qed.

Lemma affine_reverse_round_trip x key :
  validateAffineKey key = true →
  (c ← affineDecrypt x key; affineEncrypt c key) = Return x.
Proof.
  intros Hkey. apply validateAffineKey_spec in Hkey as (Ha & Hb & Hgcd).
  rewrite affineDecrypt_map by done. cbn [mbind outcome_bind].
  rewrite affineEncrypt_map by done. f_equal.
  rewrite <- list_fmap_compose. rewrite <- (list_fmap_id x) at 2.
  apply list_fmap_ext. intros i char _.
  by apply (affineChar_of_inverse (a key) (b key) char).
Qed.

(** *** The keys of the substitution *)

Lemma countLetters_complete chars letterCount :
  Forall (λ c, matchUpper c = true) chars → NoDup chars →
  (∀ c, c ∈ chars → letterCount !! c = None) →
  ∃ result, countLetters chars letterCount = Some result
            ∧ size result = (size letterCount + length chars)%nat.
Proof.
  intros Hupper. revert letterCount.
  induction Hupper as [|char rest Hchar _ IH]; intros letterCount Hnodup Hfresh.
  - exists letterCount. split; [done | simpl; lia].
  - apply NoDup_cons in Hnodup as [Hnotin Hnodup].
    cbn [countLetters]. rewrite Hchar. cbn [negb].
    rewrite (Hfresh char) by left. cbn [truthy].
    destruct (IH (<[char := 1]> letterCount)) as (result & -> & Hsize); [done | |].
    + intros c Hc. rewrite lookup_insert_ne by (intros ->; done).
      apply Hfresh. by right.
    + exists result. split; [done |].
      rewrite Hsize, map_size_insert_None by (apply Hfresh; left). simpl. lia.
Qed.

Lemma upper_elem_of_ALPHABET c : matchUpper c = true ↔ c ∈ ALPHABET.
Proof. rewrite matchUpper_spec, ALPHABET_seqZ, elem_of_seqZ. lia. Qed.

(** The validator accepts the keys that, put in upper case, are the
    alphabet in some order. *)
Lemma validateMonoalphabeticKey_iff key :
  validateMonoalphabeticKey key = true ↔ toUpperCase key ≡ₚ ALPHABET.
Proof.
  split.
  - intros H. apply validateMonoalphabeticKey_spec in H as (Hlen & Hupper & Hnodup).
    apply submseteq_length_Permutation; [| by rewrite Hlen].
    apply NoDup_submseteq; [done |].
    intros c Hc. apply upper_elem_of_ALPHABET.
    by apply (proj1 (Forall_forall _ _) Hupper).
  - intros Hperm. unfold validateMonoalphabeticKey. cbv zeta.
    assert (Hlen : length (toUpperCase key) = 26%nat) by (by rewrite Hperm).
    rewrite Hlen. cbn [Nat.eqb negb].
    destruct (countLetters_complete (toUpperCase key) ∅) as (result & -> & Hsize).
    + apply Forall_forall. intros c Hc. apply upper_elem_of_ALPHABET.
      by rewrite <- Hperm.
    + rewrite Hperm. apply ALPHABET_NoDup.
    + intros c _. apply lookup_empty.
    + rewrite Hsize, map_size_empty, Hlen. done.
Qed.

Lemma toUpperCase_upper s :
  Forall (λ c, matchUpper c = true) s → toUpperCase s = s.
Proof.
  intros H. unfold toUpperCase. rewrite <- (list_fmap_id s) at 2.
  apply Forall_fmap_ext_1. eapply Forall_impl; [exact H |].
  intros c Hc. unfold upperChar. apply matchUpper_spec in Hc.
  by assert (matchLower c = false) as -> by (apply matchLower_false; lia).
Qed.

(** *** The shuffle *)

Lemma get_lookup (arr : list Z) (i : Z) x :
  0 ≤ i → arr !! Z.to_nat i = Some x → get arr i = x.
Proof.
  intros Hi Hx. unfold get.
  assert ((i <? 0) = false) as -> by (apply Z.ltb_ge; lia). by rewrite Hx.
Qed.

Lemma forLoopDown_invariant {T : Type} (P : T → Prop) hi lo body (s : T) :
  P s → (∀ i s, lo < i ≤ hi → P s → P (body i s)) → P (forLoopDown hi lo body s).
Proof.
  intros Hs Hbody. unfold forLoopDown.
  assert (Hin : ∀ i, i ∈ reverse (seqZ (lo + 1) (hi - lo)) → lo < i ≤ hi).
  { intros i Hi. apply elem_of_reverse, elem_of_seqZ in Hi. lia. }
  revert s Hs Hin. induction (reverse (seqZ (lo + 1) (hi - lo))) as [|i l IH];
    intros s Hs Hin; [done |].
  simpl. apply IH; [apply Hbody; [apply Hin; left | done] |].
  intros j Hj. apply Hin. by right.
Qed.

Lemma generateRandomKey_Permutation (roll : Z → Z) :
  (∀ i, 1 ≤ i ≤ 25 → 0 ≤ roll i ≤ i) → generateRandomKey roll ≡ₚ ALPHABET.
Proof.
  intros Hroll. unfold generateRandomKey.
  apply (forLoopDown_invariant (λ alphabet, alphabet ≡ₚ ALPHABET)); [done |].
  intros i alphabet Hi Hperm. cbv zeta.
  assert (Hlen : length alphabet = 26%nat) by (by rewrite Hperm).
  specialize (Hroll i ltac:(lia)).
  destruct (lookup_lt_is_Some_2 alphabet (Z.to_nat i)) as [ai Hai]; [lia |].
  destruct (lookup_lt_is_Some_2 alphabet (Z.to_nat (roll i))) as [aj Haj]; [lia |].
  rewrite (get_lookup alphabet i ai), (get_lookup alphabet (roll i) aj) by (lia || done).
  by rewrite Permutation_insert_swap.
Qed.

Lemma generateRandomKey_valid (roll : Z → Z) :
  (∀ i, 1 ≤ i ≤ 25 → 0 ≤ roll i ≤ i) →
  validateMonoalphabeticKey (generateRandomKey roll) = true.
Proof.
  intros Hroll. pose proof (generateRandomKey_Permutation roll Hroll) as Hperm.
  apply validateMonoalphabeticKey_iff.
  rewrite toUpperCase_upper; [done |].
  apply Forall_forall. intros c Hc. apply upper_elem_of_ALPHABET. by rewrite <- Hperm.
Qed.

(** *** Decrypting, then encrypting *)

Lemma indexOf_elem_of (s : jsstring) (c : Z) :
  NoDup s → c ∈ s →
  0 ≤ indexOf s c < Z.of_nat (length s) ∧ s !! Z.to_nat (indexOf s c) = Some c.
Proof.
  intros Hnodup Hc. apply list_elem_of_lookup in Hc as [i Hi].
  rewrite (indexOf_NoDup s c i Hnodup Hi), Nat2Z.id.
  split; [| done]. apply lookup_lt_Some in Hi. lia.
Qed.

Section Unsubstitution.

Variable K : jsstring.
Hypothesis K_alphabet : K ≡ₚ ALPHABET.

Lemma K_length' : length K = 26%nat.
Proof. by rewrite K_alphabet. Qed.

Lemma K_upper' : Forall (λ c, matchUpper c = true) K.
Proof.
  apply Forall_forall. intros c Hc. apply upper_elem_of_ALPHABET.
  by rewrite <- K_alphabet.
Qed.

Lemma K_NoDup' : NoDup K.
Proof. rewrite K_alphabet. apply ALPHABET_NoDup. Qed.

Lemma K_index c :
  65 ≤ c ≤ 90 → 0 ≤ indexOf K c < 26 ∧ K !! Z.to_nat (indexOf K c) = Some c.
Proof.
  intros Hc. destruct (indexOf_elem_of K c) as [Hrange Hlookup].
  - apply K_NoDup'.
  - rewrite K_alphabet. apply upper_elem_of_ALPHABET. by apply matchUpper_spec.
  - rewrite K_length' in Hrange. split; [lia | done].
Qed.

Lemma decrypt_any_char char :
  (if matchUpper char then
     let index := indexOf K char in Return (charAt ALPHABET index)
   else if matchLower char then
     let index := indexOf K (upperChar char) in lowerOf (charAt ALPHABET index)
   else Return (Some char))
  = Return (Some (unsubstitute K char)).
Proof.
  unfold unsubstitute. char_cases char; [| | done].
  - destruct (K_index char Hupper) as [Hrange _]. cbv zeta. unfold charAt.
    assert ((indexOf K char <? 0) = false) as -> by (apply Z.ltb_ge; lia).
    rewrite ALPHABET_seqZ, lookup_seqZ_lt by lia. do 2 f_equal. lia.
  - assert (Hu : upperChar char = char - 32).
    { unfold upperChar. by apply matchLower_spec in Hlower as ->. }
    rewrite Hu. destruct (K_index (char - 32)) as [Hrange _]; [lia |].
    cbv zeta. unfold charAt.
    assert ((indexOf K (char - 32) <? 0) = false) as -> by (apply Z.ltb_ge; lia).
    rewrite ALPHABET_seqZ, lookup_seqZ_lt by lia. cbn [lowerOf].
    unfold lowerChar.
    assert (matchUpper (65 + Z.of_nat (Z.to_nat (indexOf K (char - 32)))) = true) as ->
      by (apply matchUpper_spec; lia).
    do 2 f_equal. lia.
Qed.

Lemma substitute_unsubstitute char : substitute K (unsubstitute K char) = char.
Proof.
  unfold unsubstitute. char_cases char.
  - destruct (K_index char Hupper) as [Hrange Hlookup]. unfold substitute.
    assert (matchUpper (65 + indexOf K char) = true) as ->
      by (apply matchUpper_spec; lia).
    replace (65 + indexOf K char - 65) with (indexOf K char) by lia.
    by rewrite Hlookup.
  - destruct (K_index (char - 32)) as [Hrange Hlookup]; [lia |]. unfold substitute.
    assert (matchUpper (97 + indexOf K (char - 32)) = false) as ->
      by (apply matchUpper_false; lia).
    assert (matchLower (97 + indexOf K (char - 32)) = true) as ->
      by (apply matchLower_spec; lia).
    replace (97 + indexOf K (char - 32) - 97) with (indexOf K (char - 32)) by lia.
    rewrite Hlookup. simpl. unfold lowerChar.
    assert (matchUpper (char - 32) = true) as -> by (apply matchUpper_spec; lia).
    lia.
  - unfold substitute.
    apply matchUpper_false in Hupper as ->. by apply matchLower_false in Hlower as ->.
Qed.

End Unsubstitution.

Lemma monoalphabeticEncrypt_map x key :
  validateMonoalphabeticKey key = true →
  monoalphabeticEncrypt x key = Return (substitute (toUpperCase key) <$> x).
Proof.
  intros Hkey.
  destruct (validateMonoalphabeticKey_spec key Hkey) as (Hlen & Hupper & Hnodup).
  rewrite <- validate_toUpperCase in Hkey.
  set (K := toUpperCase key) in *.
  unfold monoalphabeticEncrypt. fold K. rewrite Hkey. cbn [negb].
  rewrite <- (list_fmap_id x) at 1.
  rewrite (mapM_Return _ id (Some ∘ substitute K))
    by (intros char; by apply encrypt_char).
  cbn [mbind outcome_bind]. by rewrite list_fmap_compose, joinChars_Some.
Qed.

Lemma monoalphabeticDecrypt_map x key :
  validateMonoalphabeticKey key = true →
  monoalphabeticDecrypt x key = Return (unsubstitute (toUpperCase key) <$> x).
Proof.
  intros Hkey. pose proof (proj1 (validateMonoalphabeticKey_iff key) Hkey) as Hperm.
  rewrite <- validate_toUpperCase in Hkey.
  set (K := toUpperCase key) in *.
  unfold monoalphabeticDecrypt. fold K. rewrite Hkey. cbn [negb].
  rewrite <- (list_fmap_id x) at 1.
  rewrite (mapM_Return _ id (Some ∘ unsubstitute K))
    by (intros char; by apply decrypt_any_char).
  cbn [mbind outcome_bind]. by rewrite list_fmap_compose, joinChars_Some.
Qed.

Lemma monoalphabetic_reverse_round_trip x key :
  validateMonoalphabeticKey key = true →
  (c ← monoalphabeticDecrypt x key; monoalphabeticEncrypt c key) = Return x.
Proof.
  intros Hkey. pose proof (proj1 (validateMonoalphabeticKey_iff key) Hkey) as Hperm.
  rewrite monoalphabeticDecrypt_map by done. cbn [mbind outcome_bind].
  rewrite monoalphabeticEncrypt_map by done. f_equal.
  rewrite <- list_fmap_compose. rewrite <- (list_fmap_id x) at 2.
  apply list_fmap_ext. intros i char _. by apply substitute_unsubstitute.
Qed.



(** X6.  Whatever [Math.random] returns, the key [generateRandomKey]
    builds is a rearrangement of the alphabet, and
    [validateMonoalphabeticKey] accepts it.  [roll i] is the index drawn for
    the position [i], between 0 and [i]. *)
Theorem generated_substitution_key_is_valid (roll : Z → Z) :
  (∀ i, 1 ≤ i ≤ 25 → 0 ≤ roll i ≤ i) →
  generateRandomKey roll ≡ₚ ALPHABET
  ∧ validateMonoalphabeticKey (generateRandomKey roll) = true.
Proof.
  intros Hroll.
  split; [by apply generateRandomKey_Permutation | by apply generateRandomKey_valid].
Qed.

Lemma generated_substitution_key_is_valid_witness :
  generateRandomKey (λ i, i `quot` 2) ≡ₚ ALPHABET
  ∧ validateMonoalphabeticKey (generateRandomKey (λ i, i `quot` 2)) = true.
Proof.
  apply (generated_substitution_key_is_valid (λ i, i `quot` 2)).
  intros i Hi. rem_lia.
Defined.



(** ** The codecs of aesCipher.ts *)

(** *** Bit operations as arithmetic *)

Lemma land_disjoint h x k :
  0 ≤ k → 0 ≤ x < 2 ^ k → h `mod` 2 ^ k = 0 → Z.land h x = 0.
Proof.
  intros Hk Hx Hh. apply Z.bits_inj'. intros n Hn.
  rewrite Z.land_spec, Z.bits_0.
  destruct (decide (n < k)) as [Hlt | Hge].
  - rewrite <- (Z.mod_pow2_bits_low h k n) by lia. by rewrite Hh, Z.bits_0.
  - rewrite <- (Z.mod_small x (2 ^ k)) by lia.
    rewrite Z.mod_pow2_bits_high by lia. apply andb_false_r.
Qed.

Lemma lor_add h x k :
  0 ≤ k → 0 ≤ x < 2 ^ k → h `mod` 2 ^ k = 0 → Z.lor h x = h + x.
Proof.
  intros Hk Hx Hh. pose proof (land_disjoint h x k Hk Hx Hh) as Hland.
  rewrite <- Z.lxor_lor by done. symmetry. by apply Z.add_nocarry_lxor.
Qed.

Lemma land_low h x k :
  0 ≤ k → 0 ≤ x < 2 ^ k → h `mod` 2 ^ k = 0 → Z.land (h + x) (Z.ones k) = x.
Proof.
  intros Hk Hx Hh. rewrite Z.land_ones by done.
  rewrite <- Z.add_mod_idemp_l, Hh by lia. apply Z.mod_small. lia.
Qed.

(** The bit operations of the two codecs, on a number split into its
    digits. *)
Ltac digits :=
  repeat first
    [ rewrite Z.shiftr_div_pow2 by lia
    | rewrite Z.shiftl_mul_pow2 by lia
    | match goal with
      | |- context [Z.land (?h + ?x) 63] =>
          change (Z.land (h + x) 63) with (Z.land (h + x) (Z.ones 6));
          rewrite (land_low h x 6) by (simpl; rem_lia)
      | |- context [Z.land (?h + ?x) 31] =>
          change (Z.land (h + x) 31) with (Z.land (h + x) (Z.ones 5));
          rewrite (land_low h x 5) by (simpl; rem_lia)
      | |- context [Z.land (?h + ?x) 15] =>
          change (Z.land (h + x) 15) with (Z.land (h + x) (Z.ones 4));
          rewrite (land_low h x 4) by (simpl; rem_lia)
      | |- context [Z.land (?h + ?x) 7] =>
          change (Z.land (h + x) 7) with (Z.land (h + x) (Z.ones 3));
          rewrite (land_low h x 3) by (simpl; rem_lia)
      | |- context [Z.lor ?h ?x] =>
          first [ rewrite (lor_add h x 6) by (simpl; rem_lia)
                | rewrite (lor_add h x 5) by (simpl; rem_lia)
                | rewrite (lor_add h x 4) by (simpl; rem_lia) ]
      | |- context [Z.land (?h + ?x) 1023] =>
          change (Z.land (h + x) 1023) with (Z.land (h + x) (Z.ones 10));
          rewrite (land_low h x 10) by (simpl; rem_lia)
      end ].

(** Comparisons whose outcome [lia] can tell. *)
Ltac compare_step solver :=
  match goal with
  | |- context [?x <=? ?y] =>
      first [ rewrite (proj2 (Z.leb_le x y)) by solver
            | rewrite (proj2 (Z.leb_gt x y)) by solver ]
  | |- context [?x <? ?y] =>
      first [ rewrite (proj2 (Z.ltb_lt x y)) by solver
            | rewrite (proj2 (Z.ltb_ge x y)) by solver ]
  | |- context [?x =? ?y] =>
      first [ rewrite (proj2 (Z.eqb_eq x y)) by solver
            | rewrite (proj2 (Z.eqb_neq x y)) by solver ]
  end.
Ltac compare := repeat (compare_step lia; cbn [andb orb negb]).

(** *** UTF-8 *)

Lemma encodeCodePoint_1 cp : 0 ≤ cp < 128 → encodeCodePoint cp = [cp].
Proof. intros H. unfold encodeCodePoint. by compare. Qed.

Lemma encodeCodePoint_2 q r :
  2 ≤ q < 32 → 0 ≤ r < 64 →
  encodeCodePoint (q * 64 + r) = [192 + q; 128 + r].
Proof.
  intros Hq Hr. unfold encodeCodePoint. compare.
  rewrite !Z.shiftr_div_pow2 by lia.
  replace ((q * 64 + r) `div` 2 ^ 6) with q by (simpl; rem_lia).
  by digits.
Qed.

Lemma encodeCodePoint_3 p q r :
  0 ≤ p < 16 → 0 ≤ q < 64 → 0 ≤ r < 64 → 32 ≤ p * 64 + q →
  encodeCodePoint (p * 4096 + q * 64 + r) = [224 + p; 128 + q; 128 + r].
Proof.
  intros Hp Hq Hr Hlow. unfold encodeCodePoint. compare.
  rewrite !Z.shiftr_div_pow2 by lia.
  replace ((p * 4096 + q * 64 + r) `div` 2 ^ 6) with (p * 64 + q) by (simpl; rem_lia).
  replace ((p * 4096 + q * 64 + r) `div` 2 ^ 12) with p by (simpl; rem_lia).
  by digits.
Qed.

Lemma encodeCodePoint_4 o p q r :
  0 ≤ o < 5 → 0 ≤ p < 64 → 0 ≤ q < 64 → 0 ≤ r < 64 → 16 ≤ o * 64 + p →
  encodeCodePoint (o * 262144 + p * 4096 + q * 64 + r)
  = [240 + o; 128 + p; 128 + q; 128 + r].
Proof.
  intros Ho Hp Hq Hr Hlow. unfold encodeCodePoint. compare.
  rewrite !Z.shiftr_div_pow2 by lia.
  replace ((o * 262144 + p * 4096 + q * 64 + r) `div` 2 ^ 6)
    with ((o * 4096 + p * 64) + q) by (simpl; rem_lia).
  replace ((o * 262144 + p * 4096 + q * 64 + r) `div` 2 ^ 12)
    with (o * 64 + p) by (simpl; rem_lia).
  replace ((o * 262144 + p * 4096 + q * 64 + r) `div` 2 ^ 18) with o
    by (simpl; rem_lia).
  by digits.
Qed.

(** The four forms of the encoding of a scalar value. *)
Lemma encodeCodePoint_cases cp :
  isScalar cp →
  (0 ≤ cp < 128 ∧ encodeCodePoint cp = [cp])
  ∨ (∃ q r, 2 ≤ q < 32 ∧ 0 ≤ r < 64 ∧ cp = q * 64 + r
            ∧ encodeCodePoint cp = [192 + q; 128 + r])
  ∨ (∃ p q r, 0 ≤ p < 16 ∧ 0 ≤ q < 64 ∧ 0 ≤ r < 64 ∧ 32 ≤ p * 64 + q
              ∧ ¬ (p = 13 ∧ 32 ≤ q)
              ∧ cp = p * 4096 + q * 64 + r
              ∧ encodeCodePoint cp = [224 + p; 128 + q; 128 + r])
  ∨ (∃ o p q r, 0 ≤ o < 5 ∧ 0 ≤ p < 64 ∧ 0 ≤ q < 64 ∧ 0 ≤ r < 64
                ∧ 16 ≤ o * 64 + p ∧ ¬ (o = 4 ∧ 16 ≤ p)
                ∧ cp = o * 262144 + p * 4096 + q * 64 + r
                ∧ encodeCodePoint cp = [240 + o; 128 + p; 128 + q; 128 + r]).
Proof.
  intros [Hrange Hsurrogate].
  destruct (decide (cp < 128)); [left; split; [lia | apply encodeCodePoint_1; lia] |].
  right. destruct (decide (cp < 2048)).
  { left. exists (cp `div` 64), (cp `mod` 64).
    assert (cp = cp `div` 64 * 64 + cp `mod` 64) as Hcp by rem_lia.
    split; [rem_lia |]. split; [rem_lia |]. split; [done |].
    rewrite Hcp at 1. apply encodeCodePoint_2; rem_lia. }
  right. destruct (decide (cp < 65536)).
  { left. exists (cp `div` 4096), ((cp `div` 64) `mod` 64), (cp `mod` 64).
    assert (cp = cp `div` 4096 * 4096 + (cp `div` 64) `mod` 64 * 64 + cp `mod` 64)
      as Hcp by rem_lia.
    split; [rem_lia |]. split; [rem_lia |]. split; [rem_lia |].
    split; [rem_lia |]. split; [rem_lia |]. split; [done |].
    rewrite Hcp at 1. apply encodeCodePoint_3; rem_lia. }
  right.
  exists (cp `div` 262144), ((cp `div` 4096) `mod` 64), ((cp `div` 64) `mod` 64),
    (cp `mod` 64).
  assert (cp = cp `div` 262144 * 262144 + (cp `div` 4096) `mod` 64 * 4096
               + (cp `div` 64) `mod` 64 * 64 + cp `mod` 64) as Hcp by rem_lia.
  split; [rem_lia |]. split; [rem_lia |]. split; [rem_lia |]. split; [rem_lia |].
  split; [rem_lia |]. split; [rem_lia |]. split; [done |].
  rewrite Hcp at 1. apply encodeCodePoint_4; rem_lia.
Qed.

Lemma utf8Decode_1 cp rest :
  0 ≤ cp < 128 →
  utf8Decode utf8Start (cp :: rest) = cp :: utf8Decode utf8Start rest.
Proof.
  intros Hcp. cbn [utf8Decode]. unfold utf8Byte, utf8Lead.
  cbn [bytesNeeded utf8Start]. by compare.
Qed.

Lemma utf8Decode_2 q r rest :
  2 ≤ q < 32 → 0 ≤ r < 64 →
  utf8Decode utf8Start (192 + q :: 128 + r :: rest)
  = q * 64 + r :: utf8Decode utf8Start rest.
Proof.
  intros Hq Hr. cbn [utf8Decode]. unfold utf8Byte at 1, utf8Lead.
  cbn [bytesNeeded utf8Start]. compare.
  unfold utf8Byte, utf8Lead.
  cbn [bytesNeeded bytesSeen codePoint lowerBoundary upperBoundary].
  compare. digits. cbn [app]. f_equal; simpl; lia.
Qed.

Lemma utf8Decode_3 p q r rest :
  0 ≤ p < 16 → 0 ≤ q < 64 → 0 ≤ r < 64 → 32 ≤ p * 64 + q → ¬ (p = 13 ∧ 32 ≤ q) →
  utf8Decode utf8Start (224 + p :: 128 + q :: 128 + r :: rest)
  = p * 4096 + q * 64 + r :: utf8Decode utf8Start rest.
Proof.
  intros Hp Hq Hr Hlow Hsurrogate. cbn [utf8Decode]. unfold utf8Byte at 1, utf8Lead.
  cbn [bytesNeeded utf8Start]. compare.
  unfold utf8Byte at 1, utf8Lead.
  cbn [bytesNeeded bytesSeen codePoint lowerBoundary upperBoundary].
  compare.
  destruct (224 + p =? 224) eqn:H0; destruct (224 + p =? 237) eqn:H1;
    rewrite ?Z.eqb_eq, ?Z.eqb_neq in H0, H1; compare;
    unfold utf8Byte, utf8Lead;
    cbn [bytesNeeded bytesSeen codePoint lowerBoundary upperBoundary];
    compare; digits; cbn [app]; f_equal; simpl; lia.
Qed.

Lemma utf8Decode_4 o p q r rest :
  0 ≤ o < 5 → 0 ≤ p < 64 → 0 ≤ q < 64 → 0 ≤ r < 64 → 16 ≤ o * 64 + p →
  ¬ (o = 4 ∧ 16 ≤ p) →
  utf8Decode utf8Start (240 + o :: 128 + p :: 128 + q :: 128 + r :: rest)
  = o * 262144 + p * 4096 + q * 64 + r :: utf8Decode utf8Start rest.
Proof.
  intros Ho Hp Hq Hr Hlow Hhigh. cbn [utf8Decode]. unfold utf8Byte at 1, utf8Lead.
  cbn [bytesNeeded utf8Start]. compare.
  unfold utf8Byte at 1, utf8Lead.
  cbn [bytesNeeded bytesSeen codePoint lowerBoundary upperBoundary].
  compare.
  destruct (240 + o =? 240) eqn:H0; destruct (240 + o =? 244) eqn:H1;
    rewrite ?Z.eqb_eq, ?Z.eqb_neq in H0, H1; compare;
    unfold utf8Byte at 1, utf8Lead;
    cbn [bytesNeeded bytesSeen codePoint lowerBoundary upperBoundary];
    compare;
    unfold utf8Byte, utf8Lead;
    cbn [bytesNeeded bytesSeen codePoint lowerBoundary upperBoundary];
    compare; digits; cbn [app]; f_equal; simpl; lia.
Qed.

(** A scalar value that was encoded is decoded to itself, whatever
    follows. *)
Lemma utf8Decode_encodeCodePoint cp rest :
  isScalar cp →
  utf8Decode utf8Start (encodeCodePoint cp ++ rest) = cp :: utf8Decode utf8Start rest.
Proof.
  intros Hcp.
  destruct (encodeCodePoint_cases cp Hcp)
    as [[H ->] | [(q & r & Hq & Hr & -> & ->)
       | [(p & q & r & Hp & Hq & Hr & Hl & Hs & -> & ->)
         | (o & p & q & r & Ho & Hp & Hq & Hr & Hl & Hs & -> & ->)]]];
    cbn [app].
  - by apply utf8Decode_1.
  - by apply utf8Decode_2.
  - by apply utf8Decode_3.
  - by apply utf8Decode_4.
Qed.

Lemma utf8Decode_encode cps :
  Forall isScalar cps → utf8Decode utf8Start (cps ≫= encodeCodePoint) = cps.
Proof.
  induction 1 as [|cp cps Hcp _ IH]; [done |].
  cbn [mbind list_bind]. rewrite utf8Decode_encodeCodePoint by done. by rewrite IH.
Qed.

(** *** UTF-16 *)

Lemma fromCodePoint_pair u l :
  isHighSurrogate u = true → isLowSurrogate l = true →
  isScalar (65536 + (u - 55296) * 1024 + (l - 56320))
  ∧ fromCodePoint (65536 + (u - 55296) * 1024 + (l - 56320)) = [u; l].
Proof.
  unfold isHighSurrogate, isLowSurrogate. rewrite !andb_true_iff, !Z.leb_le.
  intros Hu Hl. split; [unfold isScalar; lia |].
  unfold fromCodePoint. compare.
  replace (65536 + (u - 55296) * 1024 + (l - 56320) - 65536)
    with ((u - 55296) * 1024 + (l - 56320)) by lia.
  digits.
  replace (((u - 55296) * 1024 + (l - 56320)) `div` 2 ^ 10) with (u - 55296)
    by (simpl; rem_lia).
  f_equal; [lia | f_equal; lia].
Qed.

Lemma fromCodePoint_unit u :
  isCodeUnit u → isHighSurrogate u = false → isLowSurrogate u = false →
  isScalar u ∧ fromCodePoint u = [u].
Proof.
  unfold isCodeUnit, isHighSurrogate, isLowSurrogate.
  rewrite !andb_false_iff, !Z.leb_gt. intros Hu Hh Hl.
  split; [unfold isScalar; lia |]. unfold fromCodePoint. by compare.
Qed.

(** The code points of a well-formed string are scalar values, and their
    code units are those of the string. *)
Lemma toCodePoints_wellFormed s :
  Forall isCodeUnit s → isWellFormed s = true →
  Forall isScalar (toCodePoints s) ∧ toCodePoints s ≫= fromCodePoint = s.
Proof.
  assert (H : ∀ n s, (length s ≤ n)%nat → Forall isCodeUnit s →
            isWellFormed s = true →
            Forall isScalar (toCodePoints s) ∧ toCodePoints s ≫= fromCodePoint = s).
  { clear s. induction n as [|n IH]; intros s Hn Hunits Hwf.
    { destruct s; [done | simpl in Hn; lia]. }
    destruct s as [|u rest]; [done |].
    apply Forall_cons in Hunits as [Hu Hrest].
    cbn [isWellFormed toCodePoints] in *.
    destruct (isHighSurrogate u) eqn:Hhigh.
    - destruct rest as [|l rest']; [done |].
      apply andb_true_iff in Hwf as [Hlow Hwf]. rewrite Hlow.
      apply Forall_cons in Hrest as [_ Hrest'].
      destruct (IH rest') as [Hall Hback]; [simpl in Hn; lia | done | done |].
      destruct (fromCodePoint_pair u l Hhigh Hlow) as [Hscalar Hunits].
      split; [by constructor |].
      cbn [mbind list_bind]. by rewrite Hunits, Hback.
    - apply andb_true_iff in Hwf as [Hlow Hwf]. apply negb_true_iff in Hlow.
      rewrite Hlow.
      destruct (IH rest) as [Hall Hback]; [simpl in Hn; lia | done | done |].
      destruct (fromCodePoint_unit u Hu Hhigh Hlow) as [Hscalar Hunits].
      split; [by constructor |].
      cbn [mbind list_bind]. by rewrite Hunits, Hback. }
  by apply (H (length s)).
Qed.

(** The encoding of a plain text does not start with the three bytes of a
    byte order mark. *)
Lemma stringToUint8Array_no_mark s rest :
  plainText s → stringToUint8Array s ≠ 239 :: 187 :: 191 :: rest.
Proof.
  intros (Hunits & Hwf & Hhead). unfold stringToUint8Array.
  destruct s as [|u s]; [done |].
  apply Forall_cons in Hunits as [Hu Hunits].
  assert (Hfirst : ∃ cp cps, toCodePoints (u :: s) = cp :: cps ∧ isScalar cp
                             ∧ cp ≠ 65279).
  { cbn [isWellFormed toCodePoints] in *.
    destruct (isHighSurrogate u) eqn:Hhigh.
    - destruct s as [|l s']; [done |].
      apply andb_true_iff in Hwf as [Hlow Hwf]. rewrite Hlow.
      destruct (fromCodePoint_pair u l Hhigh Hlow) as [Hscalar _].
      eexists _, _. split; [done |]. split; [done |].
      unfold isHighSurrogate, isLowSurrogate in *.
      rewrite !andb_true_iff, !Z.leb_le in *. lia.
    - apply andb_true_iff in Hwf as [Hlow Hwf]. apply negb_true_iff in Hlow.
      rewrite Hlow.
      destruct (fromCodePoint_unit u Hu Hhigh Hlow) as [Hscalar _].
      eexists _, _. split; [done |]. split; [done |].
      intros ->. by apply Hhead. }
  destruct Hfirst as (cp & cps & -> & Hcp & Hmark).
  cbn [mbind list_bind].
  destruct (encodeCodePoint_cases cp Hcp)
    as [[H ->] | [(q & r & Hq & Hr & -> & ->)
       | [(p & q & r & Hp & Hq & Hr & Hl & Hs & -> & ->)
         | (o & p & q & r & Ho & Hp & Hq & Hr & Hl & Hs & -> & ->)]]];
    cbn [app]; intros Heq; injection Heq; intros; lia.
Qed.

(** The two codecs of aesCipher.ts, one after the other. *)
Lemma uint8ArrayToString_stringToUint8Array s :
  plainText s → uint8ArrayToString (stringToUint8Array s) = s.
Proof.
  intros Hs. pose proof Hs as (Hunits & Hwf & _).
  destruct (toCodePoints_wellFormed s Hunits Hwf) as [Hscalar Hback].
  unfold uint8ArrayToString.
  assert (Hsame : match stringToUint8Array s with
                  | 239 :: 187 :: 191 :: rest => rest
                  | _ => stringToUint8Array s
                  end = stringToUint8Array s).
  { pose proof (stringToUint8Array_no_mark s) as Hmark.
    destruct (stringToUint8Array s) as [|b1 bytes]; [done |].
    destruct (decide (b1 = 239)) as [-> |]; [| by repeat case_match].
    destruct bytes as [|b2 bytes]; [done |].
    destruct (decide (b2 = 187)) as [-> |]; [| by repeat case_match].
    destruct bytes as [|b3 bytes]; [done |].
    destruct (decide (b3 = 191)) as [-> |]; [| by repeat case_match].
    by specialize (Hmark bytes Hs). }
  rewrite Hsame. unfold stringToUint8Array. by rewrite utf8Decode_encode.
Qed.

(** *** Hexadecimal text *)

(** The two digits [uint8ArrayToHex] writes for a byte are no white space,
    and [parseInt] reads the byte back from them. *)
Lemma hex_byte b :
  isByte b →
  isWhiteSpace (hexChar (b `quot` 16)) = false
  ∧ isWhiteSpace (hexChar (b `rem` 16)) = false
  ∧ default 0 (parseInt16 [hexChar (b `quot` 16); hexChar (b `rem` 16)]) `mod` 256 = b.
Proof.
  intros Hb.
  assert (H : (negb (isWhiteSpace (hexChar (b `quot` 16)))
               && negb (isWhiteSpace (hexChar (b `rem` 16)))
               && (default 0 (parseInt16 [hexChar (b `quot` 16); hexChar (b `rem` 16)])
                     `mod` 256 =? b)) = true).
  { apply (forallb_seqZ
             (λ b, negb (isWhiteSpace (hexChar (b `quot` 16)))
                   && negb (isWhiteSpace (hexChar (b `rem` 16)))
                   && (default 0 (parseInt16 [hexChar (b `quot` 16);
                                              hexChar (b `rem` 16)])
                         `mod` 256 =? b)) 0 256); [| exact Hb].
    vm_compute. reflexivity. }
  rewrite !andb_true_iff, !negb_true_iff, Z.eqb_eq in H. tauto.
Qed.

Lemma length_uint8ArrayToHex bytes :
  length (uint8ArrayToHex bytes) = (2 * length bytes)%nat.
Proof. induction bytes as [|b bytes IH]; [done |]. simpl. rewrite IH. lia. Qed.

Lemma uint8ArrayToHex_no_space bytes :
  Forall isByte bytes →
  filter (λ c, isWhiteSpace c = false) (uint8ArrayToHex bytes) = uint8ArrayToHex bytes.
Proof.
  induction 1 as [|b bytes Hb _ IH]; [done |].
  destruct (hex_byte b Hb) as (H1 & H2 & _).
  change (uint8ArrayToHex (b :: bytes))
    with (hexChar (b `quot` 16) :: hexChar (b `rem` 16) :: uint8ArrayToHex bytes).
  rewrite !filter_cons_True by done. by rewrite IH.
Qed.

Lemma hexPairs_uint8ArrayToHex bytes :
  Forall isByte bytes → hexPairs (uint8ArrayToHex bytes) = bytes.
Proof.
  induction 1 as [|b bytes Hb _ IH]; [done |].
  destruct (hex_byte b Hb) as (_ & _ & Hread).
  change (uint8ArrayToHex (b :: bytes))
    with (hexChar (b `quot` 16) :: hexChar (b `rem` 16) :: uint8ArrayToHex bytes).
  cbn [hexPairs]. by rewrite Hread, IH.
Qed.

Lemma hexToUint8Array_uint8ArrayToHex bytes :
  Forall isByte bytes → hexToUint8Array (uint8ArrayToHex bytes) = Return bytes.
Proof.
  intros Hbytes. unfold hexToUint8Array. cbv zeta.
  rewrite uint8ArrayToHex_no_space, length_uint8ArrayToHex by done.
  assert ((Z.of_nat (2 * length bytes) `rem` 2 =? 0) = true) as ->
    by (apply Z.eqb_eq; rem_lia).
  cbn [negb]. by rewrite hexPairs_uint8ArrayToHex.
Qed.

(** What [hexPairs] returns: one byte for every two characters. *)
Lemma hexPairs_bytes hex :
  length (hexPairs hex) = (length hex `div` 2)%nat ∧ Forall isByte (hexPairs hex).
Proof.
  assert (H : ∀ n hex, (length hex ≤ n)%nat →
            length (hexPairs hex) = (length hex `div` 2)%nat
            ∧ Forall isByte (hexPairs hex)).
  { clear hex. induction n as [|n IH]; intros hex Hn.
    { destruct hex; [done | simpl in Hn; lia]. }
    destruct hex as [|c1 [|c2 rest]]; [done | done |].
    destruct (IH rest) as [Hlen Hall]; [simpl in Hn; lia |].
    cbn [hexPairs]. split.
    - cbn [length]. rewrite Hlen.
      change (S (S (length rest))) with (1 * 2 + length rest)%nat.
      rewrite Nat.div_add_l by lia. lia.
    - constructor; [apply isByte_u8 | done]. }
  by apply (H (length hex)).
Qed.

(** The lower-case hexadecimal digits. *)
Lemma hexChar_digit d :
  0 ≤ d < 16 → (48 ≤ hexChar d ≤ 57 ∨ 97 ≤ hexChar d ≤ 102) ∧ hexDigit (hexChar d) = Some d.
Proof.
  intros Hd. unfold hexChar. destruct (d <? 10) eqn:H.
  - apply Z.ltb_lt in H. split; [lia |]. unfold hexDigit.
    assert ((48 <=? 48 + d) && (48 + d <=? 57) = true) as ->
      by (apply andb_true_iff; rewrite !Z.leb_le; lia).
    f_equal. lia.
  - apply Z.ltb_ge in H. split; [lia |]. unfold hexDigit.
    assert ((48 <=? 87 + d) && (87 + d <=? 57) = false) as ->
      by (apply andb_false_iff; rewrite !Z.leb_gt; lia).
    assert ((97 <=? 87 + d) && (87 + d <=? 102) = true) as ->
      by (apply andb_true_iff; rewrite !Z.leb_le; lia).
    f_equal. lia.
Qed.

(** ** AES on messages and texts *)

Lemma Forall_setArray target source offset :
  Forall isByte target → Forall isByte source →
  Forall isByte (setArray target source offset).
Proof.
  intros Ht Hs. unfold setArray.
  apply Forall_app. split; [by apply Forall_take |].
  apply Forall_app. split; [done | by apply Forall_drop].
Qed.

(** The loop of [aesEncrypt]: every block of the result is the encryption
    of the block of the padded text at the same place, and of nothing
    else. *)
Lemma encrypt_blocks_each key padded (n : nat) :
  validKeyLength key → Forall isByte padded → length padded = (16 * n)%nat →
  ∃ ciphertext,
    forLoopM 0 (Z.of_nat n) (λ i ciphertext,
      let block := subarray padded (i * 16) ((i + 1) * 16) in
      encryptedBlock ← aesEncryptBlock block key;
      Return (setArray ciphertext encryptedBlock (i * 16)))
      (newUint8Array (Z.of_nat (length padded)))
    = Return ciphertext
    ∧ length ciphertext = length padded
    ∧ Forall isByte ciphertext
    ∧ ∀ j, 0 ≤ j < Z.of_nat n →
        aesEncryptBlock (blockAt padded j) key = Return (blockAt ciphertext j).
Proof.
  intros Hkey Hbytes Hlen.
  destruct (forLoopM_invariant
    (λ i ciphertext,
       length ciphertext = length padded
       ∧ Forall isByte ciphertext
       ∧ ∀ j, 0 ≤ j < i →
           aesEncryptBlock (blockAt padded j) key = Return (blockAt ciphertext j))
    0 (Z.of_nat n)
    (λ i ciphertext,
      let block := subarray padded (i * 16) ((i + 1) * 16) in
      encryptedBlock ← aesEncryptBlock block key;
      Return (setArray ciphertext encryptedBlock (i * 16)))
    (newUint8Array (Z.of_nat (length padded)))) as (ciphertext & Hrun & Hinv).
  - lia.
  - unfold newUint8Array. split; [rewrite length_replicate; lia |].
    split; [apply Forall_replicate; unfold isByte; lia | intros; lia].
  - intros i ciphertext Hi (Hlength & Hall & Hdone). cbv zeta.
    fold (blockAt padded i).
    destruct (block_round_trip (blockAt padded i) key) as (eb & Hrun & Heb & _).
    { apply blockAt_block; [done | lia | lia]. }
    { done. }
    rewrite Hrun. eexists. split; [reflexivity |]. split; [| split].
    + rewrite length_setArray; [done | lia | destruct Heb as [-> _]; lia].
    + apply Forall_setArray; [done | apply Heb].
    + intros j Hj. destruct (decide (j = i)) as [-> | Hne].
      * rewrite blockAt_setArray_same; [done | lia | apply Heb | lia].
      * rewrite blockAt_setArray_before by lia. apply Hdone. lia.
  - exists ciphertext. by destruct Hinv as (? & ? & ?).
Qed.

Lemma length_padPKCS7 data :
  length (padPKCS7 data) = (16 * (length data `div` 16 + 1))%nat.
Proof.
  rewrite padPKCS7_eq, length_app, length_replicate. unfold padLength.
  pose proof (Nat.div_mod_eq (length data) 16).
  pose proof (Nat.mod_upper_bound (length data) 16). lia.
Qed.

Lemma aesEncrypt_blocks plaintext key :
  Forall isByte plaintext → validKeyLength key →
  ∃ ciphertext,
    aesEncrypt plaintext key = Return ciphertext
    ∧ length ciphertext = (16 * (length plaintext `div` 16 + 1))%nat
    ∧ Forall isByte ciphertext
    ∧ ∀ j, 0 ≤ j ≤ Z.of_nat (length plaintext `div` 16) →
        aesEncryptBlock (blockAt (padPKCS7 plaintext) j) key
        = Return (blockAt ciphertext j).
Proof.
  intros Hbytes Hkey.
  pose proof (padPKCS7_bytes plaintext Hbytes) as Hpadded.
  pose proof (length_padPKCS7 plaintext) as Hlen.
  destruct (encrypt_blocks_each key (padPKCS7 plaintext) _ Hkey Hpadded Hlen)
    as (ciphertext & Hrun & Hclen & Hcbytes & Hblocks).
  cbv zeta in Hrun.
  exists ciphertext. unfold aesEncrypt. cbv zeta.
  assert (Hquot : Z.of_nat (length (padPKCS7 plaintext)) `quot` 16
                  = Z.of_nat (length plaintext `div` 16 + 1))
    by (rewrite Hlen; rem_lia).
  rewrite Hquot, Hrun. split; [done |]. split; [by rewrite Hclen |].
  split; [done |]. intros j Hj. apply Hblocks. lia.
Qed.

(** *** The bytes of a text *)

Lemma toCodePoints_scalar s :
  Forall isCodeUnit s → Forall isScalar (toCodePoints s).
Proof.
  assert (Hreplacement : isScalar 65533) by (unfold isScalar; lia).
  assert (H : ∀ n s, (length s ≤ n)%nat → Forall isCodeUnit s →
            Forall isScalar (toCodePoints s)).
  { clear s. induction n as [|n IH]; intros s Hn Hunits.
    { destruct s; [constructor | simpl in Hn; lia]. }
    destruct s as [|u rest]; [constructor |].
    apply Forall_cons in Hunits as [Hu Hrest]. cbn [toCodePoints].
    assert (Htail : Forall isScalar (toCodePoints rest))
      by (apply IH; [simpl in Hn; lia | done]).
    destruct (isHighSurrogate u) eqn:Hhigh.
    - destruct rest as [|l rest']; [by constructor |].
      destruct (isLowSurrogate l) eqn:Hlow; [| by constructor].
      apply Forall_cons in Hrest as [_ Hrest'].
      constructor; [by apply fromCodePoint_pair |].
      apply IH; [simpl in Hn; lia | done].
    - destruct (isLowSurrogate u) eqn:Hlow; [by constructor |].
      constructor; [by apply fromCodePoint_unit | done]. }
  by apply (H (length s)).
Qed.

Lemma encodeCodePoint_bytes cp : isScalar cp → Forall isByte (encodeCodePoint cp).
Proof.
  intros Hcp.
  destruct (encodeCodePoint_cases cp Hcp)
    as [[H ->] | [(q & r & Hq & Hr & -> & ->)
       | [(p & q & r & Hp & Hq & Hr & Hl & Hs & -> & ->)
         | (o & p & q & r & Ho & Hp & Hq & Hr & Hl & Hs & -> & ->)]]];
    repeat constructor; lia.
Qed.

Lemma stringToUint8Array_bytes s :
  Forall isCodeUnit s → Forall isByte (stringToUint8Array s).
Proof.
  intros Hs. unfold stringToUint8Array.
  induction (toCodePoints_scalar s Hs) as [|cp cps Hcp _ IH]; [constructor |].
  cbn [mbind list_bind]. apply Forall_app. split; [by apply encodeCodePoint_bytes | done].
Qed.

(** *** Texts under AES *)

Lemma aesEncrypt_aesDecrypt plaintext key ciphertext :
  Forall isByte plaintext → validKeyLength key →
  aesEncrypt plaintext key = Return ciphertext →
  aesDecrypt ciphertext key = Return plaintext.
Proof.
  intros Hbytes Hkey Hrun. pose proof (aes_round_trip plaintext key Hbytes Hkey) as H.
  by rewrite Hrun in H.
Qed.

Lemma uint8ArrayToHex_digits bytes :
  Forall isByte bytes →
  Forall (λ c, 48 ≤ c ≤ 57 ∨ 97 ≤ c ≤ 102) (uint8ArrayToHex bytes).
Proof.
  induction 1 as [|b bytes Hb _ IH]; [constructor |].
  change (uint8ArrayToHex (b :: bytes))
    with (hexChar (b `quot` 16) :: hexChar (b `rem` 16) :: uint8ArrayToHex bytes).
  unfold isByte in Hb.
  constructor; [apply hexChar_digit; rem_lia |].
  constructor; [apply hexChar_digit; rem_lia | done].
Qed.

Lemma aesText_round_trip text keyText isHexKey keyBytes :
  plainText text →
  keyBytesOf keyText isHexKey = Return keyBytes → validKeyLength keyBytes →
  ∃ ciphertext,
    aesEncrypt (stringToUint8Array text) keyBytes = Return ciphertext
    ∧ Forall isByte ciphertext
    ∧ length ciphertext
      = (16 * (length (stringToUint8Array text) `div` 16 + 1))%nat
    ∧ aesEncryptText text keyText isHexKey = Return (uint8ArrayToHex ciphertext)
    ∧ aesDecryptText (uint8ArrayToHex ciphertext) keyText isHexKey = Return text.
Proof.
  intros Htext HkeyBytes Hkey.
  assert (Hbytes : Forall isByte (stringToUint8Array text))
    by (apply stringToUint8Array_bytes, Htext).
  destruct (aesEncrypt_blocks (stringToUint8Array text) keyBytes Hbytes Hkey)
    as (ciphertext & Hrun & Hlen & Hcbytes & _).
  exists ciphertext. split; [done |]. split; [done |]. split; [done |].
  unfold aesEncryptText, aesDecryptText. cbv zeta.
  rewrite HkeyBytes. cbn [mbind outcome_bind]. rewrite Hrun.
  cbn [mbind outcome_bind]. split; [done |].
  rewrite hexToUint8Array_uint8ArrayToHex by done. cbn [mbind outcome_bind].
  rewrite (aesEncrypt_aesDecrypt _ _ _ Hbytes Hkey Hrun). cbn [mbind outcome_bind].
  by rewrite uint8ArrayToString_stringToUint8Array.
Qed.

(** *** Failures of the AES functions *)

Lemma forLoopM_throw {T : Type} lo hi (body : Z → T → outcome T) (s : T) message :
  lo < hi → body lo s = Throw message → forLoopM lo hi body s = Throw message.
Proof.
  intros Hlt Hbody. unfold forLoopM.
  rewrite seqZ_cons by lia. cbn [foldl mbind outcome_bind]. rewrite Hbody.
  generalize (seqZ (Z.succ lo) (Z.pred (hi - lo))). intros l.
  induction l as [|i l IH]; [done | apply IH].
Qed.

Lemma getKeyParams_throws keyLength :
  keyLength ≠ 16 → keyLength ≠ 24 → keyLength ≠ 32 →
  getKeyParams keyLength = Throw invalidKeyLength.
Proof.
  intros H16 H24 H32. unfold getKeyParams.
  apply Z.eqb_neq in H16 as ->. apply Z.eqb_neq in H24 as ->.
  by apply Z.eqb_neq in H32 as ->.
Qed.

Lemma aesBlock_invalid_key data key :
  length data = 16%nat → ¬ validKeyLength key →
  aesEncryptBlock data key = Throw invalidKeyLength
  ∧ aesDecryptBlock data key = Throw invalidKeyLength.
Proof.
  intros Hlen Hkey. unfold aesEncryptBlock, aesDecryptBlock. rewrite Hlen.
  change (Z.of_nat 16 =? 16) with true. cbn [negb].
  rewrite getKeyParams_throws by (unfold validKeyLength in Hkey; lia). done.
Qed.

Lemma aesEncrypt_throws plaintext key :
  ¬ validKeyLength key → aesEncrypt plaintext key = Throw invalidKeyLength.
Proof.
  intros Hkey. unfold aesEncrypt. cbv zeta.
  pose proof (length_padPKCS7 plaintext) as Hlen.
  apply forLoopM_throw; [rewrite Hlen; rem_lia |].
  fold (blockAt (padPKCS7 plaintext) 0).
  destruct (aesBlock_invalid_key (blockAt (padPKCS7 plaintext) 0) key) as [-> _];
    [| done | done].
  unfold blockAt. rewrite length_subarray; lia.
Qed.

Lemma aesDecrypt_throws ciphertext key :
  ciphertext ≠ [] → Z.of_nat (length ciphertext) `rem` 16 = 0 →
  ¬ validKeyLength key → aesDecrypt ciphertext key = Throw invalidKeyLength.
Proof.
  intros Hne Hlen Hkey. unfold aesDecrypt. rewrite Hlen.
  change (0 =? 0) with true. cbn [negb]. cbv zeta.
  assert (Hpos : (0 < length ciphertext)%nat) by (destruct ciphertext; [done | simpl; lia]).
  rewrite (forLoopM_throw _ _ _ _ invalidKeyLength); [done | rem_lia |].
  fold (blockAt ciphertext 0).
  destruct (aesBlock_invalid_key (blockAt ciphertext 0) key) as [_ ->];
    [| done | done].
  unfold blockAt. rewrite length_subarray; [lia | lia | rem_lia].
Qed.

(** *** The start of the expanded key *)

Lemma forLoop_indexed {T : Type} (I : Z → T → Prop) lo hi body (s : T) :
  lo ≤ hi → I lo s →
  (∀ i s, lo ≤ i < hi → I i s → I (i + 1) (body i s)) →
  I hi (forLoop lo hi body s).
Proof.
  intros Hle Hs Hbody. unfold forLoop.
  assert (Hn : ∃ n : nat, hi - lo = Z.of_nat n) by (exists (Z.to_nat (hi - lo)); lia).
  destruct Hn as [n Hn]. rewrite Hn.
  replace hi with (lo + Z.of_nat n) in * by lia. clear Hn Hle.
  revert lo s Hs Hbody. induction n as [|n IH]; intros lo s Hs Hbody.
  - by replace (lo + Z.of_nat 0) with lo by lia.
  - rewrite seqZ_cons by lia. simpl.
    replace (Z.pred (Z.of_nat (S n))) with (Z.of_nat n) by lia.
    replace (lo + Z.of_nat (S n)) with (Z.succ lo + Z.of_nat n) by lia.
    apply IH.
    + replace (Z.succ lo) with (lo + 1) by lia. apply Hbody; [lia | done].
    + intros i s2 Hi. apply Hbody. lia.
Qed.

Lemma get_nat (arr : list Z) (i : nat) : get arr (Z.of_nat i) = default 0 (arr !! i).
Proof.
  unfold get. assert ((Z.of_nat i <? 0) = false) as -> by (apply Z.ltb_ge; lia).
  by rewrite Nat2Z.id.
Qed.

Lemma take_set arr (n : nat) i v :
  Z.of_nat n ≤ i → take n (set arr i v) = take n arr.
Proof.
  intros Hi. unfold set.
  assert ((i <? 0) = false) as -> by (apply Z.ltb_ge; lia).
  apply take_insert_ge. lia.
Qed.

Lemma take_set_next arr (n : nat) v :
  (n < length arr)%nat →
  take (S n) (set arr (Z.of_nat n) v) = take n arr ++ [u8 v].
Proof.
  intros Hn. unfold set.
  assert ((Z.of_nat n <? 0) = false) as -> by (apply Z.ltb_ge; lia).
  rewrite Nat2Z.id.
  rewrite (take_S_r _ _ (u8 v)) by (by rewrite list_lookup_insert_eq by done).
  by rewrite take_insert_ge by lia.
Qed.

(** The first loop of [keyExpansion] copies the key. *)
Lemma copy_key key (n : nat) :
  (length key ≤ n)%nat →
  take (length key)
    (forLoop 0 (Z.of_nat (length key)) (λ i expandedKey, set expandedKey i (get key i))
       (newUint8Array (Z.of_nat n)))
  = u8 <$> key
  ∧ length (forLoop 0 (Z.of_nat (length key))
              (λ i expandedKey, set expandedKey i (get key i))
              (newUint8Array (Z.of_nat n))) = n.
Proof.
  intros Hn.
  pose proof (forLoop_indexed
    (λ i expandedKey,
       length expandedKey = n
       ∧ take (Z.to_nat i) expandedKey = u8 <$> take (Z.to_nat i) key)
    0 (Z.of_nat (length key))
    (λ i expandedKey, set expandedKey i (get key i))
    (newUint8Array (Z.of_nat n))) as H.
  destruct H as [Hlen Htake].
  - lia.
  - split; [unfold newUint8Array; rewrite length_replicate; lia | done].
  - intros i expandedKey Hi [Hlen Htake]. split; [by rewrite length_set |].
    replace (Z.to_nat (i + 1)) with (S (Z.to_nat i)) by lia.
    assert (Hnat : i = Z.of_nat (Z.to_nat i)) by lia.
    revert Hlen Htake. generalize (Z.to_nat i) Hnat. intros k -> Hlen Htake.
    rewrite take_set_next by lia. rewrite Htake.
    destruct (lookup_lt_is_Some_2 key k) as [x Hx]; [lia |].
    rewrite (take_S_r _ _ x) by done. rewrite fmap_app. simpl.
    do 3 f_equal. by rewrite get_nat, Hx.
  - rewrite Nat2Z.id in Htake. split; [| done].
    by rewrite Htake, firstn_all.
Qed.

Lemma keyExpansion_prefix key params :
  getKeyParams (Z.of_nat (length key)) = Return params →
  take (length key) (keyExpansion key params) = u8 <$> key.
Proof.
  intros Hparams.
  assert (Hsizes : Z.of_nat (length key) = 4 * nk params
                   ∧ 4 * nk params ≤ 4 * 4 * (nr params + 1) ∧ 0 ≤ nk params
                   ∧ nk params ≤ (nr params + 1) * 4).
  { unfold getKeyParams in Hparams.
    destruct (Z.of_nat (length key) =? 16) eqn:H16;
      [apply Z.eqb_eq in H16; injection Hparams as <-; simpl; lia |].
    destruct (Z.of_nat (length key) =? 24) eqn:H24;
      [apply Z.eqb_eq in H24; injection Hparams as <-; simpl; lia |].
    destruct (Z.of_nat (length key) =? 32) eqn:H32;
      [apply Z.eqb_eq in H32; injection Hparams as <-; simpl; lia | done]. }
  destruct Hsizes as (Hlen & Hfit & Hnk & Hloop).
  unfold keyExpansion. cbv zeta.
  destruct (copy_key key (Z.to_nat (4 * 4 * (nr params + 1)))) as [Hcopy Hsize]; [lia |].
  rewrite Z2Nat.id in Hcopy, Hsize by lia.
  revert Hcopy.
  generalize (forLoop 0 (Z.of_nat (length key))
                (λ i expandedKey, set expandedKey i (get key i))
                (newUint8Array (4 * 4 * (nr params + 1)))).
  intros start Hstart.
  apply (forLoop_indexed (λ _ expandedKey, take (length key) expandedKey = u8 <$> key));
    [done | done |].
  intros i expandedKey Hi Hkeep.
  apply (forLoop_indexed (λ _ expandedKey, take (length key) expandedKey = u8 <$> key));
    [lia | done |].
  intros j expandedKey' Hj Hkeep'. rewrite take_set by lia. done.
Qed.

(** *** Removing the padding *)

Lemma get_last (data : list Z) :
  get data (Z.of_nat (length data) - 1) = default 0 (last data).
Proof.
  destruct data as [|x data _] using rev_ind; [done |].
  rewrite length_app, last_snoc. simpl.
  replace (Z.of_nat (length data + 1) - 1) with (Z.of_nat (length data + 0)) by lia.
  by rewrite get_app_r.
Qed.

(** The loop of [unpadPKCS7] runs to its end when the bytes it visits are
    those of the padding. *)
Lemma paddingMatches_spec (data : list Z) (p : nat) :
  (p ≤ length data)%nat →
  paddingMatches data (Z.of_nat p) = true
  ↔ drop (length data - p) data = replicate p (Z.of_nat p).
Proof.
  intros Hp. unfold paddingMatches. rewrite forallb_forall. split.
  - intros Hall. apply list_eq_same_length with p.
    + rewrite ?length_drop, ?length_replicate; lia.
    + rewrite ?length_drop, ?length_replicate; lia.
    + intros i x y Hi Hx Hy. apply lookup_replicate in Hy as [-> _].
      rewrite lookup_drop in Hx.
      specialize (Hall (Z.of_nat (length data - p + i))).
      rewrite get_nat, Hx in Hall. simpl in Hall. apply Z.eqb_eq, Hall.
      apply list_elem_of_In, elem_of_seqZ. lia.
  - intros Hdrop i Hi. apply list_elem_of_In, elem_of_seqZ in Hi. apply Z.eqb_eq.
    replace i with (Z.of_nat (length data - p + Z.to_nat (i - Z.of_nat (length data - p))))
      by lia.
    rewrite get_nat, <- lookup_drop, Hdrop, lookup_replicate_2 by lia. done.
Qed.

Lemma unpadPKCS7_Return data result :
  Forall isByte data →
  unpadPKCS7 data = Return result
  ↔ data ≠ [] ∧ Z.of_nat (length data) `rem` 16 = 0
    ∧ ∃ p : nat, (p ≤ 16)%nat ∧ last data = Some (Z.of_nat p)
                 ∧ data = result ++ replicate p (Z.of_nat p).
Proof.
  intros Hbytes. unfold unpadPKCS7. cbv zeta.
  destruct (decide (data = [])) as [-> | Hne].
  { split; [done | by intros [? _]]. }
  assert (Hlen0 : (0 < length data)%nat) by (destruct data; [done | simpl; lia]).
  assert ((Z.of_nat (length data) =? 0) = false) as -> by (apply Z.eqb_neq; lia).
  destruct (decide (Z.of_nat (length data) `rem` 16 = 0)) as [Hrem | Hrem];
    [| apply Z.eqb_neq in Hrem as Hrem'; rewrite Hrem'; split; [done | by intros (_ & ? & _)]].
  rewrite Hrem. change (0 =? 0) with true. cbn [orb negb].
  assert (Hlen16 : (16 ≤ length data)%nat) by rem_lia.
  rewrite get_last.
  destruct (last data) as [l|] eqn:Hlast;
    [| apply last_None in Hlast; done].
  simpl.
  assert (Hl : isByte l).
  { apply last_Some in Hlast as [front ->].
    apply Forall_app in Hbytes as [_ Hl]. by inversion Hl. }
  unfold isByte in Hl.
  destruct (16 <? l) eqn:Hlong.
  { apply Z.ltb_lt in Hlong. split; [done |].
    intros (_ & _ & p & Hp & Heq & _). injection Heq as ->. lia. }
  apply Z.ltb_ge in Hlong.
  replace l with (Z.of_nat (Z.to_nat l)) by lia.
  set (p := Z.to_nat l). assert (Hp : (p ≤ 16)%nat) by lia.
  destruct (paddingMatches data (Z.of_nat p)) eqn:Hmatch; cbn [negb].
  - apply paddingMatches_spec in Hmatch; [| lia].
    assert (Hsub : subarray data 0 (Z.of_nat (length data) - Z.of_nat p)
                   = take (length data - p) data).
    { unfold subarray. change (Z.to_nat 0) with 0%nat. rewrite drop_0. f_equal. lia. }
    rewrite Hsub. split.
    + intros [= <-]. split; [done |]. split; [done |].
      exists p. split; [done |]. split; [done |].
      by rewrite <- Hmatch, take_drop.
    + intros (_ & _ & q & Hq & Heq & Hdata). f_equal.
      injection Heq as Heq. apply Nat2Z.inj in Heq as <-.
      rewrite Hdata at 2. rewrite Hdata at 1.
      rewrite length_app, length_replicate, Nat.add_sub.
      by rewrite take_app_length.
  - split; [done |]. intros (_ & _ & q & Hq & Heq & Hdata).
    injection Heq as Heq. apply Nat2Z.inj in Heq as <-.
    assert (paddingMatches data (Z.of_nat p) = true); [| congruence].
    apply paddingMatches_spec; [lia |].
    rewrite Hdata at 2. rewrite Hdata at 1.
    rewrite length_app, length_replicate, Nat.add_sub.
    by rewrite drop_app_length.
Qed.

(** *** The inverse transforms, undone *)

Lemma sbox_of_inverse x : isByte x → get SBOX (get INV_SBOX x) = x.
Proof.
  intros Hx. apply Z.eqb_eq.
  apply (forallb_seqZ (λ x, get SBOX (get INV_SBOX x) =? x) 0 256); [|exact Hx].
  vm_compute. reflexivity.
Qed.

Lemma unmix_products t :
  isByte t → unmixA t = t ∧ unmixB t = 0 ∧ unmixC t = 0 ∧ unmixD t = 0.
Proof.
  intros Ht.
  assert (H : ((unmixA t =? t) && (unmixB t =? 0) && (unmixC t =? 0)
               && (unmixD t =? 0)) = true).
  { apply (forallb_seqZ
             (λ t, (unmixA t =? t) && (unmixB t =? 0) && (unmixC t =? 0)
                   && (unmixD t =? 0)) 0 256); [|exact Ht].
    vm_compute. reflexivity. }
  rewrite !andb_true_iff, !Z.eqb_eq in H. tauto.
Qed.

Lemma mixColumn_invMixColumn t0 t1 t2 t3 :
  isByte t0 → isByte t1 → isByte t2 → isByte t3 →
  mixColumn
    (Z.lxor (Z.lxor (Z.lxor (gmul 14 t0) (gmul 11 t1)) (gmul 13 t2)) (gmul 9 t3))
    (Z.lxor (Z.lxor (Z.lxor (gmul 9 t0) (gmul 14 t1)) (gmul 11 t2)) (gmul 13 t3))
    (Z.lxor (Z.lxor (Z.lxor (gmul 13 t0) (gmul 9 t1)) (gmul 14 t2)) (gmul 11 t3))
    (Z.lxor (Z.lxor (Z.lxor (gmul 11 t0) (gmul 13 t1)) (gmul 9 t2)) (gmul 14 t3))
  = [t0; t1; t2; t3].
Proof.
  intros H0 H1 H2 H3. unfold mixColumn.
  destruct (unmix_products t0 H0) as (A0 & B0 & C0 & D0).
  destruct (unmix_products t1 H1) as (A1 & B1 & C1 & D1).
  destruct (unmix_products t2 H2) as (A2 & B2 & C2 & D2).
  destruct (unmix_products t3 H3) as (A3 & B3 & C3 & D3).
  rewrite !gmul_lxor by bytes.
  f_equal; [|f_equal; [|f_equal; [|f_equal]]].
  - transitivity (Z.lxor (Z.lxor (Z.lxor (unmixA t0) (unmixB t1)) (unmixC t2)) (unmixD t3)).
    + unfold unmixA, unmixB, unmixC, unmixD. lxor_ac.
    + rewrite A0, B1, C2, D3. by rewrite !Z.lxor_0_r.
  - transitivity (Z.lxor (Z.lxor (Z.lxor (unmixD t0) (unmixA t1)) (unmixB t2)) (unmixC t3)).
    + unfold unmixA, unmixB, unmixC, unmixD. lxor_ac.
    + rewrite D0, A1, B2, C3. by rewrite Z.lxor_0_l, !Z.lxor_0_r.
  - transitivity (Z.lxor (Z.lxor (Z.lxor (unmixC t0) (unmixD t1)) (unmixA t2)) (unmixB t3)).
    + unfold unmixA, unmixB, unmixC, unmixD. lxor_ac.
    + rewrite C0, D1, A2, B3. by rewrite Z.lxor_0_l, !Z.lxor_0_r.
  - transitivity (Z.lxor (Z.lxor (Z.lxor (unmixB t0) (unmixC t1)) (unmixD t2)) (unmixA t3)).
    + unfold unmixA, unmixB, unmixC, unmixD. lxor_ac.
    + rewrite B0, C1, D2, A3. by rewrite !Z.lxor_0_l.
Qed.

Lemma invSubShift_block st : block st → block (invSubBytes (invShiftRows st)).
Proof.
  intros H. block_cases H. rewrite invShiftRows_16, invSubBytes_16.
  cbn [fmap list_fmap]. block_goal.
Qed.

Lemma invSubShift_inverse st :
  block st → shiftRows (subBytes (invSubBytes (invShiftRows st))) = st.
Proof.
  intros H. block_cases H. rewrite invShiftRows_16, invSubBytes_16.
  cbn [fmap list_fmap]. rewrite subBytes_16. cbn [fmap list_fmap].
  rewrite shiftRows_16.
  rewrite !u8_byte by bytes. rewrite !sbox_of_inverse by bytes. reflexivity.
Qed.

Lemma invMixColumns_block st : block st → block (invMixColumns st).
Proof.
  intros H. block_cases H. rewrite invMixColumns_16.
  unfold invMixColumn. cbn [fmap list_fmap app]. block_goal.
Qed.

Lemma mixColumns_of_inverse st : block st → mixColumns (invMixColumns st) = st.
Proof.
  intros H. block_cases H. rewrite invMixColumns_16.
  unfold invMixColumn. cbn [fmap list_fmap app]. rewrite mixColumns_16.
  rewrite !u8_byte by bytes.
  rewrite !mixColumn_invMixColumn by bytes.
  cbn [fmap list_fmap app]. rewrite !u8_byte by bytes. reflexivity.
Qed.

Section InverseRounds.

Variable roundKeys : list Z.

Lemma decryptRound_block round state :
  block state → block (roundKeyAt roundKeys round) →
  block (decryptRound roundKeys round state).
Proof.
  intros Hs Hk. unfold decryptRound.
  by apply invMixColumns_block, addRoundKey_block; [apply invSubShift_block |].
Qed.

Lemma encryptRound_decryptRound round state :
  block state → block (roundKeyAt roundKeys round) →
  encryptRound roundKeys round
    (invSubBytes (invShiftRows (decryptRound roundKeys round state)))
  = invSubBytes (invShiftRows state).
Proof.
  intros Hs Hk. unfold encryptRound.
  rewrite invSubShift_inverse by (by apply decryptRound_block).
  unfold decryptRound. fold (roundKeyAt roundKeys round).
  rewrite mixColumns_of_inverse
    by (by apply addRoundKey_block; [apply invSubShift_block |]).
  by rewrite addRoundKey_involutive by (by try apply invSubShift_block).
Qed.

Lemma decryptRounds_block rounds state :
  block state → (∀ round, round ∈ rounds → block (roundKeyAt roundKeys round)) →
  block (foldl (λ s i, decryptRound roundKeys i s) state rounds).
Proof.
  revert state. induction rounds as [|round rounds IH]; intros state Hs Hk; [done |].
  simpl. apply IH.
  - apply decryptRound_block; [done | apply Hk; left].
  - intros r Hr. apply Hk. by right.
Qed.

Lemma encryptRounds_decryptRounds rounds state :
  block state → (∀ round, round ∈ rounds → block (roundKeyAt roundKeys round)) →
  foldl (λ s i, encryptRound roundKeys i s)
    (invSubBytes (invShiftRows
       (foldl (λ s i, decryptRound roundKeys i s) state (reverse rounds))))
    rounds
  = invSubBytes (invShiftRows state).
Proof.
  revert state. induction rounds as [|round rounds IH]; intros state Hs Hk; [done |].
  rewrite reverse_cons, foldl_app. cbn [foldl].
  assert (Hrest : ∀ r, r ∈ reverse rounds → block (roundKeyAt roundKeys r)).
  { intros r Hr. apply Hk. right. by apply elem_of_reverse. }
  rewrite encryptRound_decryptRound.
  - apply IH; [done |]. intros r Hr. apply Hk. by right.
  - by apply decryptRounds_block.
  - apply Hk. left.
Qed.

End InverseRounds.

Section InverseState.

Variable roundKeys : list Z.
Variable nr : Z.
Hypothesis nr_positive : 1 ≤ nr.
Hypothesis roundKeys_blocks :
  ∀ round, 0 ≤ round ≤ nr → block (roundKeyAt roundKeys round).

Lemma inner_rounds round :
  round ∈ reverse (seqZ 1 (nr - 1)) → block (roundKeyAt roundKeys round).
Proof.
  intros H. apply elem_of_reverse, elem_of_seqZ in H. apply roundKeys_blocks. lia.
Qed.

Lemma decryptState_block ciphertext :
  block ciphertext → block (decryptState roundKeys nr ciphertext).
Proof.
  intros Hc. unfold decryptState. rewrite copy_block by done.
  apply addRoundKey_block; [| apply (roundKeys_blocks 0); lia].
  apply invSubShift_block. unfold forLoopDown.
  replace (seqZ (0 + 1) (nr - 1 - 0)) with (seqZ 1 (nr - 1)) by (f_equal; lia).
  apply decryptRounds_block; [| apply inner_rounds].
  apply addRoundKey_block; [done | apply (roundKeys_blocks nr); lia].
Qed.

Lemma encryptState_decryptState ciphertext :
  block ciphertext →
  encryptState roundKeys nr (decryptState roundKeys nr ciphertext) = ciphertext.
Proof.
  intros Hc. unfold encryptState.
  rewrite copy_block by (by apply decryptState_block).
  unfold decryptState. rewrite copy_block by done.
  assert (H0 : block (roundKeyAt roundKeys 0)) by (apply roundKeys_blocks; lia).
  assert (Hn : block (roundKeyAt roundKeys nr)) by (apply roundKeys_blocks; lia).
  change (subarray roundKeys 0 16) with (roundKeyAt roundKeys 0).
  change (subarray roundKeys (nr * 16) ((nr + 1) * 16)) with (roundKeyAt roundKeys nr).
  unfold forLoopDown, forLoop.
  replace (seqZ (0 + 1) (nr - 1 - 0)) with (seqZ 1 (nr - 1)) by (f_equal; lia).
  assert (Hstart : block (addRoundKey ciphertext (roundKeyAt roundKeys nr)))
    by (by apply addRoundKey_block).
  assert (Hmid : block (foldl (λ s i, decryptRound roundKeys i s)
                          (addRoundKey ciphertext (roundKeyAt roundKeys nr))
                          (reverse (seqZ 1 (nr - 1))))).
  { apply decryptRounds_block; [done | apply inner_rounds]. }
  rewrite addRoundKey_involutive by (by try apply invSubShift_block).
  rewrite encryptRounds_decryptRounds
    by (done || (intros r Hr; apply inner_rounds; by apply elem_of_reverse)).
  rewrite invSubShift_inverse by done.
  by apply addRoundKey_involutive.
Qed.

End InverseState.

Lemma block_reverse_round_trip ciphertext key :
  block ciphertext → validKeyLength key →
  ∃ plaintext,
    aesDecryptBlock ciphertext key = Return plaintext
    ∧ block plaintext
    ∧ aesEncryptBlock plaintext key = Return ciphertext.
Proof.
  intros Hc Hkey.
  destruct (getKeyParams_cases (Z.of_nat (length key))) as (params & Hparams & Hnr).
  { unfold validKeyLength in Hkey. lia. }
  assert (Hkeys : ∀ round, 0 ≤ round ≤ nr params →
            block (roundKeyAt (keyExpansion key params) round))
    by (intros; by apply roundKeyAt_block).
  exists (decryptState (keyExpansion key params) (nr params) ciphertext).
  assert (Hp : block (decryptState (keyExpansion key params) (nr params) ciphertext))
    by (apply decryptState_block; [lia | done | done]).
  split; [apply aesDecryptBlock_state; [apply Hc | done] |].
  split; [done |].
  rewrite (aesEncryptBlock_state _ _ params) by (done || apply Hp).
  f_equal. apply encryptState_decryptState; [lia | done | done].
Qed.

(** ** Texts through the registry *)

(** *** Plain texts under the letter ciphers *)

Section LetterMap.

Variable f : Z → Z.
Hypothesis f_letters : lettersToLetters f.

Lemma letterMap_high c : isHighSurrogate (f c) = isHighSurrogate c.
Proof.
  destruct (f_letters c) as [-> | [Hc Hfc]]; [done |].
  unfold isHighSurrogate.
  transitivity false; [| symmetry]; apply andb_false_iff; rewrite !Z.leb_gt; lia.
Qed.

Lemma letterMap_low c : isLowSurrogate (f c) = isLowSurrogate c.
Proof.
  destruct (f_letters c) as [-> | [Hc Hfc]]; [done |].
  unfold isLowSurrogate.
  transitivity false; [| symmetry]; apply andb_false_iff; rewrite !Z.leb_gt; lia.
Qed.

Lemma letterMap_wellFormed s : isWellFormed (f <$> s) = isWellFormed s.
Proof.
  assert (H : ∀ n s, (length s ≤ n)%nat → isWellFormed (f <$> s) = isWellFormed s).
  { clear s. induction n as [|n IH]; intros s Hn.
    { destruct s; [done | simpl in Hn; lia]. }
    destruct s as [|u rest]; [done |].
    cbn [fmap list_fmap isWellFormed]. rewrite letterMap_high, letterMap_low.
    destruct (isHighSurrogate u).
    - destruct rest as [|l rest']; [done |].
      cbn [fmap list_fmap]. rewrite letterMap_low.
      change (list_fmap Z Z f rest') with (f <$> rest').
      rewrite IH by (simpl in Hn; lia). done.
    - change (list_fmap Z Z f rest) with (f <$> rest).
      rewrite IH by (simpl in Hn; lia). done. }
  by apply (H (length s)).
Qed.

Lemma letterMap_plainText s : plainText s → plainText (f <$> s).
Proof.
  intros (Hunits & Hwf & Hhead). split; [| split].
  - apply Forall_fmap. eapply Forall_impl; [exact Hunits |].
    intros c Hc. simpl. unfold isCodeUnit in *.
    destruct (f_letters c) as [-> | [_ Hfc]]; lia.
  - by rewrite letterMap_wellFormed.
  - destruct s as [|c s]; [done |]. simpl in *.
    intros Heq. injection Heq as Heq. apply Hhead. f_equal.
    destruct (f_letters c) as [Hsame | [_ Hfc]]; [by rewrite <- Hsame | lia].
Qed.

Lemma letterMap_nil s : s ≠ [] → f <$> s ≠ [].
Proof. by destruct s. Qed.

End LetterMap.

Lemma caesarChar_letters k : 0 ≤ k ≤ 25 → lettersToLetters (caesarChar k).
Proof.
  intros Hk c. unfold caesarChar, fromCharCode.
  char_cases c; [right | right | by left]; rem_lia.
Qed.

Lemma affineChar_letters a b : 0 ≤ a → 0 ≤ b → lettersToLetters (affineChar a b).
Proof.
  intros Ha Hb c. unfold affineChar, fromCharCode. cbv zeta.
  char_cases c; [right | right | by left].
  - assert (0 ≤ a * (c - 65) + b) by nia.
    generalize dependent (a * (c - 65) + b). intros. rem_lia.
  - assert (0 ≤ a * (c - 97) + b) by nia.
    generalize dependent (a * (c - 97) + b). intros. rem_lia.
Qed.

Lemma substitute_letters K : K ≡ₚ ALPHABET → lettersToLetters (substitute K).
Proof.
  intros HK c. unfold substitute.
  assert (Hlen : length K = 26%nat) by (by rewrite HK).
  assert (Hupper : ∀ i e, K !! i = Some e → 65 ≤ e ≤ 90).
  { intros i e He. apply matchUpper_spec, upper_elem_of_ALPHABET.
    rewrite <- HK. by eapply list_elem_of_lookup_2. }
  char_cases c; [right | right | by left].
  - destruct (lookup_lt_is_Some_2 K (Z.to_nat (c - 65))) as [e He]; [lia |].
    rewrite He. simpl. specialize (Hupper _ _ He). lia.
  - destruct (lookup_lt_is_Some_2 K (Z.to_nat (c - 97))) as [e He]; [lia |].
    rewrite He. simpl. specialize (Hupper _ _ He). unfold lowerChar.
    assert (matchUpper e = true) as -> by (by apply matchUpper_spec). lia.
Qed.

Lemma plainText_below s : Forall (λ c, 0 ≤ c < 55296) s → plainText s.
Proof.
  intros H. split; [| split].
  - eapply Forall_impl; [exact H |]. intros c Hc. unfold isCodeUnit. simpl in Hc. lia.
  - induction H as [|c s Hc _ IH]; [done |].
    cbn [isWellFormed]. unfold isHighSurrogate, isLowSurrogate.
    assert ((55296 <=? c) = false) as -> by (apply Z.leb_gt; lia).
    assert ((56320 <=? c) = false) as -> by (apply Z.leb_gt; lia).
    done.
  - destruct H as [|c s Hc _]; [done |]. simpl. intros Heq. injection Heq as ->. lia.
Qed.

(** *** One step of the registry *)

(** The entries of the registry, by identifier. *)
Lemma getAlgorithm_Some id found :
  getAlgorithm id = Some found → found ∈ algorithmData ∧ alg_id found = id.
Proof.
  unfold getAlgorithm. intros H.
  apply fmap_Some in H as ([i x] & Hfind & ->).
  apply list_find_Some in Hfind as (Hlookup & Hid & _).
  split; [by eapply list_elem_of_lookup_2 | done].
Qed.

Lemma registry_round_trip id found key text :
  getAlgorithm id = Some found → alg_keyValidator found key = true →
  plainText text →
  ∃ ciphertext,
    alg_encrypt found text key = Return ciphertext
    ∧ plainText ciphertext
    ∧ (text ≠ [] → ciphertext ≠ [])
    ∧ alg_decrypt found ciphertext key = Return text.
Proof.
  intros Hfound Hkey Htext.
  apply getAlgorithm_Some in Hfound as [Hin _].
  unfold algorithmData in Hin. rewrite !elem_of_cons, elem_of_nil in Hin.
  destruct Hin as [-> | [-> | [-> | [-> | []]]]];
    cbn [alg_encrypt alg_decrypt alg_keyValidator] in *.
  - destruct key as [n | | |]; try discriminate Hkey.
    exists (caesarEncrypt text n). cbn [withNumber].
    split; [done |].
    assert (Hn : 0 ≤ n ≤ 25).
    { unfold validateCaesarKey in Hkey. rewrite andb_true_iff, !Z.leb_le in Hkey. lia. }
    rewrite caesarEncrypt_map.
    split; [apply letterMap_plainText; [apply caesarChar_letters; rem_lia | done] |].
    split; [apply letterMap_nil |].
    rewrite <- caesarEncrypt_map. f_equal. by apply caesar_round_trip.
  - destruct key as [| | s |]; try discriminate Hkey. cbn [withString].
    destruct (aesText_round_trip text s false (stringToUint8Array s) Htext eq_refl)
      as (ciphertext & _ & Hbytes & Hlen & Hencrypt & Hdecrypt).
    { unfold validateAesKey in Hkey. unfold validKeyLength.
      rewrite !orb_true_iff, !Z.eqb_eq in Hkey. lia. }
    exists (uint8ArrayToHex ciphertext). split; [done |].
    split; [| split].
    + apply plainText_below. eapply Forall_impl; [by apply uint8ArrayToHex_digits |].
      intros c Hc. simpl in Hc. lia.
    + intros _ Hnil. apply (f_equal length) in Hnil.
      rewrite length_uint8ArrayToHex, Hlen in Hnil. simpl in Hnil. lia.
    + unfold aesRegistryDecrypt. by rewrite Hdecrypt.
  - destruct key as [| k | |]; try discriminate Hkey. cbn [withCoefficients].
    pose proof (affine_round_trip text k Hkey) as Hround.
    apply validateAffineKey_spec in Hkey as (Ha & Hb & Hgcd).
    rewrite affineEncrypt_map in Hround |- * by done.
    exists (affineChar (a k) (b k) <$> text). split; [done |].
    split; [apply letterMap_plainText; [apply affineChar_letters; lia | done] |].
    split; [apply letterMap_nil | exact Hround].
  - destruct key as [| | s |]; try discriminate Hkey. cbn [withString].
    pose proof (monoalphabetic_round_trip text s Hkey) as Hround.
    rewrite monoalphabeticEncrypt_map in Hround |- * by done.
    exists (substitute (toUpperCase s) <$> text). split; [done |].
    split; [apply letterMap_plainText;
            [by apply substitute_letters, validateMonoalphabeticKey_iff | done] |].
    split; [apply letterMap_nil | exact Hround].
Qed.

(** *** A whole run *)

Lemma chain_app keys mode acc l1 l2 :
  chain keys mode acc (l1 ++ l2) = chain keys mode (chain keys mode acc l1) l2.
Proof. unfold chain. apply foldl_app. Qed.

Lemma checkAllKeysValid_cons step rest keys :
  checkAllKeysValid (step :: rest) keys = true →
  (∃ found, getAlgorithm (entry_id step) = Some found
            ∧ alg_keyValidator found (keyOf keys (entry_id step)) = true)
  ∧ checkAllKeysValid rest keys = true.
Proof.
  unfold checkAllKeysValid. cbn [forallb]. rewrite andb_true_iff.
  fold (getAlgorithm (entry_id step)). intros [Hstep Hrest]. split; [| done].
  destruct (getAlgorithm (entry_id step)) as [found|]; [| done]. by exists found.
Qed.

(** With valid keys the steps applied in order give a text from which the
    same steps, applied in reverse in decrypt mode, give the first text
    back. *)
Lemma chain_round_trip keys algorithmOrder text :
  checkAllKeysValid algorithmOrder keys = true → plainText text →
  ∃ ciphertext,
    chain keys ModeEncrypt (Some text) algorithmOrder = Some ciphertext
    ∧ plainText ciphertext
    ∧ (text ≠ [] → ciphertext ≠ [])
    ∧ chain keys ModeDecrypt (Some ciphertext) (reverse algorithmOrder) = Some text.
Proof.
  revert text. induction algorithmOrder as [|step rest IH]; intros text Hkeys Htext.
  { by exists text. }
  apply checkAllKeysValid_cons in Hkeys as [(found & Hfound & Hkey) Hrest].
  destruct (registry_round_trip _ found _ text Hfound Hkey Htext)
    as (middle & Hencrypt & Hmiddle & Hne & Hdecrypt).
  destruct (IH middle Hrest Hmiddle) as (ciphertext & Hrun & Hplain & Hne' & Hback).
  exists ciphertext. split; [| split; [done | split; [auto |]]].
  - rewrite chain_cons. unfold applyStep. rewrite Hfound. cbn [mbind option_bind].
    by rewrite Hencrypt.
  - rewrite reverse_cons, chain_app, Hback.
    change (chain keys ModeDecrypt (Some middle) [step])
      with (applyStep keys ModeDecrypt middle step).
    unfold applyStep. rewrite Hfound. cbn [mbind option_bind]. by rewrite Hdecrypt.
Qed.

(** *** Letters stay letters *)

Lemma sameClass_fmap (f : Z → Z) (x : jsstring) :
  (∀ c, sameClass c (f c)) → Forall2 sameClass x (f <$> x).
Proof. intros Hf. apply Forall2_fmap_r, Forall_Forall2_diag, Forall_forall. auto. Qed.

Lemma caesarChar_sameClass k c : 0 ≤ k ≤ 25 → sameClass c (caesarChar k c).
Proof.
  intros Hk. unfold sameClass, caesarChar, fromCharCode.
  char_cases c; [apply matchUpper_spec | apply matchLower_spec | done]; rem_lia.
Qed.

Lemma affineChar_sameClass a b c : 0 ≤ a → 0 ≤ b → sameClass c (affineChar a b c).
Proof.
  intros Ha Hb. unfold sameClass, affineChar, fromCharCode. cbv zeta.
  char_cases c; [apply matchUpper_spec | apply matchLower_spec | done].
  - assert (0 ≤ a * (c - 65) + b) by nia.
    generalize dependent (a * (c - 65) + b). intros. rem_lia.
  - assert (0 ≤ a * (c - 97) + b) by nia.
    generalize dependent (a * (c - 97) + b). intros. rem_lia.
Qed.

Lemma inverseSearch_positive a m : 1 ≤ inverseSearch a m.
Proof.
  unfold inverseSearch.
  destruct (head (filter _ (seqZ 1 (m - 1)))) as [i|] eqn:Hhead; [| done].
  simpl. apply head_Some_elem_of, list_elem_of_filter in Hhead as [_ Hi].
  apply elem_of_seqZ in Hi. lia.
Qed.

Lemma affineCharInverse_sameClass i b c :
  0 ≤ i → b ≤ 26 → sameClass c (affineCharInverse i b c).
Proof.
  intros Hi Hb. unfold sameClass, affineCharInverse, fromCharCode. cbv zeta.
  char_cases c; [apply matchUpper_spec | apply matchLower_spec | done].
  - assert (0 ≤ i * (c - 65 - b + 26)) by nia.
    generalize dependent (i * (c - 65 - b + 26)). intros. rem_lia.
  - assert (0 ≤ i * (c - 97 - b + 26)) by nia.
    generalize dependent (i * (c - 97 - b + 26)). intros. rem_lia.
Qed.

Lemma substitute_sameClass K c : K ≡ₚ ALPHABET → sameClass c (substitute K c).
Proof.
  intros HK. unfold sameClass, substitute.
  assert (Hlen : length K = 26%nat) by (by rewrite HK).
  assert (Hupper : ∀ i e, K !! i = Some e → 65 ≤ e ≤ 90).
  { intros i e He. apply matchUpper_spec, upper_elem_of_ALPHABET.
    rewrite <- HK. by eapply list_elem_of_lookup_2. }
  char_cases c; [| | done].
  - destruct (lookup_lt_is_Some_2 K (Z.to_nat (c - 65))) as [e He]; [lia |].
    rewrite He. simpl. apply matchUpper_spec. eauto.
  - destruct (lookup_lt_is_Some_2 K (Z.to_nat (c - 97))) as [e He]; [lia |].
    rewrite He. simpl. specialize (Hupper _ _ He). unfold lowerChar.
    assert (matchUpper e = true) as -> by (by apply matchUpper_spec).
    apply matchLower_spec. lia.
Qed.

Lemma unsubstitute_sameClass K c : K ≡ₚ ALPHABET → sameClass c (unsubstitute K c).
Proof.
  intros HK. unfold sameClass, unsubstitute.
  char_cases c; [| | done].
  - destruct (K_index K HK c Hupper) as [Hrange _]. apply matchUpper_spec. lia.
  - destruct (K_index K HK (c - 32)) as [Hrange _]; [lia |]. apply matchLower_spec. lia.
Qed.

(** *** Hexadecimal text that is none *)

Lemma hexPairs_not_a_digit c1 c2 rest :
  hexDigit c1 = None → c1 ≠ 45 → c1 ≠ 43 →
  hexPairs (c1 :: c2 :: rest) = 0 :: hexPairs rest.
Proof.
  intros Hdigit Hminus Hplus. cbn [hexPairs]. f_equal.
  assert (Hparse : parseInt16 [c1; c2] = None); [| by rewrite Hparse].
  unfold parseInt16.
  assert (Hzero : c1 ≠ 48).
  { intros ->. discriminate Hdigit. }
  assert (match c1 :: [c2] with
          | 45 :: rest => (-1, rest)
          | 43 :: rest => (1, rest)
          | _ => (1, c1 :: [c2])
          end = (1, [c1; c2])) as ->.
  { repeat case_match; congruence. }
  assert (match [c1; c2] with
          | 48 :: 120 :: rest => rest
          | 48 :: 88 :: rest => rest
          | _ => [c1; c2]
          end = [c1; c2]) as ->.
  { repeat case_match; congruence. }
  cbn [hexPrefix]. by rewrite Hdigit.
Qed.

Lemma hexToUint8Array_spec hexStr :
  let hex := filter (λ c, isWhiteSpace c = false) hexStr in
  if Nat.even (length hex) then
    ∃ bytes, hexToUint8Array hexStr = Return bytes
             ∧ length bytes = (length hex `div` 2)%nat ∧ Forall isByte bytes
  else
    hexToUint8Array hexStr = Throw (str "Hex string must have an even number of characters").
Proof.
  intros hex. unfold hexToUint8Array. fold hex. cbv zeta.
  destruct (Nat.even (length hex)) eqn:Heven.
  - apply Nat.even_spec in Heven as [n Hn].
    assert ((Z.of_nat (length hex) `rem` 2 =? 0) = true) as ->
      by (apply Z.eqb_eq; rewrite Hn; rem_lia).
    cbn [negb]. eexists. split; [done |]. apply hexPairs_bytes.
  - assert (Hodd : Nat.odd (length hex) = true) by (by rewrite <- Nat.negb_even, Heven).
    apply Nat.odd_spec in Hodd as [n Hn].
    assert ((Z.of_nat (length hex) `rem` 2 =? 0) = false) as ->
      by (apply Z.eqb_neq; rewrite Hn; rem_lia).
    done.
Qed.



(** ** The codecs, the padding and the cipher: what they guarantee *)

(** X9.  [uint8ArrayToString] gives back the string [stringToUint8Array]
    was given when the string is well-formed (every surrogate has its
    partner) and does not start with U+FEFF; the bytes in between are all
    below 256.  The condition on the first character is needed: a byte
    order mark at the start of a well-formed string is lost on the way. *)
Theorem text_codec_round_trip :
  (∀ s : jsstring,
     plainText s →
     Forall isByte (stringToUint8Array s)
     ∧ uint8ArrayToString (stringToUint8Array s) = s)
  ∧ (∀ s : jsstring,
       plainText s → uint8ArrayToString (stringToUint8Array (65279 :: s)) = s).
Proof.
  split.
  - intros s Hs.
    split; [apply stringToUint8Array_bytes, Hs |
            by apply uint8ArrayToString_stringToUint8Array].
  - intros s Hs.
    change (stringToUint8Array (65279 :: s))
      with (239 :: 187 :: 191 :: stringToUint8Array s).
    pose proof (uint8ArrayToString_stringToUint8Array s Hs) as Hback.
    pose proof (stringToUint8Array_no_mark s) as Hmark.
    unfold uint8ArrayToString in *.
    destruct (stringToUint8Array s) as [|b1 bytes]; [done |].
    destruct (decide (b1 = 239)) as [-> |];
      [| by replace (match b1 :: bytes with
                     | 239 :: 187 :: 191 :: rest => rest
                     | _ => b1 :: bytes
                     end) with (b1 :: bytes) in Hback by (by repeat case_match)].
    destruct bytes as [|b2 bytes]; [done |].
    destruct (decide (b2 = 187)) as [-> |];
      [| by replace (match 239 :: b2 :: bytes with
                     | 239 :: 187 :: 191 :: rest => rest
                     | _ => 239 :: b2 :: bytes
                     end) with (239 :: b2 :: bytes) in Hback by (by repeat case_match)].
    destruct bytes as [|b3 bytes]; [done |].
    destruct (decide (b3 = 191)) as [-> |];
      [| by replace (match 239 :: 187 :: b3 :: bytes with
                     | 239 :: 187 :: 191 :: rest => rest
                     | _ => 239 :: 187 :: b3 :: bytes
                     end) with (239 :: 187 :: b3 :: bytes) in Hback
           by (by repeat case_match)].
    by specialize (Hmark bytes Hs).
Qed.

(** The code units of a text with an accented letter, a euro sign and a
    character outside the Basic Multilingual Plane. *)
Lemma text_codec_round_trip_witness :
  uint8ArrayToString (stringToUint8Array [72; 233; 8364; 55357; 56832])
  = [72; 233; 8364; 55357; 56832].
Proof.
  apply (proj1 text_codec_round_trip [72; 233; 8364; 55357; 56832]).
  split; [| split].
  - repeat constructor; unfold isCodeUnit; lia.
  - reflexivity.
  - discriminate.
Defined.

(** X10.  [hexToUint8Array] reads back the bytes [uint8ArrayToHex] wrote,
    and what [uint8ArrayToHex] writes is two characters for every byte, each
    a digit or a letter from a to f in lower case. *)
Theorem hex_codec_round_trip (bytes : list Z) :
  Forall isByte bytes →
  hexToUint8Array (uint8ArrayToHex bytes) = Return bytes
  ∧ length (uint8ArrayToHex bytes) = (2 * length bytes)%nat
  ∧ Forall (λ c, 48 ≤ c ≤ 57 ∨ 97 ≤ c ≤ 102) (uint8ArrayToHex bytes).
Proof.
  intros Hbytes.
  split; [by apply hexToUint8Array_uint8ArrayToHex |].
  split; [apply length_uint8ArrayToHex | by apply uint8ArrayToHex_digits].
Qed.

Lemma hex_codec_round_trip_witness :
  hexToUint8Array (uint8ArrayToHex [0; 9; 10; 171; 255]) = Return [0; 9; 10; 171; 255].
Proof.
  apply (hex_codec_round_trip [0; 9; 10; 171; 255]).
  repeat constructor; unfold isByte; lia.
Defined.

(** X11.  [hexToUint8Array] fails on one condition only: an odd number of
    characters once white space is removed.  Otherwise it returns one byte
    for every two characters, whatever the characters are; a pair whose
    first character is no hexadecimal digit and no sign is read as the
    byte 0 and not rejected. *)
Theorem hex_reader_rejects_odd_length_only :
  (∀ hexStr : jsstring,
     Nat.even (length (filter (λ c, isWhiteSpace c = false) hexStr)) = true →
     ∃ bytes, hexToUint8Array hexStr = Return bytes
              ∧ length bytes
                = (length (filter (λ c, isWhiteSpace c = false) hexStr) `div` 2)%nat
              ∧ Forall isByte bytes)
  ∧ (∀ hexStr : jsstring,
       Nat.even (length (filter (λ c, isWhiteSpace c = false) hexStr)) = false →
       hexToUint8Array hexStr
       = Throw (str "Hex string must have an even number of characters"))
  ∧ (∀ (c1 c2 : Z) (rest : jsstring),
       hexDigit c1 = None → c1 ≠ 45 → c1 ≠ 43 →
       hexPairs (c1 :: c2 :: rest) = 0 :: hexPairs rest).
Proof.
  split; [| split].
  - intros hexStr Heven. pose proof (hexToUint8Array_spec hexStr) as H.
    cbv zeta in H. by rewrite Heven in H.
  - intros hexStr Hodd. pose proof (hexToUint8Array_spec hexStr) as H.
    cbv zeta in H. by rewrite Hodd in H.
  - apply hexPairs_not_a_digit.
Qed.

Lemma hex_reader_rejects_odd_length_only_witness :
  (∃ bytes, hexToUint8Array (str "zz 0f") = Return bytes
            ∧ length bytes
              = (length (filter (λ c, isWhiteSpace c = false) (str "zz 0f")) `div` 2)%nat
            ∧ Forall isByte bytes)
  ∧ hexToUint8Array (str "abc")
    = Throw (str "Hex string must have an even number of characters")
  ∧ hexPairs (str "zz0f") = 0 :: hexPairs (str "0f").
Proof.
  destruct hex_reader_rejects_odd_length_only as (Heven & Hodd & Hpair).
  split; [apply Heven; vm_compute; reflexivity |].
  split; [apply Hodd; vm_compute; reflexivity |].
  apply (Hpair 122 122 (str "0f")); [reflexivity | discriminate | discriminate].
Defined.

(** X12.  [padPKCS7] appends between 1 and 16 bytes, each holding their
    number, and the result fills whole blocks: a text whose length is a
    multiple of 16 gets a block of sixteen bytes 16. *)
Theorem padding_fills_the_last_block (data : list Z) :
  padPKCS7 data
  = data ++ replicate (padLength (length data)) (Z.of_nat (padLength (length data)))
  ∧ (1 ≤ padLength (length data) ≤ 16)%nat
  ∧ length (padPKCS7 data) = (16 * (length data `div` 16 + 1))%nat
  ∧ (length data `mod` 16 = 0 → padLength (length data) = 16)%nat.
Proof.
  split; [apply padPKCS7_eq |]. split; [apply padLength_range |].
  split; [apply length_padPKCS7 |]. unfold padLength. lia.
Qed.

Lemma padding_fills_the_last_block_witness :
  padLength (length (newUint8Array 32)) = 16%nat.
Proof. apply (padding_fills_the_last_block (newUint8Array 32)). reflexivity. Defined.

(** X13.  On bytes, [unpadPKCS7] returns exactly when the data are not
    empty, fill whole blocks, and end in [p] bytes of value [p] for the
    [p] at most 16 that the last byte holds; what it returns is the data
    without these [p] bytes.  [p] may be 0, and the bytes before the last
    [p] are not looked at. *)
Theorem unpadding_characterised (data result : list Z) :
  Forall isByte data →
  unpadPKCS7 data = Return result
  ↔ data ≠ [] ∧ Z.of_nat (length data) `rem` 16 = 0
    ∧ ∃ p : nat, (p ≤ 16)%nat ∧ last data = Some (Z.of_nat p)
                 ∧ data = result ++ replicate p (Z.of_nat p).
Proof. apply unpadPKCS7_Return. Qed.

Lemma unpadding_characterised_witness :
  unpadPKCS7 ([1; 2; 3; 4; 5; 6; 7; 8; 9; 10; 11; 12; 13] ++ replicate 3 3)
  = Return [1; 2; 3; 4; 5; 6; 7; 8; 9; 10; 11; 12; 13].
Proof.
  apply (proj2 (unpadding_characterised
                  ([1; 2; 3; 4; 5; 6; 7; 8; 9; 10; 11; 12; 13] ++ replicate 3 3)
                  [1; 2; 3; 4; 5; 6; 7; 8; 9; 10; 11; 12; 13]
                  ltac:(repeat constructor; unfold isByte; lia))).
  split; [discriminate |]. split; [reflexivity |].
  exists 3%nat. split; [lia |]. split; reflexivity.
Defined.

(** X14.  With a key of 16, 24 or 32 bytes [aesEncrypt] returns
    [16 * (n / 16 + 1)] bytes for a text of [n] bytes, and every block of
    them is [aesEncryptBlock] of the block of the padded text at the same
    place: blocks are encrypted independently of each other (ECB), so equal
    blocks of text give equal blocks of ciphertext. *)
Theorem aes_blocks_encrypted_independently (plaintext key : list Z) :
  Forall isByte plaintext → validKeyLength key →
  ∃ ciphertext,
    aesEncrypt plaintext key = Return ciphertext
    ∧ length ciphertext = (16 * (length plaintext `div` 16 + 1))%nat
    ∧ Forall isByte ciphertext
    ∧ (∀ j, 0 ≤ j ≤ Z.of_nat (length plaintext `div` 16) →
         aesEncryptBlock (blockAt (padPKCS7 plaintext) j) key
         = Return (blockAt ciphertext j))
    ∧ (∀ i j, 0 ≤ i ≤ Z.of_nat (length plaintext `div` 16) →
         0 ≤ j ≤ Z.of_nat (length plaintext `div` 16) →
         blockAt (padPKCS7 plaintext) i = blockAt (padPKCS7 plaintext) j →
         blockAt ciphertext i = blockAt ciphertext j).
Proof.
  intros Hbytes Hkey.
  destruct (aesEncrypt_blocks plaintext key Hbytes Hkey)
    as (ciphertext & Hrun & Hlen & Hcbytes & Hblocks).
  exists ciphertext. do 4 (split; [done |]).
  intros i j Hi Hj Hsame.
  pose proof (Hblocks i Hi) as Hbi. pose proof (Hblocks j Hj) as Hbj.
  rewrite Hsame in Hbi. congruence.
Qed.

Lemma aes_blocks_encrypted_independently_witness :
  ∃ ciphertext,
    aesEncrypt (newUint8Array 32) (newUint8Array 16) = Return ciphertext
    ∧ length ciphertext = 48%nat
    ∧ blockAt ciphertext 0 = blockAt ciphertext 1.
Proof.
  destruct (aes_blocks_encrypted_independently (newUint8Array 32) (newUint8Array 16))
    as (ciphertext & Hrun & Hlen & _ & _ & Hsame).
  - apply Forall_replicate. unfold isByte. lia.
  - left. reflexivity.
  - exists ciphertext. split; [done |]. split; [done |].
    apply Hsame; [simpl; lia | simpl; lia | reflexivity].
Defined.

(** X15.  The failures of the AES functions, in the order of their checks.
    A block function first rejects data that are not 16 bytes, then a key
    that is not 16, 24 or 32 bytes.  [aesEncrypt] throws for such a key
    whatever the text, the empty one included.  [aesDecrypt] first rejects
    a length that is no multiple of 16; an empty ciphertext gets past that
    test and fails in the unpadding, without the key being looked at; any
    other ciphertext under such a key fails on the key. *)
Theorem aes_failures :
  (∀ data key : list Z,
     length data ≠ 16%nat →
     aesEncryptBlock data key = Throw (str "Plaintext must be 16 bytes (128 bits)")
     ∧ aesDecryptBlock data key = Throw (str "Ciphertext must be 16 bytes (128 bits)"))
  ∧ (∀ data key : list Z,
       length data = 16%nat → ¬ validKeyLength key →
       aesEncryptBlock data key = Throw invalidKeyLength
       ∧ aesDecryptBlock data key = Throw invalidKeyLength)
  ∧ (∀ plaintext key : list Z,
       ¬ validKeyLength key → aesEncrypt plaintext key = Throw invalidKeyLength)
  ∧ (∀ ciphertext key : list Z,
       Z.of_nat (length ciphertext) `rem` 16 ≠ 0 →
       aesDecrypt ciphertext key
       = Throw (str "Ciphertext length must be a multiple of 16 bytes"))
  ∧ (∀ key : list Z, aesDecrypt [] key = Throw (str "Invalid padded data length"))
  ∧ (∀ ciphertext key : list Z,
       ciphertext ≠ [] → Z.of_nat (length ciphertext) `rem` 16 = 0 →
       ¬ validKeyLength key → aesDecrypt ciphertext key = Throw invalidKeyLength).
Proof.
  split; [| split; [exact aesBlock_invalid_key |
            split; [exact aesEncrypt_throws |
            split; [| split; [reflexivity | exact aesDecrypt_throws]]]]].
  - intros data key Hlen. unfold aesEncryptBlock, aesDecryptBlock.
    assert ((Z.of_nat (length data) =? 16) = false) as -> by (apply Z.eqb_neq; lia).
    done.
  - intros ciphertext key Hlen. unfold aesDecrypt.
    by apply Z.eqb_neq in Hlen as ->.
Qed.

Lemma aes_failures_witness :
  aesEncryptBlock [1; 2; 3] [] = Throw (str "Plaintext must be 16 bytes (128 bits)")
  ∧ aesEncrypt [] [1; 2; 3] = Throw invalidKeyLength
  ∧ aesDecrypt [1; 2; 3] [] = Throw (str "Ciphertext length must be a multiple of 16 bytes")
  ∧ aesDecrypt (newUint8Array 16) [1; 2; 3] = Throw invalidKeyLength.
Proof.
  destruct aes_failures as (Hsize & _ & Hencrypt & Hlength & _ & Hdecrypt).
  split; [apply (Hsize [1; 2; 3] []); discriminate |].
  split; [apply Hencrypt; unfold validKeyLength; simpl; lia |].
  split; [apply Hlength; discriminate |].
  apply Hdecrypt; [discriminate | reflexivity | unfold validKeyLength; simpl; lia].
Defined.

(** X16.  [aesEncryptText] and [aesDecryptText] on a text.  When the key
    text, read as characters or as hexadecimal digits, gives 16, 24 or 32
    bytes, a well-formed text that does not start with U+FEFF is encrypted
    to [32 * (n / 16 + 1)] lower-case hexadecimal digits, [n] being the
    number of its UTF-8 bytes, and decrypting these digits with the same
    key gives the text back.  For a key given as characters
    [validateAesKey] says exactly whether [aesEncryptText] returns. *)
Theorem aes_text_round_trip :
  (∀ (text keyText : jsstring) (isHexKey : bool) (keyBytes : list Z),
     plainText text →
     keyBytesOf keyText isHexKey = Return keyBytes → validKeyLength keyBytes →
     ∃ hex,
       aesEncryptText text keyText isHexKey = Return hex
       ∧ length hex = (32 * (length (stringToUint8Array text) `div` 16 + 1))%nat
       ∧ Forall (λ c, 48 ≤ c ≤ 57 ∨ 97 ≤ c ≤ 102) hex
       ∧ aesDecryptText hex keyText isHexKey = Return text)
  ∧ (∀ text key : jsstring,
       Forall isCodeUnit text →
       validateAesKey key = true
       ↔ ∃ hex, aesEncryptText text key false = Return hex).
Proof.
  split.
  - intros text keyText isHexKey keyBytes Htext HkeyBytes Hkey.
    destruct (aesText_round_trip text keyText isHexKey keyBytes Htext HkeyBytes Hkey)
      as (ciphertext & _ & Hbytes & Hlen & Hencrypt & Hdecrypt).
    exists (uint8ArrayToHex ciphertext). split; [done |].
    split; [rewrite length_uint8ArrayToHex, Hlen; lia |].
    split; [by apply uint8ArrayToHex_digits | done].
  - intros text key Htext. split.
    + intros Hkey.
      destruct (aesEncrypt_blocks (stringToUint8Array text) (stringToUint8Array key))
        as (ciphertext & Hrun & _).
      { by apply stringToUint8Array_bytes. }
      { unfold validateAesKey in Hkey. unfold validKeyLength.
        rewrite !orb_true_iff, !Z.eqb_eq in Hkey. lia. }
      exists (uint8ArrayToHex ciphertext).
      unfold aesEncryptText, keyBytesOf. cbn [mbind outcome_bind]. by rewrite Hrun.
    + intros [hex Hrun]. destruct (validateAesKey key) eqn:Hkey; [done |].
      destruct (aesEncryptText_invalid_key text key Hkey) as [message Hthrow].
      congruence.
Qed.

Lemma aes_text_round_trip_witness :
  ∃ hex,
    aesEncryptText (str "Hello") (str "000102030405060708090a0b0c0d0e0f") true
    = Return hex
    ∧ length hex = 32%nat
    ∧ aesDecryptText hex (str "000102030405060708090a0b0c0d0e0f") true
      = Return (str "Hello").
Proof.
  destruct (proj1 aes_text_round_trip (str "Hello")
              (str "000102030405060708090a0b0c0d0e0f") true
              [0; 1; 2; 3; 4; 5; 6; 7; 8; 9; 10; 11; 12; 13; 14; 15])
    as (hex & Hrun & Hlen & _ & Hback).
  - split; [| split; [reflexivity | discriminate]].
    repeat constructor; unfold isCodeUnit; lia.
  - vm_compute. reflexivity.
  - left. reflexivity.
  - exists hex. split; [done |]. split; [exact Hlen | done].
Defined.

(** X17.  On blocks of sixteen bytes and under a key of 16, 24 or 32 bytes,
    [aesEncryptBlock] and [aesDecryptBlock] return blocks and undo each
    other in both orders: each is a one-to-one mapping of the blocks onto
    themselves. *)
Theorem aes_block_functions_are_inverse (data key : list Z) :
  block data → validKeyLength key →
  (∃ ciphertext,
     aesEncryptBlock data key = Return ciphertext
     ∧ block ciphertext
     ∧ aesDecryptBlock ciphertext key = Return data)
  ∧ (∃ plaintext,
       aesDecryptBlock data key = Return plaintext
       ∧ block plaintext
       ∧ aesEncryptBlock plaintext key = Return data).
Proof.
  intros Hdata Hkey.
  split; [by apply block_round_trip | by apply block_reverse_round_trip].
Qed.

Lemma aes_block_functions_are_inverse_witness :
  ∃ plaintext,
    aesDecryptBlock (newUint8Array 16) (newUint8Array 24) = Return plaintext
    ∧ block plaintext
    ∧ aesEncryptBlock plaintext (newUint8Array 24) = Return (newUint8Array 16).
Proof.
  apply (aes_block_functions_are_inverse (newUint8Array 16) (newUint8Array 24)).
  - split; [reflexivity |]. apply Forall_replicate. unfold isByte. lia.
  - right. left. reflexivity.
Defined.

(** X18.  The two tables [SBOX] and [INV_SBOX] hold 256 bytes each and are
    inverse to each other: looking a byte up in one and the result in the
    other gives the byte back, in both orders. *)
Theorem sbox_tables_are_inverse (x : Z) :
  isByte x →
  isByte (get SBOX x) ∧ isByte (get INV_SBOX x)
  ∧ get INV_SBOX (get SBOX x) = x ∧ get SBOX (get INV_SBOX x) = x.
Proof.
  intros Hx.
  split; [by apply sbox_range |]. split; [by apply inv_sbox_range |].
  split; [by apply sbox_inverse | by apply sbox_of_inverse].
Qed.

Lemma sbox_tables_are_inverse_witness :
  get INV_SBOX (get SBOX 83) = 83 ∧ get SBOX (get INV_SBOX 83) = 83.
Proof.
  apply (sbox_tables_are_inverse 83). unfold isByte. lia.
Defined.

(** X19.  For a key of 16, 24 or 32 bytes [keyExpansion] returns
    [16 * (nr + 1)] bytes, that is 176, 208 or 240, which start with the
    key itself; so the key of round 0 is the first sixteen bytes of the
    cipher key. *)
Theorem key_schedule_starts_with_the_key (key : list Z) (params : AESKeyParams) :
  Forall isByte key → getKeyParams (Z.of_nat (length key)) = Return params →
  length (keyExpansion key params) = Z.to_nat (16 * (nr params + 1))
  ∧ Forall isByte (keyExpansion key params)
  ∧ take (length key) (keyExpansion key params) = key
  ∧ roundKeyAt (keyExpansion key params) 0 = take 16 key.
Proof.
  intros Hbytes Hparams.
  destruct (keyExpansion_bytes key params) as [Hlen Hall].
  pose proof (keyExpansion_prefix key params Hparams) as Hprefix.
  assert (Hsame : u8 <$> key = key).
  { rewrite <- (list_fmap_id key) at 2. apply Forall_fmap_ext_1.
    eapply Forall_impl; [exact Hbytes |]. intros x Hx. by apply u8_byte. }
  rewrite Hsame in Hprefix.
  split; [rewrite Hlen; f_equal; lia |]. split; [done |]. split; [done |].
  assert (H16 : (16 ≤ length key)%nat).
  { unfold getKeyParams in Hparams.
    repeat match type of Hparams with
           | (if ?c then _ else _) = _ =>
               let H := fresh in destruct c eqn:H;
               [apply Z.eqb_eq in H; lia |]
           end.
    done. }
  unfold roundKeyAt, subarray. change (Z.to_nat (0 * 16)) with 0%nat.
  change (Z.to_nat ((0 + 1) * 16 - 0 * 16)) with 16%nat. rewrite drop_0.
  rewrite <- Hprefix at 2. rewrite take_take. f_equal. lia.
Qed.

Lemma key_schedule_starts_with_the_key_witness :
  length (keyExpansion (newUint8Array 24) {| keySize := 192; nk := 6; nr := 12 |})
  = 208%nat
  ∧ take 24 (keyExpansion (newUint8Array 24) {| keySize := 192; nk := 6; nr := 12 |})
    = newUint8Array 24.
Proof.
  destruct (key_schedule_starts_with_the_key (newUint8Array 24)
              {| keySize := 192; nk := 6; nr := 12 |})
    as (Hlen & _ & Hprefix & _).
  - apply Forall_replicate. unfold isByte. lia.
  - reflexivity.
  - split; [exact Hlen | exact Hprefix].
Defined.

(** X20.  On a block of sixteen bytes each transformation of a round is
    undone by its inverse, in both orders: [subBytes] and [invSubBytes],
    [shiftRows] and [invShiftRows], [mixColumns] and [invMixColumns]; and
    [addRoundKey] with the same round key undoes itself. *)
Theorem round_transformations_are_inverse (st k : list Z) :
  block st → block k →
  invSubBytes (subBytes st) = st ∧ subBytes (invSubBytes st) = st
  ∧ invShiftRows (shiftRows st) = st ∧ shiftRows (invShiftRows st) = st
  ∧ invMixColumns (mixColumns st) = st ∧ mixColumns (invMixColumns st) = st
  ∧ addRoundKey (addRoundKey st k) k = st.
Proof.
  intros Hst Hk.
  split; [| split; [| split; [| split; [| split; [by apply mixColumns_inverse |
    split; [by apply mixColumns_of_inverse | by apply addRoundKey_involutive]]]]]].
  - clear Hk. block_cases Hst. rewrite subBytes_16. cbn [fmap list_fmap].
    rewrite invSubBytes_16. cbn [fmap list_fmap].
    rewrite !u8_byte by bytes. rewrite !sbox_inverse by bytes. reflexivity.
  - clear Hk. block_cases Hst. rewrite invSubBytes_16. cbn [fmap list_fmap].
    rewrite subBytes_16. cbn [fmap list_fmap].
    rewrite !u8_byte by bytes. rewrite !sbox_of_inverse by bytes. reflexivity.
  - clear Hk. block_cases Hst. rewrite shiftRows_16, invShiftRows_16.
    rewrite !u8_byte by bytes. reflexivity.
  - clear Hk. block_cases Hst. rewrite invShiftRows_16, shiftRows_16.
    rewrite !u8_byte by bytes. reflexivity.
Qed.

Lemma round_transformations_are_inverse_witness :
  invMixColumns (mixColumns (seqZ 0 16)) = seqZ 0 16
  ∧ shiftRows (invShiftRows (seqZ 0 16)) = seqZ 0 16.
Proof.
  destruct (round_transformations_are_inverse (seqZ 0 16) (seqZ 16 16))
    as (_ & _ & _ & Hshift & Hmix & _).
  - split; [reflexivity |]. apply Forall_forall. intros x Hx.
    apply elem_of_seqZ in Hx. unfold isByte. lia.
  - split; [reflexivity |]. apply Forall_forall. intros x Hx.
    apply elem_of_seqZ in Hx. unfold isByte. lia.
  - split; [exact Hmix | exact Hshift].
Defined.

(** X21.  [gmul] on bytes.  Its result is a byte; 1 is neutral and 0
    absorbing on both sides; multiplying by 2 doubles the byte and, when
    the byte is 128 or more, reduces by the polynomial 0x11b; multiplying by
    3 is multiplying by 2 and adding the byte; and for the six multipliers
    of [mixColumns] and [invMixColumns] the product distributes over the
    addition of the field, the exclusive or. *)
Theorem field_multiplication (x y : Z) :
  isByte x → isByte y →
  (∀ a b, isByte (gmul a b))
  ∧ gmul 1 x = x ∧ gmul x 1 = x ∧ gmul 0 x = 0 ∧ gmul x 0 = 0
  ∧ gmul 2 x = (if x <? 128 then 2 * x else Z.lxor (2 * x - 256) 27)
  ∧ gmul 3 x = Z.lxor (gmul 2 x) x
  ∧ (∀ c, mixConstant c → gmul c (Z.lxor x y) = Z.lxor (gmul c x) (gmul c y)).
Proof.
  intros Hx Hy. split; [apply gmul_byte |].
  assert (H : ((gmul 1 x =? x) && (gmul x 1 =? x) && (gmul 0 x =? 0) && (gmul x 0 =? 0)
               && (gmul 2 x =? (if x <? 128 then 2 * x else Z.lxor (2 * x - 256) 27))
               && (gmul 3 x =? Z.lxor (gmul 2 x) x)) = true).
  { apply (forallb_seqZ
             (λ x, (gmul 1 x =? x) && (gmul x 1 =? x) && (gmul 0 x =? 0)
                   && (gmul x 0 =? 0)
                   && (gmul 2 x =? (if x <? 128 then 2 * x else Z.lxor (2 * x - 256) 27))
                   && (gmul 3 x =? Z.lxor (gmul 2 x) x)) 0 256); [| exact Hx].
    vm_compute. reflexivity. }
  rewrite !andb_true_iff, !Z.eqb_eq in H.
  destruct H as (((((H1 & H2) & H3) & H4) & H5) & H6).
  do 6 (split; [done |]).
  intros c Hc. by apply gmul_lxor.
Qed.

Lemma field_multiplication_witness :
  gmul 2 200 = Z.lxor (2 * 200 - 256) 27
  ∧ gmul 14 (Z.lxor 200 7) = Z.lxor (gmul 14 200) (gmul 14 7).
Proof.
  destruct (field_multiplication 200 7) as (_ & _ & _ & _ & _ & Hdouble & _ & Hlinear).
  - unfold isByte. lia.
  - unfold isByte. lia.
  - split; [exact Hdouble |]. apply Hlinear. apply mixConstant_cases.
Defined.

(** ** The registry, the key input and the selector *)

(** *** The registry *)

Lemma registry_ids :
  alg_id <$> algorithmData
  = [str "caesar"; str "aes"; str "affine"; str "monoalphabetic"].
Proof. reflexivity. Qed.

Lemma getAlgorithm_known id :
  id ∈ [str "caesar"; str "aes"; str "affine"; str "monoalphabetic"] →
  ∃ found, getAlgorithm id = Some found ∧ alg_id found = id.
Proof.
  rewrite !elem_of_cons, elem_of_nil.
  intros [-> | [-> | [-> | [-> | []]]]]; eexists; split; reflexivity.
Qed.

Lemma getAlgorithm_ids id :
  is_Some (getAlgorithm id)
  ↔ id ∈ [str "caesar"; str "aes"; str "affine"; str "monoalphabetic"].
Proof.
  split.
  - intros [found Hfound]. apply getAlgorithm_Some in Hfound as [Hin <-].
    rewrite <- registry_ids. by apply list_elem_of_fmap_2.
  - intros Hid. destruct (getAlgorithm_known id Hid) as (found & -> & _). by eexists.
Qed.

Lemma getAlgorithm_elem_of algo :
  algo ∈ algorithmData → getAlgorithm (alg_id algo) = Some algo.
Proof.
  unfold algorithmData. rewrite !elem_of_cons, elem_of_nil.
  intros [-> | [-> | [-> | [-> | []]]]]; reflexivity.
Qed.

(** *** Keys made by the program *)

Lemma getDefaultKey_valid roll id found :
  (∀ i, 1 ≤ i ≤ 25 → 0 ≤ roll i ≤ i) →
  getAlgorithm id = Some found →
  ∃ key, getDefaultKey roll id = Some key
         ∧ (id ≠ str "aes" → alg_keyValidator found key = true).
Proof.
  intros Hroll Hfound. apply getAlgorithm_Some in Hfound as [Hin <-].
  unfold algorithmData in Hin. rewrite !elem_of_cons, elem_of_nil in Hin.
  destruct Hin as [-> | [-> | [-> | [-> | []]]]]; cbn [alg_id alg_keyValidator];
    (eexists; split; [reflexivity |]); intros Hid; try done.
  by apply generateRandomKey_valid.
Qed.

Lemma getDefaultKey_unknown roll id :
  getAlgorithm id = None → getDefaultKey roll id = None.
Proof.
  intros Hnone.
  assert (Hid : id ∉ [str "caesar"; str "aes"; str "affine"; str "monoalphabetic"]).
  { intros Hid. apply getAlgorithm_ids in Hid as [found Hfound]. congruence. }
  rewrite !not_elem_of_cons in Hid. destruct Hid as (H1 & H2 & H3 & H4 & _).
  unfold getDefaultKey. by rewrite !bool_decide_eq_false_2 by done.
Qed.

(** *** Keys made by the key input *)

Lemma stringToUint8Array_ascii s :
  Forall (λ c, 0 ≤ c < 128) s → stringToUint8Array s = s.
Proof.
  unfold stringToUint8Array. induction 1 as [|c s Hc _ IH]; [done |].
  cbn [toCodePoints]. unfold isHighSurrogate, isLowSurrogate.
  assert ((55296 <=? c) = false) as -> by (apply Z.leb_gt; lia).
  assert ((56320 <=? c) = false) as -> by (apply Z.leb_gt; lia).
  cbn [andb mbind list_bind]. rewrite encodeCodePoint_1 by lia.
  cbn [app]. f_equal. exact IH.
Qed.

Lemma ALPHABET_ascii : Forall (λ c, 0 ≤ c < 128) ALPHABET.
Proof.
  apply Forall_forall. intros c Hc. rewrite ALPHABET_seqZ, elem_of_seqZ in Hc. lia.
Qed.

Lemma shuffle_rejected_by_aes (roll : Z → Z) :
  (∀ i, 1 ≤ i ≤ 25 → 0 ≤ roll i ≤ i) →
  length (stringToUint8Array (generateRandomKey roll)) = 26%nat
  ∧ validateAesKey (generateRandomKey roll) = false.
Proof.
  intros Hroll. pose proof (generateRandomKey_Permutation roll Hroll) as Hperm.
  assert (Hbytes : stringToUint8Array (generateRandomKey roll) = generateRandomKey roll).
  { apply stringToUint8Array_ascii. rewrite Hperm. apply ALPHABET_ascii. }
  assert (Hlen : length (generateRandomKey roll) = 26%nat) by (by rewrite Hperm).
  unfold validateAesKey. cbv zeta. rewrite Hbytes, Hlen. done.
Qed.

Lemma validA_lookup (n : Z) :
  0 ≤ n < 12 → default 0 (validA !! Z.to_nat n) ∈ validA.
Proof.
  intros Hn. destruct (lookup_lt_is_Some_2 validA (Z.to_nat n)) as [x Hx].
  { change (length validA) with 12%nat. lia. }
  rewrite Hx. simpl. by eapply list_elem_of_lookup_2.
Qed.

Lemma handleGenerateRandomKey_spec random id found :
  inRange random → getAlgorithm id = Some found →
  ∃ key, handleGenerateRandomKey random id = Some key
         ∧ alg_keyValidator found key = bool_decide (id ≠ str "aes").
Proof.
  intros Hrandom Hfound. apply getAlgorithm_Some in Hfound as [Hin <-].
  assert (Hroll : ∀ i, 1 ≤ i ≤ 25 → 0 ≤ random (Z.to_nat (25 - i)) (i + 1) ≤ i).
  { intros i Hi. pose proof (Hrandom (Z.to_nat (25 - i)) (i + 1)). lia. }
  unfold algorithmData in Hin. rewrite !elem_of_cons, elem_of_nil in Hin.
  destruct Hin as [-> | [-> | [-> | [-> | []]]]]; cbn [alg_id alg_keyValidator];
    (eexists; split; [reflexivity |]).
  - pose proof (Hrandom 0%nat 26). unfold validateCaesarKey.
    rewrite bool_decide_eq_true_2 by done.
    apply andb_true_iff. rewrite !Z.leb_le. lia.
  - rewrite bool_decide_eq_false_2 by (by intros []).
    by apply shuffle_rejected_by_aes.
  - rewrite bool_decide_eq_true_2 by done.
    apply validateAffineKey_iff. cbn [a b].
    pose proof (Hrandom 0%nat 12). pose proof (Hrandom 1%nat 26).
    split; [apply validA_lookup; change (Z.of_nat (length validA)) with 12; lia | lia].
  - rewrite bool_decide_eq_true_2 by done. by apply generateRandomKey_valid.
Qed.

Lemma aesKeyChars_ascii : Forall (λ c, 0 ≤ c < 128) aesKeyChars.
Proof.
  apply Forall_forall. intros c Hc.
  assert (H : (0 <=? c) && (c <? 128) = true).
  { apply (proj1 (forallb_forall (λ c, (0 <=? c) && (c <? 128)) aesKeyChars));
      [vm_compute; reflexivity | by apply list_elem_of_In]. }
  apply andb_true_iff in H as [H1 H2]. lia.
Qed.

Lemma generateAesKey_chars random size :
  inRange random → 0 ≤ size →
  length (generateAesKey random size) = Z.to_nat size
  ∧ Forall (λ c, c ∈ aesKeyChars) (generateAesKey random size).
Proof.
  intros Hrandom Hsize. unfold generateAesKey.
  pose proof (forLoop_indexed
    (λ i key, length key = Z.to_nat i ∧ Forall (λ c, c ∈ aesKeyChars) key)
    0 size
    (λ i key,
       key ++ charAtString aesKeyChars
                (random (Z.to_nat i) (Z.of_nat (length aesKeyChars))))
    []) as H.
  apply H; [done | done |]. clear H.
  intros i key Hi [Hlen Hall].
  pose proof (Hrandom (Z.to_nat i) (Z.of_nat (length aesKeyChars))) as Hr.
  change (Z.of_nat (length aesKeyChars)) with 72 in *. specialize (Hr ltac:(lia)).
  unfold charAtString.
  assert ((random (Z.to_nat i) 72 <? 0) = false) as -> by (apply Z.ltb_ge; lia).
  destruct (lookup_lt_is_Some_2 aesKeyChars (Z.to_nat (random (Z.to_nat i) 72)))
    as [x Hx].
  { change (length aesKeyChars) with 72%nat. lia. }
  rewrite Hx. simpl. split.
  - rewrite length_app. simpl. lia.
  - apply Forall_app. split; [done |].
    apply Forall_singleton. by eapply list_elem_of_lookup_2.
Qed.

Lemma generateAesKey_valid random size :
  inRange random → 0 ≤ size →
  length (stringToUint8Array (generateAesKey random size)) = Z.to_nat size
  ∧ (validateAesKey (generateAesKey random size) = true
     ↔ size = 16 ∨ size = 24 ∨ size = 32).
Proof.
  intros Hrandom Hsize.
  destruct (generateAesKey_chars random size Hrandom Hsize) as [Hlen Hchars].
  assert (Hbytes : stringToUint8Array (generateAesKey random size)
                   = generateAesKey random size).
  { apply stringToUint8Array_ascii. eapply Forall_impl; [exact Hchars |].
    intros c Hc. simpl in Hc.
    by apply (proj1 (Forall_forall _ _) aesKeyChars_ascii). }
  rewrite Hbytes. split; [done |].
  unfold validateAesKey. cbv zeta. rewrite Hbytes, Hlen.
  rewrite !orb_true_iff, !Z.eqb_eq. lia.
Qed.

(** *** The order kept by the selector *)

Lemma existsb_id (selectedAlgorithms : AlgorithmOrder) (id : jsstring) :
  existsb (λ item, bool_decide (entry_id item = id)) selectedAlgorithms = true
  ↔ id ∈ entry_id <$> selectedAlgorithms.
Proof.
  rewrite existsb_exists, list_elem_of_fmap. split.
  - intros (item & Hin & Hid). apply bool_decide_eq_true in Hid.
    exists item. split; [done | by apply list_elem_of_In].
  - intros (item & -> & Hin). exists item.
    split; [by apply list_elem_of_In | by apply bool_decide_eq_true].
Qed.

Lemma handleRemoveAlgorithm_ids selectedAlgorithms id :
  entry_id <$> handleRemoveAlgorithm selectedAlgorithms id
  = filter (λ i, i ≠ id) (entry_id <$> selectedAlgorithms).
Proof.
  unfold handleRemoveAlgorithm.
  induction selectedAlgorithms as [|item rest IH]; [done |].
  cbn [fmap list_fmap]. destruct (decide (entry_id item = id)) as [Heq | Hne].
  - rewrite !filter_cons_False by (intros H; by apply H). exact IH.
  - rewrite !filter_cons_True by done. cbn [fmap list_fmap]. f_equal. exact IH.
Qed.

Lemma filter_all {A : Type} (P : A → Prop) `{∀ x, Decision (P x)} (l : list A) :
  Forall P l → filter P l = l.
Proof.
  induction 1 as [|x l Hx _ IH]; [done |]. rewrite filter_cons_True by done. by rewrite IH.
Qed.

Lemma fromRegistry_add selectedAlgorithms algo newOrder :
  fromRegistry selectedAlgorithms → algo ∈ algorithmData →
  handleAddAlgorithm selectedAlgorithms algo = Some newOrder →
  fromRegistry newOrder
  ∧ handleRemoveAlgorithm newOrder (alg_id algo) = selectedAlgorithms.
Proof.
  intros [Hnodup Hall] Halgo. unfold handleAddAlgorithm.
  destruct (existsb _ selectedAlgorithms) eqn:Hsome; [done |].
  intros [= <-].
  assert (Hfresh : alg_id algo ∉ entry_id <$> selectedAlgorithms).
  { intros Hin. apply existsb_id in Hin. congruence. }
  split; [split |].
  - rewrite fmap_app. apply NoDup_app. split; [done |]. split.
    + intros id Hid Hnew. apply list_elem_of_singleton in Hnew as ->. done.
    + apply NoDup_singleton.
  - apply Forall_app. split; [done |]. apply Forall_singleton. by exists algo.
  - unfold handleRemoveAlgorithm. rewrite filter_app.
    rewrite filter_cons_False by (intros H; by apply H).
    rewrite filter_nil, app_nil_r.
    apply filter_all, Forall_forall. intros item Hitem Hid.
    apply Hfresh. rewrite <- Hid. by apply list_elem_of_fmap_2.
Qed.

Lemma fromRegistry_remove selectedAlgorithms id :
  fromRegistry selectedAlgorithms →
  fromRegistry (handleRemoveAlgorithm selectedAlgorithms id)
  ∧ id ∉ entry_id <$> handleRemoveAlgorithm selectedAlgorithms id.
Proof.
  intros [Hnodup Hall]. split; [split |].
  - rewrite handleRemoveAlgorithm_ids. by apply NoDup_filter.
  - unfold handleRemoveAlgorithm. apply Forall_forall. intros item Hitem.
    apply list_elem_of_filter in Hitem as [_ Hitem].
    by apply (proj1 (Forall_forall _ _) Hall).
  - rewrite handleRemoveAlgorithm_ids. intros Hin.
    apply list_elem_of_filter in Hin as [Hne _]. by apply Hne.
Qed.

Lemma fromRegistry_known selectedAlgorithms :
  fromRegistry selectedAlgorithms →
  (length selectedAlgorithms ≤ 4)%nat
  ∧ Forall (λ item, ∃ found, getAlgorithm (entry_id item) = Some found
                             ∧ alg_name found = entry_name item) selectedAlgorithms.
Proof.
  intros [Hnodup Hall]. split.
  - rewrite <- (length_fmap entry_id).
    change 4%nat with (length (alg_id <$> algorithmData)).
    apply submseteq_length, NoDup_submseteq; [done |].
    intros id Hid. apply list_elem_of_fmap in Hid as (item & -> & Hitem).
    destruct (proj1 (Forall_forall _ _) Hall item Hitem) as (algo & Halgo & -> & _).
    by apply list_elem_of_fmap_2.
  - eapply Forall_impl; [exact Hall |].
    intros item (algo & Halgo & Hid & Hname). exists algo.
    rewrite Hid, Hname. split; [by apply getAlgorithm_elem_of | done].
Qed.

Lemma unselectedAlgorithms_spec selectedAlgorithms algo :
  algo ∈ unselectedAlgorithms algorithmData selectedAlgorithms
  ↔ algo ∈ algorithmData ∧ is_Some (handleAddAlgorithm selectedAlgorithms algo).
Proof.
  unfold unselectedAlgorithms, handleAddAlgorithm.
  rewrite list_elem_of_filter.
  destruct (negb (existsb _ selectedAlgorithms)); split.
  - intros [_ Hin]. split; [done | by eexists].
  - intros [Hin _]. done.
  - intros [H _]. done.
  - intros [_ [? H]]. done.
Qed.

(** X22.  [getAlgorithm] knows four identifiers, [caesar], [aes], [affine]
    and [monoalphabetic], each once in the registry, and what it returns
    for an identifier is the entry of the registry that carries it; for any
    other string it returns [undefined]. *)
Theorem registry_lookup :
  NoDup (alg_id <$> algorithmData)
  ∧ (∀ id : jsstring,
       is_Some (getAlgorithm id)
       ↔ id ∈ [str "caesar"; str "aes"; str "affine"; str "monoalphabetic"])
  ∧ (∀ (id : jsstring) (found : Algorithm),
       getAlgorithm id = Some found → found ∈ algorithmData ∧ alg_id found = id)
  ∧ (∀ algo : Algorithm,
       algo ∈ algorithmData → getAlgorithm (alg_id algo) = Some algo).
Proof.
  split; [| split; [exact getAlgorithm_ids |
            split; [exact getAlgorithm_Some | exact getAlgorithm_elem_of]]].
  rewrite registry_ids. apply (bool_decide_unpack _). by vm_compute.
Qed.

Lemma registry_lookup_witness :
  is_Some (getAlgorithm (str "affine")) ∧ ¬ is_Some (getAlgorithm (str "rot13")).
Proof.
  destruct registry_lookup as (_ & Hids & _).
  split.
  - apply (proj2 (Hids (str "affine"))).
    rewrite !elem_of_cons. right. right. left. reflexivity.
  - intros H. apply (proj1 (Hids (str "rot13"))) in H.
    rewrite !elem_of_cons, elem_of_nil in H.
    destruct H as [H | [H | [H | [H | []]]]]; discriminate H.
Defined.

(** X23.  [getDefaultKey] has a key for the identifiers of the registry
    and [null] for every other string.  The default keys of Caesar, of the
    Affine cipher and of the monoalphabetic substitution, the last one
    whatever [Math.random] returns, are accepted by the validators of
    their algorithms. *)
Theorem default_keys_are_valid (roll : Z → Z) (id : jsstring) :
  (∀ i, 1 ≤ i ≤ 25 → 0 ≤ roll i ≤ i) →
  (∀ found : Algorithm,
     getAlgorithm id = Some found →
     ∃ key, getDefaultKey roll id = Some key
            ∧ (id ≠ str "aes" → alg_keyValidator found key = true))
  ∧ (getAlgorithm id = None → getDefaultKey roll id = None).
Proof.
  intros Hroll.
  split; [intros found; by apply getDefaultKey_valid | apply getDefaultKey_unknown].
Qed.

Lemma default_keys_are_valid_witness :
  (∃ found key,
     getAlgorithm (str "affine") = Some found
     ∧ getDefaultKey (λ _, 0) (str "affine") = Some key
     ∧ alg_keyValidator found key = true)
  ∧ getDefaultKey (λ _, 0) (str "rot13") = None.
Proof.
  split.
  - destruct (default_keys_are_valid (λ _, 0) (str "affine")) as [Hvalid _];
      [intros i Hi; lia |].
    edestruct Hvalid as (key & Hkey & Hok); [reflexivity |].
    eexists _, key. split; [reflexivity |]. split; [exact Hkey |].
    apply Hok. discriminate.
  - apply (default_keys_are_valid (λ _, 0) (str "rot13")).
    + intros i Hi. lia.
    + reflexivity.
Defined.

(** X24.  The button that generates a random key.  For the identifiers of
    the registry [handleGenerateRandomKey] hands a key to [onChange],
    whatever [Math.random] returns.  For Caesar, the Affine cipher and the
    monoalphabetic substitution the validator of the algorithm accepts that
    key.  For AES, whose entry is declared with the input type
    ['substitution'], the key is a shuffled alphabet of 26 letters, and
    [validateAesKey] rejects it. *)
Theorem random_key_button (random : nat → Z → Z) (id : jsstring) (found : Algorithm) :
  inRange random → getAlgorithm id = Some found →
  ∃ key, handleGenerateRandomKey random id = Some key
         ∧ alg_keyValidator found key = bool_decide (id ≠ str "aes").
Proof. apply handleGenerateRandomKey_spec. Qed.

Lemma random_key_button_witness :
  ∃ key, handleGenerateRandomKey (λ _ n, n - 1) (str "aes") = Some (StringKey key)
         ∧ validateAesKey key = false.
Proof.
  edestruct (random_key_button (λ _ n, n - 1) (str "aes")) as (key & Hkey & Hvalid).
  - intros k n Hn. lia.
  - reflexivity.
  - injection Hkey as <-. eexists. split; [reflexivity | exact Hvalid].
Defined.

(** X25.  The three buttons of the AES key input.  Whatever [Math.random]
    returns, [generateAesKey(size)] builds a key of [size] characters whose
    UTF-8 encoding has [size] bytes, so [validateAesKey] accepts it exactly
    when [size] is 16, 24 or 32, the sizes the buttons ask for. *)
Theorem generated_aes_keys_are_valid (random : nat → Z → Z) (size : Z) :
  inRange random → 0 ≤ size →
  length (generateAesKey random size) = Z.to_nat size
  ∧ Forall (λ c, c ∈ aesKeyChars) (generateAesKey random size)
  ∧ length (stringToUint8Array (generateAesKey random size)) = Z.to_nat size
  ∧ (validateAesKey (generateAesKey random size) = true
     ↔ size = 16 ∨ size = 24 ∨ size = 32).
Proof.
  intros Hrandom Hsize.
  destruct (generateAesKey_chars random size Hrandom Hsize) as [Hlen Hchars].
  destruct (generateAesKey_valid random size Hrandom Hsize) as [Hbytes Hvalid].
  done.
Qed.

Lemma generated_aes_keys_are_valid_witness :
  validateAesKey (generateAesKey (λ k n, Z.of_nat k `mod` n) 24) = true.
Proof.
  apply (generated_aes_keys_are_valid (λ k n, Z.of_nat k `mod` n) 24).
  - intros k n Hn. apply Z.mod_pos_bound. lia.
  - lia.
  - right. left. reflexivity.
Defined.



(** ** Whole runs *)

(** *** The rows a run shows *)

Section Rows.

Variable keys : AlgorithmKey.
Variable mode : OperationMode.

Lemma alter_names (g : StepResult → StepResult) (i : nat) (l : list StepResult) :
  (∀ s, algorithm (g s) = algorithm s) →
  algorithm <$> alter g i l = algorithm <$> l.
Proof.
  intros Hg. rewrite (list_fmap_alter algorithm g id).
  - apply list_alter_id. done.
  - apply Forall_forall. intros s _. apply Hg.
Qed.

(** A run never renames a row, adds one or drops one. *)
Lemma animate_names remaining stepIndex stepInput c :
  algorithm <$> steps (animateAlgorithmStep keys mode remaining stepIndex stepInput c)
  = algorithm <$> steps c.
Proof.
  revert stepIndex stepInput c.
  induction remaining as [|current later IH]; intros stepIndex stepInput c; [done |].
  cbn [animateAlgorithmStep].
  destruct (getAlgorithm (entry_id current)) as [found|]; [| done]. cbv zeta.
  destruct (match mode with
            | ModeEncrypt => alg_encrypt found
            | ModeDecrypt => alg_decrypt found
            end stepInput (keyOf keys (entry_id current)))
    as [finalOutput|message].
  - destruct later as [|next rest].
    + cbn [steps setIsProcessing emit setFinalResult revealOutput setSteps
             setCurrentAlgorithmIndex].
      by rewrite !alter_names by done.
    + rewrite IH.
      cbn [steps setIsProcessing emit setFinalResult revealOutput setSteps
             setCurrentAlgorithmIndex].
      by rewrite !alter_names by done.
  - cbn [steps setIsProcessing emit setFinalResult revealOutput setSteps
           setCurrentAlgorithmIndex].
    by rewrite !alter_names by done.
Qed.

(** When every step that remains returns, the rows from [stepIndex] on show
    the text each step was given and the text it returned, the rows before
    are left as they were, and the last output is the final result. *)
Lemma animate_rows remaining stepIndex stepInput c result :
  remaining ≠ [] →
  length (steps c) = (stepIndex + length remaining)%nat →
  chain keys mode (Some stepInput) remaining = Some result →
  (∀ k, (k < stepIndex)%nat →
     steps (animateAlgorithmStep keys mode remaining stepIndex stepInput c) !! k
     = steps c !! k)
  ∧ (∀ k, (k < length remaining)%nat →
       ∃ row,
         steps (animateAlgorithmStep keys mode remaining stepIndex stepInput c)
           !! (stepIndex + k)%nat = Some row
         ∧ Some (input row) = chain keys mode (Some stepInput) (take k remaining)
         ∧ Some (output row) = chain keys mode (Some stepInput) (take (S k) remaining)
         ∧ isComplete row = true)
  ∧ finalResult (animateAlgorithmStep keys mode remaining stepIndex stepInput c) = result
  ∧ isProcessing (animateAlgorithmStep keys mode remaining stepIndex stepInput c) = false.
Proof.
  revert stepIndex stepInput c.
  induction remaining as [|current later IH]; intros stepIndex stepInput c Hne Hlen Hchain;
    [done |].
  rewrite chain_cons in Hchain. unfold applyStep in Hchain.
  cbn [animateAlgorithmStep].
  destruct (getAlgorithm (entry_id current)) as [found|] eqn:Hfound;
    [| by rewrite chain_None in Hchain].
  cbn [mbind option_bind] in Hchain. cbv zeta in Hchain |- *.
  assert (Hstep : ∀ text, applyStep keys mode text current
            = match (match mode with
                     | ModeEncrypt => alg_encrypt found
                     | ModeDecrypt => alg_decrypt found
                     end) text (keyOf keys (entry_id current)) with
              | Return r => Some r
              | Throw _ => None
              end).
  { intros text. unfold applyStep. by rewrite Hfound. }
  destruct (match mode with
            | ModeEncrypt => alg_encrypt found
            | ModeDecrypt => alg_decrypt found
            end stepInput (keyOf keys (entry_id current)))
    as [finalOutput|message] eqn:Hrun; [| by rewrite chain_None in Hchain].
  set (c1 := revealOutput stepIndex finalOutput
               (emit (Operation (entry_id current) stepInput)
                  (setCurrentAlgorithmIndex stepIndex
                     (setSteps (alter (λ s,
                        {| algorithm := algorithm s; input := stepInput; output := [];
                           isComplete := false |}) stepIndex) c)))).
  cbn [length] in Hlen.
  assert (Hrow : ∃ row, steps c1 !! stepIndex = Some row ∧ input row = stepInput
                        ∧ output row = finalOutput ∧ isComplete row = true).
  { destruct (lookup_lt_is_Some_2 (steps c) stepIndex) as [row0 Hrow0]; [lia |].
    eexists. subst c1.
    cbn [steps revealOutput emit setCurrentAlgorithmIndex setSteps].
    rewrite !list_lookup_alter_eq, Hrow0. simpl. done. }
  assert (Hbefore : ∀ k, k ≠ stepIndex → steps c1 !! k = steps c !! k).
  { intros k Hk. subst c1.
    cbn [steps revealOutput emit setCurrentAlgorithmIndex setSteps].
    by rewrite !list_lookup_alter_ne by done. }
  assert (Hlen1 : length (steps c1) = length (steps c)).
  { subst c1. cbn [steps revealOutput emit setCurrentAlgorithmIndex setSteps].
    by rewrite !length_alter. }
  assert (Hfirst : chain keys mode (Some stepInput) (take 1 (current :: later))
                   = Some finalOutput).
  { cbn [take]. rewrite chain_cons, Hstep, Hrun. done. }
  destruct later as [|next rest].
  - cbn [chain] in Hchain. injection Hchain as <-.
    cbn [steps finalResult isProcessing setIsProcessing emit setFinalResult].
    split; [intros k Hk; apply Hbefore; lia |].
    split; [| done].
    intros k Hk. cbn [length] in Hk. assert (k = 0%nat) as -> by lia.
    rewrite Nat.add_0_r. destruct Hrow as (row & Hat & Hin & Hout & Hdone).
    exists row. rewrite Hin, Hout. done.
  - destruct (IH (S stepIndex) finalOutput c1) as (Hkeep & Hrows & Hfinal & Hidle);
      [done | rewrite Hlen1; cbn [length] in *; lia | done |].
    split; [| split; [| done]].
    + intros k Hk. rewrite Hkeep by lia. apply Hbefore. lia.
    + intros k Hk. destruct k as [|k].
      * rewrite Nat.add_0_r, Hkeep by lia.
        destruct Hrow as (row & Hat & Hin & Hout & Hdone).
        exists row. rewrite Hin, Hout. done.
      * destruct (Hrows k) as (row & Hat & Hin & Hout & Hdone);
          [cbn [length] in *; lia |].
        exists row. replace (stepIndex + S k)%nat with (S stepIndex + k)%nat by lia.
        split; [done |]. cbn [take]. rewrite !chain_cons, Hstep, Hrun.
        done.
Qed.

End Rows.

Section FailingRows.

Variable keys : AlgorithmKey.
Variable mode : OperationMode.

(** The steps that return, followed by a step that is still to run: the
    run reaches that step with the rows of the steps before it filled in
    and every other row as it was. *)
Lemma animate_prefix before rest stepIndex stepInput c text :
  rest ≠ [] →
  length (steps c) = (stepIndex + length before + length rest)%nat →
  chain keys mode (Some stepInput) before = Some text →
  ∃ c1,
    animateAlgorithmStep keys mode (before ++ rest) stepIndex stepInput c
    = animateAlgorithmStep keys mode rest (stepIndex + length before) text c1
    ∧ length (steps c1) = length (steps c)
    ∧ finalResult c1 = finalResult c
    ∧ (∀ k, (k < stepIndex ∨ stepIndex + length before ≤ k)%nat →
         steps c1 !! k = steps c !! k)
    ∧ (∀ k, (k < length before)%nat →
         ∃ row,
           steps c1 !! (stepIndex + k)%nat = Some row
           ∧ Some (input row) = chain keys mode (Some stepInput) (take k before)
           ∧ Some (output row) = chain keys mode (Some stepInput) (take (S k) before)
           ∧ isComplete row = true).
Proof.
  intros Hrest. revert stepIndex stepInput c.
  induction before as [|current later IH]; intros stepIndex stepInput c Hlen Hchain.
  { injection Hchain as <-. exists c. rewrite Nat.add_0_r.
    split; [done |]. split; [done |]. split; [done |]. split; [done |].
    intros k Hk. simpl in Hk. lia. }
  rewrite chain_cons in Hchain. unfold applyStep in Hchain.
  cbn [app animateAlgorithmStep].
  destruct (getAlgorithm (entry_id current)) as [found|] eqn:Hfound;
    [| by rewrite chain_None in Hchain].
  cbn [mbind option_bind] in Hchain. cbv zeta in Hchain |- *.
  assert (Hstep : ∀ text, applyStep keys mode text current
            = match (match mode with
                     | ModeEncrypt => alg_encrypt found
                     | ModeDecrypt => alg_decrypt found
                     end) text (keyOf keys (entry_id current)) with
              | Return r => Some r
              | Throw _ => None
              end).
  { intros text'. unfold applyStep. by rewrite Hfound. }
  destruct (match mode with
            | ModeEncrypt => alg_encrypt found
            | ModeDecrypt => alg_decrypt found
            end stepInput (keyOf keys (entry_id current)))
    as [finalOutput|message] eqn:Hrun; [| by rewrite chain_None in Hchain].
  set (c0 := revealOutput stepIndex finalOutput
               (emit (Operation (entry_id current) stepInput)
                  (setCurrentAlgorithmIndex stepIndex
                     (setSteps (alter (λ s,
                        {| algorithm := algorithm s; input := stepInput; output := [];
                           isComplete := false |}) stepIndex) c)))).
  cbn [length] in Hlen.
  assert (Hrow : ∃ row, steps c0 !! stepIndex = Some row ∧ input row = stepInput
                        ∧ output row = finalOutput ∧ isComplete row = true).
  { destruct (lookup_lt_is_Some_2 (steps c) stepIndex) as [row0 Hrow0]; [lia |].
    eexists. subst c0.
    cbn [steps revealOutput emit setCurrentAlgorithmIndex setSteps].
    rewrite !list_lookup_alter_eq, Hrow0. simpl. done. }
  assert (Hother : ∀ k, k ≠ stepIndex → steps c0 !! k = steps c !! k).
  { intros k Hk. subst c0.
    cbn [steps revealOutput emit setCurrentAlgorithmIndex setSteps].
    by rewrite !list_lookup_alter_ne by done. }
  assert (Hlen0 : length (steps c0) = length (steps c)).
  { subst c0. cbn [steps revealOutput emit setCurrentAlgorithmIndex setSteps].
    by rewrite !length_alter. }
  assert (Hnext : later ++ rest ≠ []) by (by destruct later, rest).
  destruct (later ++ rest) as [|next others] eqn:Hwalk; [done |].
  destruct (IH (S stepIndex) finalOutput c0) as (c1 & Heq & Hlen1 & Hfinal & Hkeep & Hrows);
    [rewrite Hlen0; lia | done |].
  exists c1. cbn [length].
  replace (stepIndex + S (length later))%nat with (S stepIndex + length later)%nat by lia.
  split; [exact Heq |]. split; [congruence |]. split; [done |]. split.
  - intros k Hk. rewrite Hkeep by lia. apply Hother. lia.
  - intros k Hk. destruct k as [|k].
    + rewrite Nat.add_0_r, Hkeep by lia.
      destruct Hrow as (row & Hat & Hin & Hout & Hdone).
      exists row. rewrite Hin, Hout. split; [done |]. split; [done |].
      split; [| done]. cbn [take]. by rewrite chain_cons, Hstep, Hrun.
    + destruct (Hrows k) as (row & Hat & Hin & Hout & Hdone); [lia |].
      exists row. replace (stepIndex + S k)%nat with (S stepIndex + k)%nat by lia.
      split; [done |]. cbn [take]. rewrite !chain_cons, Hstep, Hrun. done.
Qed.

(** A step that throws: its row shows the error as its output, the rows
    of the steps after it stay as they were, and the run stops. *)
Lemma animate_throw step after stepIndex text c found message :
  (stepIndex < length (steps c))%nat →
  getAlgorithm (entry_id step) = Some found →
  match mode with
  | ModeEncrypt => alg_encrypt found
  | ModeDecrypt => alg_decrypt found
  end text (keyOf keys (entry_id step)) = Throw message →
  (∃ row,
     steps (animateAlgorithmStep keys mode (step :: after) stepIndex text c)
       !! stepIndex = Some row
     ∧ input row = text ∧ output row = str "Error: " ++ message
     ∧ isComplete row = true)
  ∧ (∀ k, k ≠ stepIndex →
       steps (animateAlgorithmStep keys mode (step :: after) stepIndex text c) !! k
       = steps c !! k)
  ∧ finalResult (animateAlgorithmStep keys mode (step :: after) stepIndex text c)
    = finalResult c
  ∧ isProcessing (animateAlgorithmStep keys mode (step :: after) stepIndex text c)
    = false.
Proof.
  intros Hindex Hfound Hthrow. cbn [animateAlgorithmStep]. rewrite Hfound. cbv zeta.
  rewrite Hthrow.
  cbn [steps finalResult isProcessing setIsProcessing setSteps emit
         setCurrentAlgorithmIndex].
  split; [| split; [| done]].
  - destruct (lookup_lt_is_Some_2 (steps c) stepIndex) as [row0 Hrow0]; [lia |].
    eexists. rewrite !list_lookup_alter_eq, Hrow0. simpl. done.
  - intros k Hk. by rewrite !list_lookup_alter_ne by done.
Qed.

End FailingRows.

(** The state a run starts from, once it has passed the guard of the
    component. *)
Lemma runEffect_start inputText algorithmOrder keys mode :
  inputText ≠ [] → algorithmOrder ≠ [] →
  ∃ c,
    runEffect inputText algorithmOrder keys mode
    = animateAlgorithmStep keys mode (traversal mode algorithmOrder) 0 inputText c
    ∧ steps c
      = (λ algo, {| algorithm := entry_name algo; input := []; output := [];
                    isComplete := false |}) <$> traversal mode algorithmOrder
    ∧ finalResult c = [].
Proof.
  intros Htext Horder.
  exists (setSteps (λ _, (λ algo,
            {| algorithm := entry_name algo; input := []; output := [];
               isComplete := false |}) <$> traversal mode algorithmOrder)
            (setIsProcessing true
               {| steps := []; currentAlgorithmIndex := 0; isProcessing := false;
                  finalResult := []; effects := [] |})).
  split; [| split].
  - unfold runEffect, processText.
    assert (Hnat : length algorithmOrder ≠ 0%nat) by (by destruct algorithmOrder).
    rewrite (bool_decide_eq_false_2 (inputText = [])) by done.
    rewrite (bool_decide_eq_false_2 (length algorithmOrder = 0%nat)) by done.
    rewrite bool_decide_eq_true_2 by lia.
    cbn [negb andb orb]. cbv zeta. by destruct mode.
  - reflexivity.
  - reflexivity.
Qed.



(** X28.  What a run shows.  The rows are one for every step, under the
    names of the steps in the order of the walk (the given order when
    encrypting, its reverse when decrypting), whatever happens during the
    run.  When the run hands a result to [onResult], every row is
    complete, the row at place [k] shows as its input the text the first
    [k] steps of the walk make of the input text and as its output the text
    the first [k + 1] steps make of it, the result is kept as the final
    result and the run is no longer processing. *)
Theorem run_shows_the_intermediate_texts
    (inputText : jsstring) (algorithmOrder : AlgorithmOrder)
    (keys : AlgorithmKey) (mode : OperationMode) :
  inputText ≠ [] → algorithmOrder ≠ [] →
  algorithm <$> steps (runEffect inputText algorithmOrder keys mode)
  = entry_name <$> traversal mode algorithmOrder
  ∧ ∀ result,
      delivered (runEffect inputText algorithmOrder keys mode) = Some result →
      finalResult (runEffect inputText algorithmOrder keys mode) = result
      ∧ isProcessing (runEffect inputText algorithmOrder keys mode) = false
      ∧ ∀ k, (k < length algorithmOrder)%nat →
          ∃ row,
            steps (runEffect inputText algorithmOrder keys mode) !! k = Some row
            ∧ Some (input row)
              = chain keys mode (Some inputText) (take k (traversal mode algorithmOrder))
            ∧ Some (output row)
              = chain keys mode (Some inputText)
                  (take (S k) (traversal mode algorithmOrder))
            ∧ isComplete row = true.
Proof.
  intros Htext Horder.
  assert (Hwalk : traversal mode algorithmOrder ≠ [])
    by (intros H; by apply traversal_nil in H).
  assert (Hlen : length (traversal mode algorithmOrder) = length algorithmOrder).
  { unfold traversal. destruct mode; [done | apply length_reverse]. }
  destruct (runEffect_start inputText algorithmOrder keys mode Htext Horder)
    as (c & Hrun & Hsteps & _).
  split.
  - rewrite Hrun, animate_names, Hsteps.
    rewrite <- list_fmap_compose. by apply list_fmap_ext.
  - intros result Hresult.
    assert (Hchain : chain keys mode (Some inputText) (traversal mode algorithmOrder)
                     = Some result).
    { unfold delivered in Hresult. rewrite runEffect_effects in Hresult by done.
      by rewrite animateEffects_results in Hresult by done. }
    rewrite Hrun.
    destruct (animate_rows keys mode (traversal mode algorithmOrder) 0 inputText c
                result Hwalk)
      as (_ & Hrows & Hfinal & Hidle); [| done |].
    { by rewrite Hsteps, length_fmap. }
    split; [done |]. split; [done |].
    intros k Hk. apply (Hrows k). lia.
Qed.

Lemma run_shows_the_intermediate_texts_witness :
  algorithm <$> steps (runEffect (str "HELLO") [caesarStep; affineStep] exampleKeys
                         ModeDecrypt)
  = [str "Affine Cipher"; str "Caesar Cipher"].
Proof.
  apply (run_shows_the_intermediate_texts (str "HELLO") [caesarStep; affineStep]
           exampleKeys ModeDecrypt); discriminate.
Defined.

(** X29.  What a failing run shows.  When the steps before some step of the
    walk have all returned and the operation of that step throws, the row
    of that step shows the text it was given and, as its output, ["Error: "]
    followed by the message of the error, and counts as complete; the rows
    before it show the inputs and outputs of their steps; the rows after it
    stay empty and incomplete; no final result is kept, and the run is no
    longer processing. *)
Theorem failing_step_shows_its_error
    (inputText : jsstring) (algorithmOrder : AlgorithmOrder)
    (keys : AlgorithmKey) (mode : OperationMode)
    (before : AlgorithmOrder) (step : OrderEntry) (after : AlgorithmOrder)
    (found : Algorithm) (text message : jsstring) :
  inputText ≠ [] →
  traversal mode algorithmOrder = before ++ step :: after →
  chain keys mode (Some inputText) before = Some text →
  getAlgorithm (entry_id step) = Some found →
  match mode with
  | ModeEncrypt => alg_encrypt found
  | ModeDecrypt => alg_decrypt found
  end text (keyOf keys (entry_id step)) = Throw message →
  (∃ row,
     steps (runEffect inputText algorithmOrder keys mode) !! length before = Some row
     ∧ algorithm row = entry_name step ∧ input row = text
     ∧ output row = str "Error: " ++ message ∧ isComplete row = true)
  ∧ (∀ k, (k < length before)%nat →
       ∃ row,
         steps (runEffect inputText algorithmOrder keys mode) !! k = Some row
         ∧ Some (input row) = chain keys mode (Some inputText) (take k before)
         ∧ Some (output row) = chain keys mode (Some inputText) (take (S k) before)
         ∧ isComplete row = true)
  ∧ (∀ k row, (length before < k)%nat →
       steps (runEffect inputText algorithmOrder keys mode) !! k = Some row →
       input row = [] ∧ output row = [] ∧ isComplete row = false)
  ∧ finalResult (runEffect inputText algorithmOrder keys mode) = []
  ∧ isProcessing (runEffect inputText algorithmOrder keys mode) = false.
Proof.
  intros Htext Hwalk Hchain Hfound Hthrow.
  assert (Horder : algorithmOrder ≠ []).
  { intros ->. destruct mode, before; discriminate Hwalk. }
  destruct (runEffect_start inputText algorithmOrder keys mode Htext Horder)
    as (c & Hrun & Hsteps & Hfinal).
  rewrite Hwalk in Hrun, Hsteps.
  destruct (animate_prefix keys mode before (step :: after) 0 inputText c text)
    as (c1 & Heq & Hlen1 & Hfinal1 & Hkeep & Hrows); [done | | done |].
  { rewrite Hsteps, length_fmap, length_app. simpl. lia. }
  rewrite Heq in Hrun. change (0 + length before)%nat with (length before) in Hrun.
  assert (Hlen : length (steps c1) = (length before + S (length after))%nat).
  { rewrite Hlen1, Hsteps, length_fmap, length_app. done. }
  destruct (animate_throw keys mode step after (length before) text c1 found message)
    as ((row & Hat & Hin & Hout & Hdone) & Hother & Hfinal2 & Hidle);
    [lia | done | done |].
  rewrite Hrun.
  assert (Hnames : algorithm <$> steps (runEffect inputText algorithmOrder keys mode)
                   = entry_name <$> (before ++ step :: after)).
  { destruct (runEffect_start inputText algorithmOrder keys mode Htext Horder)
      as (c' & Hrun' & Hsteps' & _).
    rewrite Hrun', animate_names, Hsteps', Hwalk.
    rewrite <- list_fmap_compose. by apply list_fmap_ext. }
  rewrite Hrun in Hnames.
  split; [| split; [| split; [| split]]].
  - exists row. split; [done |]. split; [| done].
    assert (Hname : algorithm <$> Some row
                    = entry_name <$> (before ++ step :: after) !! length before).
    { rewrite <- Hat, <- !list_lookup_fmap. by rewrite Hnames. }
    rewrite lookup_app_r, Nat.sub_diag in Hname by lia.
    simpl in Hname. congruence.
  - intros k Hk. rewrite Hother by lia.
    destruct (Hrows k Hk) as (row' & Hat' & Hrest). by exists row'.
  - intros k row' Hk Hat'. rewrite Hother in Hat' by lia.
    rewrite Hkeep in Hat' by (simpl; lia).
    rewrite Hsteps, list_lookup_fmap in Hat'.
    destruct ((before ++ step :: after) !! k) as [algo|]; [| done].
    simpl in Hat'. injection Hat' as <-. done.
  - by rewrite Hfinal2, Hfinal1.
  - done.
Qed.

Lemma failing_step_shows_its_error_witness :
  ∃ row,
    steps (runEffect (str "HELLO") [caesarStep; affineStep] keysWithA4 ModeEncrypt)
      !! 1%nat = Some row
    ∧ algorithm row = str "Affine Cipher" ∧ input row = str "KHOOR"
    ∧ output row = str "Error: " ++ notCoprimeMessage ∧ isComplete row = true.
Proof.
  eapply proj1.
  eapply (failing_step_shows_its_error (str "HELLO") [caesarStep; affineStep]
            keysWithA4 ModeEncrypt [caesarStep] affineStep []).
  - discriminate.
  - reflexivity.
  - vm_compute. reflexivity.
  - reflexivity.
  - vm_compute. reflexivity.
Defined.

